(** * Artifact synthesis (img_manip.py): a shallow embedding

    The module under study draws histology artifacts (marker strokes, tissue
    folds, uneven sectioning, illumination gradients, bubbles, stain shifts,
    tears) onto an image.  Every generator is a sequence of draws from NumPy's
    module-global random generator interleaved with array kernels of NumPy,
    SciPy, OpenCV and PIL.

    The embedding keeps the control flow, the order of the random draws, the
    index arithmetic and the Python/NumPy failure points of the source.
    Floating-point values are idealised as rationals ([Q]); IEEE rounding and
    the special values (inf, nan) are outside the model.  The numeric kernels
    of the libraries (interpolation, distance transform, blurs, warps, colour
    conversions, the generator's bit stream, the BLAKE2s digest) are the
    fields of the [Library] interface. *)

From Stdlib Require Import ZArith QArith Qround Qminmax List String Bool Lia Lqa.
Import ListNotations.

Open Scope Z_scope.

(* ------------------------------------------------------------------------- *)
(** ** Python outcomes *)

(** Exception classes.  The first four are the built-ins that the interpreter
    and the libraries raise on the paths modelled here; [RecursionError] is
    what the layer recursion of [add_fold] would end in if it ran out of
    fuel.  [InvalidInputError] and [DecompositionError] are named by the
    design document; img_manip.py defines neither class and has no [raise]
    statement. *)
Inductive exn : Set :=
| ValueError | TypeError | IndexError | KeyError | RecursionError
| InvalidInputError | DecompositionError.

Inductive result (A : Type) : Type :=
| Ok (a : A)
| Raise (e : exn).
Arguments Ok {A} a.
Arguments Raise {A} e.

Definition rbind {A B} (r : result A) (k : A -> result B) : result B :=
  match r with
  | Ok a => k a
  | Raise e => Raise e
  end.

Definition rmap {A B} (f : A -> B) (r : result A) : result B :=
  rbind r (fun a => Ok (f a)).

(** A parameter that is either a Python [bool] or a Python [int]
    ([startEdge], [endEdge]). *)
Inductive edge_opt : Set :=
| EBool (b : bool)
| EInt (z : Z).

(** [bool] is a subclass of [int]: [True == 1], [False == 0]. *)
Definition py_int_of (e : edge_opt) : Z :=
  match e with
  | EBool true => 1
  | EBool false => 0
  | EInt z => z
  end.

(** [e == True] *)
Definition py_eq_True (e : edge_opt) : bool := py_int_of e =? 1.

(** [e in range(lo, hi)] *)
Definition py_in_range (e : edge_opt) (lo hi : Z) : bool :=
  (lo <=? py_int_of e) && (py_int_of e <? hi).

(** [type(e) != bool] *)
Definition py_not_bool (e : edge_opt) : bool :=
  match e with
  | EBool _ => false
  | EInt _ => true
  end.

(** [seed + k] where [seed] may be [None]: [None + 1] raises [TypeError]. *)
Definition py_add_int (seed : option Z) (k : Z) : result Z :=
  match seed with
  | Some s => Ok (s + k)
  | None => Raise TypeError
  end.

(* ------------------------------------------------------------------------- *)
(** ** Float-to-integer conversions *)

(** [int(x)] and [ndarray.astype(int)]: truncation toward zero. *)
Definition py_trunc (q : Q) : Z :=
  if Qle_bool 0 q then Qfloor q else Qceiling q.

(** [np.round]: to the nearest integer, ties to the even one. *)
Definition np_round (q : Q) : Z :=
  let f := Qfloor q in
  let r := (q - inject_Z f)%Q in
  if Qle_bool r (1 # 2)
  then if Qle_bool (1 # 2) r
       then (if Z.even f then f else f + 1)
       else f
  else f + 1.

Definition Z2Q (z : Z) : Q := inject_Z z.

(* ------------------------------------------------------------------------- *)
(** ** Arrays *)

(** A sampled path or handle-point array: rows of [(x, y)]. *)
Definition path := list (Q * Q).

(** A 2-D float array, row-major: [raster] has [height] rows of [width]
    entries. *)
Definition raster := list (list Q).
Definition region := list (list bool).

Definition np_full {A} (invDim : Z * Z) (v : A) : list (list A) :=
  repeat (repeat v (Z.to_nat (snd invDim))) (Z.to_nat (fst invDim)).

Definition np_ones (invDim : Z * Z) : raster := np_full invDim 1%Q.

(** NumPy index normalisation on an axis of length [n]: [0 <= i < n] is used
    as is, [-n <= i < 0] wraps to [i + n], anything else is an
    [IndexError]. *)
Definition np_index (n i : Z) : result Z :=
  if (0 <=? i) && (i <? n) then Ok i
  else if (- n <=? i) && (i <? 0) then Ok (i + n)
  else Raise IndexError.

Fixpoint list_set {A} (l : list A) (i : nat) (v : A) : list A :=
  match l, i with
  | [], _ => []
  | _ :: t, O => v :: t
  | h :: t, S i' => h :: list_set t i' v
  end.

Definition raster_set {A} (m : list (list A)) (r c : Z) (v : A) : list (list A) :=
  list_set m (Z.to_nat r) (list_set (nth (Z.to_nat r) m []) (Z.to_nat c) v).

(** [m[rows, cols] = v] for index arrays [rows], [cols] given as the list of
    their pairs. *)
Fixpoint np_set_cells {A} (invDim : Z * Z) (idx : list (Z * Z)) (v : A)
  (m : list (list A)) : result (list (list A)) :=
  match idx with
  | [] => Ok m
  | (r, c) :: rest =>
      rbind (np_index (fst invDim) r) (fun r' =>
      rbind (np_index (snd invDim) c) (fun c' =>
      np_set_cells invDim rest v (raster_set m r' c' v)))
  end.

Definition cell {A} (d : A) (m : list (list A)) (r c : Z) : A :=
  nth (Z.to_nat c) (nth (Z.to_nat r) m []) d.

Definition raster_map {A B} (f : A -> B) (m : list (list A)) : list (list B) :=
  map (map f) m.

Fixpoint zip_with {A B C} (f : A -> B -> C) (l1 : list A) (l2 : list B) : list C :=
  match l1, l2 with
  | a :: t1, b :: t2 => f a b :: zip_with f t1 t2
  | _, _ => []
  end.

Definition raster_zip {A B C} (f : A -> B -> C)
  (m1 : list (list A)) (m2 : list (list B)) : list (list C) :=
  zip_with (zip_with f) m1 m2.

(** [np.reshape(flat, invDim)] of a flat list of [height * width] values. *)
Fixpoint chunks {A} (w : nat) (rows : nat) (l : list A) : list (list A) :=
  match rows with
  | O => []
  | S rows' => firstn w l :: chunks w rows' (skipn w l)
  end.

Definition np_reshape {A} (invDim : Z * Z) (l : list A) : list (list A) :=
  chunks (Z.to_nat (snd invDim)) (Z.to_nat (fst invDim)) l.

(** [a <= t], elementwise. *)
Definition np_le (m : raster) (t : Q) : region :=
  raster_map (fun d => Qle_bool d t) m.

(** Whether an index pair addresses a cell of an array of shape [invDim]
    directly, with no wrap-around and no error. *)
Definition in_bounds (invDim : Z * Z) (rc : Z * Z) : Prop :=
  0 <= fst rc < fst invDim /\ 0 <= snd rc < snd invDim.

(* ------------------------------------------------------------------------- *)
(** ** Identity-to-seed derivation ([apply_artifact], lines 835-865) *)

Inductive artifact : Set :=
| Marker | Fold | Sectioning | Illumination | Bubbles | Stain | Tear.

Definition artifact_name (a : artifact) : string :=
  match a with
  | Marker => "marker"
  | Fold => "fold"
  | Sectioning => "sectioning"
  | Illumination => "illumination"
  | Bubbles => "bubbles"
  | Stain => "stain"
  | Tear => "tear"
  end.

Definition typeSeedAdd : list (string * Z) :=
  [("marker", 1); ("fold", 2); ("sectioning", 3); ("illumination", 4);
   ("bubbles", 5); ("stain", 6); ("tear", 7)]%string.

Definition typeTileRand : list (string * bool) :=
  [("marker", true); ("fold", true); ("sectioning", true);
   ("illumination", true); ("bubbles", true); ("stain", false);
   ("tear", true)]%string.

(** [d[k]] on a dict literal: [KeyError] for a missing key. *)
Fixpoint dict_get {V} (d : list (string * V)) (k : string) : result V :=
  match d with
  | [] => Raise KeyError
  | (k', v) :: rest => if String.eqb k' k then Ok v else dict_get rest k
  end.

(** max size of the random seed *)
Definition randMax : Z := 2 ^ 32 - 1.

Section SeedDerivation.
(** [str.lower] and the BLAKE2s digest of the UTF-8 encoding of a string,
    read as a base-16 integer ([int(h.hexdigest(), 16)]). *)
Variable py_lower : string -> string.
Variable blake2s_int : string -> Z.

(** [fID] is the identity string that [apply_artifact] joins from the path
    components of the input file. *)
Definition derive_seed (fID artifactType : string) (randAdd : Z) : result Z :=
  let artifactType := py_lower artifactType in
  let h_int := blake2s_int fID in
  rbind (dict_get typeSeedAdd artifactType) (fun off =>
  let random_hash := h_int + randAdd + off in
  Ok (random_hash mod randMax)).

(** Which identity the seed is derived from: the tile or only the slide. *)
Definition tile_policy (artifactType : string) (perTileRand : option bool)
  : result bool :=
  match perTileRand with
  | None => dict_get typeTileRand (py_lower artifactType)
  | Some b => Ok b
  end.
End SeedDerivation.

(* ------------------------------------------------------------------------- *)
(** ** The libraries the module calls *)

(** A 2x2 covariance matrix, by rows. *)
Definition cov2 : Type := (Q * Q) * (Q * Q).
Definition triple (A : Type) : Type := (A * A * A)%type.

Class Library : Type := {
  (** numpy.random: the state of the module-global Mersenne Twister, the
      operating-system entropy that [seed(None)] reads, and the scalar
      draws.  An array draw fills its cells one scalar draw after the
      other. *)
  rng : Type;
  entropy : Type;
  seed_int : Z -> rng;
  seed_os : entropy -> rng * entropy;
  randint1 : Z -> Z -> rng -> Z * rng;
  uniform1 : Q -> Q -> rng -> Q * rng;
  choice1 : list Z -> rng -> Z * rng;
  (** float kernels *)
  np_sqrt : Q -> Q;
  np_pi : Q;
  np_power : Q -> Z -> Q;
  (** scipy: PCHIP evaluation on at least two abscissae, the exact Euclidean
      distance transform, the bivariate normal density on a grid *)
  pchip_eval : list Q -> path -> list Q -> result path;
  distance_transform_edt : raster -> raster;
  mvn_pdf : Q * Q -> cov2 -> list (list (Q * Q)) -> result raster;
  (** cv2.blur with a 5x5 kernel *)
  blur5 : raster -> raster;
  (** PIL images and H x W x 3 arrays *)
  image : Type;
  array3 : Type;
  im_size : image -> Z * Z;
  np_array : image -> array3;
  (** lines 211-220: alpha mask from the region, solid colour layer,
      [Image.composite], conversion to RGB *)
  marker_composite : image -> region -> Q -> triple Q -> image;
  (** lines 288-293 and 322-324: symmetric padding, [getPerspectiveTransform]
      from the shifted corners to the path's bounding box, [warpPerspective] *)
  warp_sample : array3 -> Z * Z -> list (Q * Q) -> list (Q * Q) -> result array3;
  (** lines 340-345: per-channel multiplier inside the region,
      [GaussianBlur] with the given odd kernel size, product with the image *)
  fold_composite : image -> array3 -> region -> Z -> result image;
  (** lines 420-427: saturation and value rescaled in HSV *)
  sectioning_apply : image -> raster -> image;
  (** lines 464-474 *)
  bubbles_composite : image -> region -> region -> Q -> triple Q -> triple Q -> image;
  (** lines 525-529 *)
  illumination_apply : image -> raster -> image;
  (** lines 562-582: the Deconvolution package's density maps
      ([out_scalars] through [_array_positive]), and
      [_array_to_colour_255] of white times the listed basis vectors (0 for
      [v], 1 for [u], 2 for [w]) raised to their exponent maps *)
  stain_densities : image -> result (triple raster);
  stain_exp_map : image -> list (Z * raster) -> array3;
  image_fromarray : array3 -> image;
  (** lines 783-796 *)
  tear_composite : image -> region -> region -> Q -> Q -> triple Q -> triple Q -> image
}.

(* ------------------------------------------------------------------------- *)
(** ** The state monad of the generators *)

Section Generators.
Context {L : Library}.

(** What a call can read besides its arguments: the state of the global
    generator and the entropy source. *)
Definition world : Type := (rng * entropy)%type.
Definition World (g : rng) (e : entropy) : world := (g, e).
Definition gen (w : world) : rng := fst w.
Definition os (w : world) : entropy := snd w.

Definition M (A : Type) : Type := world -> result (A * world).

Definition ret {A} (a : A) : M A := fun w => Ok (a, w).

Definition bind {A B} (m : M A) (k : A -> M B) : M B :=
  fun w =>
    match m w with
    | Ok (a, w') => k a w'
    | Raise e => Raise e
    end.

Definition raise {A} (e : exn) : M A := fun _ => Raise e.

Definition lift {A} (r : result A) : M A :=
  fun w =>
    match r with
    | Ok a => Ok (a, w)
    | Raise e => Raise e
    end.

Definition draw {A} (f : rng -> A * rng) : M A :=
  fun w => let (a, g) := f (gen w) in Ok (a, World g (os w)).
End Generators.

Declare Scope gen_scope.
Delimit Scope gen_scope with gen.
Notation "x <- m ;; k" := (bind m (fun x => k))
  (at level 100, m at next level, right associativity) : gen_scope.
Notation "' pat <- m ;; k" := (bind m (fun x => match x with pat => k end))
  (at level 100, pat pattern, m at next level, right associativity) : gen_scope.
Notation "m ;; k" := (bind m (fun _ => k))
  (at level 100, right associativity) : gen_scope.
Open Scope gen_scope.

Section Random.
Context {L : Library}.

Fixpoint repeatM {A} (n : nat) (m : M A) : M (list A) :=
  match n with
  | O => ret []
  | S n' => a <- m ;; rest <- repeatM n' m ;; ret (a :: rest)
  end.

Fixpoint mapM {A B} (f : A -> M B) (l : list A) : M (list B) :=
  match l with
  | [] => ret []
  | a :: t => b <- f a ;; rest <- mapM f t ;; ret (b :: rest)
  end.

(** [np.random.seed(seed)]: [None] reseeds from the operating system, an
    integer must lie between 0 and 2**32 - 1. *)
Definition seed_ok (s : Z) : bool := (0 <=? s) && (s <=? 2 ^ 32 - 1).

Definition np_seed (seed : option Z) : M unit :=
  fun w =>
    match seed with
    | None => let (g, e) := seed_os (os w) in Ok (tt, World g e)
    | Some s =>
        if seed_ok s then Ok (tt, World (seed_int s) (os w))
        else Raise ValueError
    end.

(** [np.random.randint(low, high)]: a scalar in [[low, high)];
    [ValueError] for an empty range. *)
Definition np_randint (low high : Z) : M Z :=
  if low <? high then draw (randint1 low high) else raise ValueError.

(** [np.random.randint(low, high, size=...)] with [count] cells in all;
    a negative dimension is a [ValueError]. *)
Definition np_randint_n (low high count : Z) : M (list Z) :=
  if low <? high
  then if count <? 0 then raise ValueError
       else repeatM (Z.to_nat count) (draw (randint1 low high))
  else raise ValueError.

(** [np.random.uniform(low, high)] and its array form. *)
Definition np_uniform (low high : Q) : M Q := draw (uniform1 low high).

Definition np_uniform_n (low high : Q) (count : Z) : M (list Q) :=
  if count <? 0 then raise ValueError
  else repeatM (Z.to_nat count) (draw (uniform1 low high)).

(** Draws of shape [invDim]. *)
Definition cells (invDim : Z * Z) : Z :=
  if (fst invDim <? 0) || (snd invDim <? 0) then -1
  else fst invDim * snd invDim.

Definition np_randint_2d (low high : Z) (invDim : Z * Z) : M raster :=
  l <- np_randint_n low high (cells invDim) ;;
  ret (np_reshape invDim (map Z2Q l)).

Definition np_uniform_2d (low high : Q) (invDim : Z * Z) : M raster :=
  l <- np_uniform_n low high (cells invDim) ;;
  ret (np_reshape invDim l).
End Random.


(* ------------------------------------------------------------------------- *)
(** ** rand_spline (lines 15-82) *)

(** [LR_v_TB = edgeNum % 2]: left/right against top/bottom;
    [LT_V_RB = edgeNum // 2]: left/top against right/bottom. *)
Definition LR_v_TB (edgeNum : Z) : Z := edgeNum mod 2.
Definition LT_V_RB (edgeNum : Z) : Z := edgeNum / 2.

(** [dim[k]] and the column [k] of a row, for [k] in {0, 1}. *)
Definition dim_at (dim : Z * Z) (k : Z) : Z :=
  if k =? 0 then fst dim else snd dim.

Definition set_coord (p : Z * Z) (k v : Z) : Z * Z :=
  if k =? 0 then (v, snd p) else (fst p, v).

(** [inPts[row, LR_v_TB] = LT_V_RB * (dim[LR_v_TB] - 1)]: one edge or the
    other. *)
Definition pin_to_edge (row edgeNum : Z) (dim : Z * Z) (inPts : list (Z * Z))
  : result (list (Z * Z)) :=
  rbind (np_index (Z.of_nat (List.length inPts)) row) (fun i =>
  let k := LR_v_TB edgeNum in
  let v := LT_V_RB edgeNum * (dim_at dim k - 1) in
  Ok (list_set inPts (Z.to_nat i) (set_coord (nth (Z.to_nat i) inPts (0, 0)) k v))).

(** [np.diff(a, axis=0)] on rows of pairs. *)
Definition np_diff (pts : path) : list (Q * Q) :=
  zip_with (fun p q => (fst q - fst p, snd q - snd p)%Q) pts (tl pts).

Fixpoint cumsum_from (acc : Q) (l : list Q) : list Q :=
  match l with
  | [] => []
  | x :: t => (acc + x)%Q :: cumsum_from (acc + x)%Q t
  end.

Definition np_cumsum (l : list Q) : list Q := cumsum_from 0%Q l.

(** [np.arange(n)] *)
Definition np_arange (n : Z) : list Q :=
  map (fun i => Z2Q (Z.of_nat i)) (seq 0 (Z.to_nat n)).

Definition points_to_Q (pts : list (Z * Z)) : path :=
  map (fun p => (Z2Q (fst p), Z2Q (snd p))) pts.

Section Spline.
Context {L : Library}.

(** The random handle points of lines 45-71. *)
Definition random_handles (dim : Z * Z) (nPts : Z) (startEdge endEdge : edge_opt)
  : M (list (Z * Z)) :=
  xs <- np_randint_n 0 (fst dim - 1) nPts ;;
  ys <- np_randint_n 0 (snd dim - 1) nPts ;;
  let inPts := combine xs ys in
  let startEdgeFlag := py_eq_True startEdge || py_in_range startEdge 0 4 in
  '(inPts, edgeNum) <-
    (if startEdgeFlag
     then
       edgeNum <- (if py_in_range startEdge 0 4 && py_not_bool startEdge
                   then ret (py_int_of startEdge)
                   else np_randint 0 4) ;;
       inPts' <- lift (pin_to_edge 0 edgeNum dim inPts) ;;
       ret (inPts', edgeNum)
     else ret (inPts, 0)) ;;
  if py_eq_True endEdge || py_in_range endEdge 0 4
     || (py_in_range endEdge (-4) 0 && startEdgeFlag)
  then
    edgeNum' <- (if py_in_range endEdge 0 4
                 then ret (py_int_of endEdge)
                 else if py_in_range endEdge (-4) 0 && startEdgeFlag
                      then ret ((py_int_of endEdge + edgeNum + 4) mod 4)
                      else np_randint 0 4) ;;
    lift (pin_to_edge (nPts - 1) edgeNum' dim inPts)
  else ret inPts.

(** [interpolate.pchip_interpolate]: SciPy refuses fewer than two abscissae
    with a [ValueError]. *)
Definition pchip_interpolate (xi : list Q) (yi : path) (x : list Q) : result path :=
  if (List.length xi <? 2)%nat then Raise ValueError else pchip_eval xi yi x.

(** Lines 78-81: cumulative chord length, one sample per unit of it. *)
Definition resample (inPts : path) : result path :=
  let distXY :=
    map (fun d => np_sqrt (fst d * fst d + snd d * snd d)%Q) (np_diff inPts) in
  let cdXY := 0%Q :: np_cumsum distXY in
  let iDist := np_arange (Qfloor (last cdXY 0%Q) + 1) in
  pchip_interpolate cdXY inPts iDist.

Definition rand_spline (dim : Z * Z) (inPts : option path) (nPts : Z)
  (random_seed : option Z) (startEdge endEdge : edge_opt) : M path :=
  np_seed random_seed ;;
  inPts <- match inPts with
           | None =>
               hs <- random_handles dim nPts startEdge endEdge ;;
               ret (points_to_Q hs)
           | Some pts => ret pts
           end ;;
  lift (resample inPts).
End Spline.

(* ------------------------------------------------------------------------- *)
(** ** Masks over a path *)

(** [mask = np.ones(invDim); mask[conv(sampSpl[:,1]), conv(sampSpl[:,0])] = 0]
    where [conv] is [np.round(.).astype(int)] in [add_marker] and
    [.astype(int)] in [add_fold] and [add_sectioning]. *)
Definition path_index (conv : Q -> Z) (sampSpl : path) : list (Z * Z) :=
  map (fun p => (conv (snd p), conv (fst p))) sampSpl.

Definition path_mask (conv : Q -> Z) (invDim : Z * Z) (sampSpl : path)
  : result raster :=
  np_set_cells invDim (path_index conv sampSpl) 0%Q (np_ones invDim).

(* ------------------------------------------------------------------------- *)
(** ** add_marker (lines 160-221) *)

Section Marker.
Context {L : Library}.

(** Lines 189-210: colour draw, path, mask, distance map, region. *)
Definition marker_region (inputIm : image) (random_seed : option Z) (nPts : Z)
  (sampSpl inPts : option path) (width : Q) (rgbVal : option (triple Q))
  (rgbRange : triple (Z * Z)) : M (triple Q * region) :=
  np_seed random_seed ;;
  rgbVal <- match rgbVal with
            | Some v => ret v
            | None =>
                let '(r0, r1, r2) := rgbRange in
                v0 <- np_randint (fst r0) (snd r0) ;;
                v1 <- np_randint (fst r1) (snd r1) ;;
                v2 <- np_randint (fst r2) (snd r2) ;;
                ret (Z2Q v0, Z2Q v1, Z2Q v2)
            end ;;
  let dim := im_size inputIm in
  let invDim := (snd dim, fst dim) in
  sampSpl <- match sampSpl with
             | Some s => ret s
             | None =>
                 match inPts with
                 | None => rand_spline dim None nPts random_seed (EBool true) (EBool true)
                 | Some pts => rand_spline dim (Some pts) 5 random_seed (EBool true) (EBool true)
                 end
             end ;;
  mask <- lift (path_mask np_round invDim sampSpl) ;;
  let bwDist := distance_transform_edt mask in
  let bwReg := np_le bwDist (width / 2)%Q in
  ret (rgbVal, bwReg).

Definition add_marker (inputIm : image) (random_seed : option Z) (nPts : Z)
  (sampSpl inPts : option path) (width alpha : Q) (rgbVal : option (triple Q))
  (rgbRange : triple (Z * Z)) : M image :=
  '(rgbVal, bwReg) <- marker_region inputIm random_seed nPts sampSpl inPts
                         width rgbVal rgbRange ;;
  ret (marker_composite inputIm bwReg alpha rgbVal).
End Marker.

(* ------------------------------------------------------------------------- *)
(** ** add_fold (lines 224-351) *)

(** [np.amin(sampSpl, axis=0)] over [np.amax(sampSpl, axis=0)]; a reduction
    of a zero-size array raises [ValueError]. *)
Definition bounding_box (sampSpl : path) : result ((Q * Q) * (Q * Q)) :=
  match sampSpl with
  | [] => Raise ValueError
  | p :: t =>
      Ok (fold_left (fun a q => (Qmin (fst a) (fst q), Qmin (snd a) (snd q))) t p,
          fold_left (fun a q => (Qmax (fst a) (fst q), Qmax (snd a) (snd q))) t p)
  end.

(** Row [i] of a 2x2 box, [i] in {0, 1}. *)
Definition box_row (box : (Q * Q) * (Q * Q)) (i : Z) : Q * Q :=
  if i =? 0 then fst box else snd box.

(** Lines 295-304: the box that is sampled from, scaled about the centre of
    the path's box ([signTup = (-1, 1)]). *)
Definition rescaled_box (sampSplBBox : (Q * Q) * (Q * Q)) (scaleXY : Q * Q)
  : (Q * Q) * (Q * Q) :=
  let '((x0, y0), (x1, y1)) := sampSplBBox in
  let sampSplBBSz := (x1 - x0, y1 - y0)%Q in
  let mean := ((x0 + x1) / 2, (y0 + y1) / 2)%Q in
  let half := (fst sampSplBBSz / 2 * fst scaleXY,
               snd sampSplBBSz / 2 * snd scaleXY)%Q in
  ((fst mean + fst half * inject_Z (-1), snd mean + snd half * inject_Z (-1)),
   (fst mean + fst half * inject_Z 1, snd mean + snd half * inject_Z 1))%Q.

(** Lines 313-319: the four corner correspondences. *)
Definition corner_points (sampSplBBox rsSplBBox : (Q * Q) * (Q * Q))
  (pad_szXY : Z * Z) (shiftXY : Z * Z) (randShiftX randShiftY : list Z)
  : list (Q * Q) * list (Q * Q) :=
  let corner (di : Z) :=
    let lr := LR_v_TB di in
    let lt := LT_V_RB di in
    ((fst (box_row sampSplBBox lr), snd (box_row sampSplBBox lt)),
     (fst (box_row rsSplBBox lr) + Z2Q (fst pad_szXY) + Z2Q (fst shiftXY)
        + Z2Q (nth (Z.to_nat di) randShiftX 0%Z),
      snd (box_row rsSplBBox lt) + Z2Q (snd pad_szXY) + Z2Q (snd shiftXY)
        + Z2Q (nth (Z.to_nat di) randShiftY 0%Z)))%Q in
  let cs := map corner [0; 1; 2; 3] in
  (map fst cs, map snd cs).

Section FoldAndSectioning.
Context {L : Library}.

(** One layer: lines 269-345.  Returns the composite together with the
    sample array and the path, which the next layer reuses. *)
Definition fold_layer (inputIm : image) (sampArr : option array3)
  (sampSpl inPts : option path) (random_seed : option Z) (scaleXY : Q * Q)
  (width : Q) (sampShiftXY : option (Z * Z)) (randEdge : bool) (nPts : Z)
  (endEdge : edge_opt) : M (image * array3 * path) :=
  let im_arr := np_array inputIm in
  let dim := im_size inputIm in
  let invDim := (snd dim, fst dim) in
  sampSpl <- match sampSpl with
             | Some s => ret s
             | None =>
                 match inPts with
                 | None => rand_spline dim None nPts random_seed (EBool true) endEdge
                 | Some pts => rand_spline dim (Some pts) 5 random_seed (EBool true) (EBool true)
                 end
             end ;;
  let sampArr := match sampArr with Some a => a | None => im_arr end in
  shiftXY <- match sampShiftXY with
             | None =>
                 l <- np_randint_n (- py_trunc (Z2Q (fst dim) / 2))
                        (py_trunc (Z2Q (fst dim) / 2)) 2 ;;
                 ret (nth 0 l 0, nth 1 l 0)
             | Some s => ret s
             end ;;
  let pad_szXY := (Z.max (fst dim) (snd dim), Z.max (fst dim) (snd dim)) in
  let sampBlur := Qfloor (width / 40) * 2 + 1 in
  sampSplBBox <- lift (bounding_box sampSpl) ;;
  let rsSplBBox := rescaled_box sampSplBBox scaleXY in
  let rsSplBBSz := (fst (snd rsSplBBox) - fst (fst rsSplBBox),
                    snd (snd rsSplBBox) - snd (fst rsSplBBox))%Q in
  randShiftX <- np_randint_n (- py_trunc (fst rsSplBBSz / 4))
                  (py_trunc (fst rsSplBBSz / 4)) 4 ;;
  randShiftY <- np_randint_n (- py_trunc (snd rsSplBBSz / 4))
                  (py_trunc (snd rsSplBBSz / 4)) 4 ;;
  let '(sampSplBBPts, outBBPts) :=
    corner_points sampSplBBox rsSplBBox pad_szXY shiftXY randShiftX randShiftY in
  warp_im <- lift (warp_sample sampArr dim outBBPts sampSplBBPts) ;;
  mask <- lift (path_mask py_trunc invDim sampSpl) ;;
  let bwDist := distance_transform_edt mask in
  bwDist <- (if randEdge
             then
               distRand <- np_randint_2d (- py_trunc (width / 4))
                             (py_trunc (width / 4)) invDim ;;
               ret (blur5 (raster_zip Qplus bwDist distRand))
             else ret bwDist) ;;
  let bwReg := np_le bwDist (width / 2)%Q in
  comp_im <- lift (fold_composite inputIm warp_im bwReg sampBlur) ;;
  ret (comp_im, sampArr, sampSpl).

(** The recursion over layers.  [fuel] bounds the depth; [add_fold] supplies
    the layer count, which is never exhausted. *)
Fixpoint add_fold_layers (fuel : nat) (inputIm : image) (sampArr : option array3)
  (sampSpl inPts : option path) (random_seed : option Z) (scaleXY : Q * Q)
  (width : Q) (sampShiftXY : option (Z * Z)) (randEdge : bool) (nLayers nPts : Z)
  (endEdge : edge_opt) : M image :=
  np_seed random_seed ;;
  if nLayers <? 1 then ret inputIm
  else
    '(comp_im, sampArr', sampSpl') <-
       fold_layer inputIm sampArr sampSpl inPts random_seed scaleXY width
         sampShiftXY randEdge nPts endEdge ;;
    if 1 <? nLayers
    then
      seed' <- lift (py_add_int random_seed 1) ;;
      match fuel with
      | O => raise RecursionError
      | S fuel' =>
          add_fold_layers fuel' comp_im (Some sampArr') (Some sampSpl') inPts
            (Some seed') scaleXY width sampShiftXY randEdge (nLayers - 1) 3
            (EInt (-2))
      end
    else ret comp_im.

Definition add_fold (inputIm : image) (sampArr : option array3)
  (sampSpl inPts : option path) (random_seed : option Z) (scaleXY : Q * Q)
  (width : Q) (sampShiftXY : option (Z * Z)) (randEdge : bool) (nLayers nPts : Z)
  (endEdge : edge_opt) : M image :=
  add_fold_layers (Z.to_nat nLayers) inputIm sampArr sampSpl inPts random_seed
    scaleXY width sampShiftXY randEdge nLayers nPts endEdge.

(** *** add_sectioning (lines 353-428) *)

(** Lines 396-399, as written. *)
Definition sectioning_path (dim : Z * Z) (inPts : option path) (nPts : Z)
  (endEdge : edge_opt) (random_seed : option Z) : M path :=
  match inPts with
  | None => rand_spline dim inPts 5 random_seed (EBool true) (EBool true)
  | Some _ => rand_spline dim None nPts random_seed (EBool true) endEdge
  end.

(** Lines 391-409: path, mask, distance map with its optional jitter, and the
    thresholded band. *)
Definition sectioning_region (inputIm : image) (width : Q)
  (random_seed : option Z) (randEdge : bool) (sampSpl inPts : option path)
  (nPts : Z) (endEdge : edge_opt) : M (raster * region) :=
  np_seed random_seed ;;
  let dim := im_size inputIm in
  let invDim := (snd dim, fst dim) in
  sampSpl <- match sampSpl with
             | Some s => ret s
             | None => sectioning_path dim inPts nPts endEdge random_seed
             end ;;
  mask <- lift (path_mask py_trunc invDim sampSpl) ;;
  let bw_dist := distance_transform_edt mask in
  bw_dist <- (if randEdge
              then
                distRand <- np_randint_2d (- py_trunc (width / 2))
                              (py_trunc (width / 2)) invDim ;;
                ret (blur5 (raster_zip Qplus bw_dist distRand))
              else ret bw_dist) ;;
  let bw_reg := np_le bw_dist (width / 2)%Q in
  ret (bw_dist, bw_reg).

(** [np.interp(x, [0, 1], [lo, hi])] *)
Definition np_interp01 (lo hi x : Q) : Q :=
  if Qle_bool x 0 then lo
  else if Qle_bool 1 x then hi
  else (lo + (hi - lo) * x)%Q.

Definition add_sectioning (inputIm : image) (width : Q) (random_seed : option Z)
  (scaleMin scaleMax : Q) (randEdge : bool) (sampSpl inPts : option path)
  (nPts : Z) (endEdge : edge_opt) : M image :=
  '(bw_dist, bw_reg) <- sectioning_region inputIm width random_seed randEdge
                          sampSpl inPts nPts endEdge ;;
  let nDistRng := raster_map (fun d => d / (width / 2))%Q bw_dist in
  let halfScale := ((scaleMin + scaleMax) / 2)%Q in
  scaleRandMin <- np_uniform scaleMin ((halfScale + scaleMin) / 2)%Q ;;
  scaleRandMax <- np_uniform ((halfScale + scaleMax) / 2)%Q scaleMax ;;
  let nDistRng := raster_map (np_interp01 scaleRandMin scaleRandMax) nDistRng in
  let nDistRng :=
    raster_zip (fun v (inside : bool) => if inside then v else 1%Q) nDistRng bw_reg in
  ret (sectioning_apply inputIm nDistRng).
End FoldAndSectioning.

(* ------------------------------------------------------------------------- *)
(** ** rand_gauss, add_bubbles, add_illumination (lines 84-158, 430-530) *)

(** [np.linspace(0, 1, num)] *)
Definition np_linspace01 (num : Z) : list Q :=
  map (fun i => (Z2Q (Z.of_nat i) / Z2Q (num - 1))%Q) (seq 0 (Z.to_nat num)).

(** [np.dstack(np.meshgrid(xV, yV))] *)
Definition meshgrid (xV yV : list Q) : list (list (Q * Q)) :=
  map (fun y => map (fun x => (x, y)) xV) yV.

Definition flatten {A} (m : list (list A)) : list A := List.concat m.

(** [np.amin] and [np.amax] over both axes. *)
Definition raster_min (m : raster) : result Q :=
  match flatten m with
  | [] => Raise ValueError
  | v :: t => Ok (fold_left Qmin t v)
  end.

Definition raster_max (m : raster) : result Q :=
  match flatten m with
  | [] => Raise ValueError
  | v :: t => Ok (fold_left Qmax t v)
  end.

Definition bool_to_Q (b : bool) : Q := if b then 1%Q else 0%Q.

Section Gaussians.
Context {L : Library}.

Fixpoint foldM {A B} (f : A -> B -> M A) (l : list B) (a : A) : M A :=
  match l with
  | [] => ret a
  | b :: t => a' <- f a b ;; foldM f t a'
  end.

(** One turn of the loop of lines 145-155. *)
Definition gauss_term (pos : list (list (Q * Q)))
  (maxCov minCovScale minDiagCovScale maxCrCovScale : Q)
  (sumMap : raster) (cent : Q * Q) : M raster :=
  cMaxCov <- np_uniform (maxCov * minCovScale) maxCov ;;
  d <- np_uniform_n (cMaxCov * minDiagCovScale) cMaxCov 2 ;;
  let d0 := nth 0 d 0%Q in
  let d1 := nth 1 d 0%Q in
  let maxCrCov := np_sqrt (d0 * d1) in
  cr <- np_uniform (- maxCrCov * maxCrCovScale) (maxCrCov * maxCrCovScale) ;;
  pdf <- lift (mvn_pdf cent ((d0, cr), (cr, d1)) pos) ;;
  ret (raster_zip Qplus sumMap
         (raster_map (fun v => v * (cMaxCov * 2 * np_pi))%Q pdf)).

Definition rand_gauss (dim : Z * Z) (nNorms : Z) (maxCov : Q)
  (random_seed : option Z) (centXY : option path) (zeroToOne : bool)
  (minMaxX minMaxY : option (Q * Q))
  (minCovScale minDiagCovScale maxCrCovScale : Q) : M raster :=
  np_seed random_seed ;;
  let invDim := (snd dim, fst dim) in
  let xV := if zeroToOne then np_linspace01 (fst dim) else np_arange (fst dim) in
  let yV := if zeroToOne then np_linspace01 (snd dim) else np_arange (snd dim) in
  let minMaxX := match minMaxX with
                 | Some v => v
                 | None => if zeroToOne then (0, 1)%Q else (0%Q, Z2Q (fst dim))
                 end in
  let minMaxY := match minMaxY with
                 | Some v => v
                 | None => if zeroToOne then (0, 1)%Q else (0%Q, Z2Q (snd dim))
                 end in
  let pos := meshgrid xV yV in
  centXY <- match centXY with
            | None =>
                xs <- np_uniform_n (fst minMaxX) (snd minMaxX) nNorms ;;
                ys <- np_uniform_n (fst minMaxY) (snd minMaxY) nNorms ;;
                ret (combine xs ys)
            | Some c => ret c
            end ;;
  sumMap <- foldM (gauss_term pos maxCov minCovScale minDiagCovScale maxCrCovScale)
              centXY (np_full invDim 0%Q) ;;
  ret (raster_map (fun v => v * maxCov)%Q sumMap).

Definition add_bubbles (inputIm : image) (random_seed : option Z) (nBubbles : Z)
  (maxWidth alpha edgeWidth : Q) (edgeColorMult rgbVal : triple Q) : M image :=
  np_seed random_seed ;;
  let dim := im_size inputIm in
  sumMap <- rand_gauss dim nBubbles maxWidth random_seed None false None None
              (1 # 10) (1 # 4) (7 # 10) ;;
  let bwReg := raster_map (fun v => Qle_bool 1 v) sumMap in
  let bwDist := distance_transform_edt (raster_map bool_to_Q bwReg) in
  let edgeArea := raster_zip andb (np_le bwDist edgeWidth) bwReg in
  ret (bubbles_composite inputIm bwReg edgeArea alpha edgeColorMult rgbVal).

Definition add_illumination (inputIm : image) (random_seed : option Z)
  (maxCov : Q) (nNorms : Z) (scaleMin scaleMax : Q)
  (minCovScale minDiagCovScale maxCrCovScale : Q) : M image :=
  np_seed random_seed ;;
  let dim := im_size inputIm in
  sumMap <- rand_gauss dim nNorms maxCov random_seed None true
              (Some (- (1 # 2), 3 # 2)%Q) (Some (- (1 # 2), 3 # 2)%Q)
              minCovScale minDiagCovScale maxCrCovScale ;;
  lo <- lift (raster_min sumMap) ;;
  let nSumMap := raster_map (fun v => v - lo)%Q sumMap in
  divFac <- lift (raster_max nSumMap) ;;
  let nSumMap := raster_map (fun v => v / divFac)%Q nSumMap in
  scaleRandMin <- np_uniform scaleMin ((1 + scaleMin) / 2)%Q ;;
  scaleRandMax <- np_uniform ((1 + scaleMax) / 2)%Q scaleMax ;;
  let nSumMap := raster_map (np_interp01 scaleRandMin scaleRandMax) nSumMap in
  ret (illumination_apply inputIm nSumMap).
End Gaussians.

(* ------------------------------------------------------------------------- *)
(** ** adjust_stain, add_stain (lines 532-619) *)

Section Stain.
Context {L : Library}.

Definition adjust_stain (inputIm : image) (adjFactor : triple Q)
  : result (array3 * array3 * array3 * array3) :=
  rbind (stain_densities inputIm) (fun '(a, b, c) =>
  let '(f0, f1, f2) := adjFactor in
  let af := raster_map (fun x => x * f0)%Q a in
  let bf := raster_map (fun x => x * f1)%Q b in
  let cf := raster_map (fun x => x * f2)%Q c in
  let rgbOut := stain_exp_map inputIm [(0, af); (1, bf); (2, cf)] in
  let rgb1 := stain_exp_map inputIm [(0, af)] in
  let rgb2 := stain_exp_map inputIm [(1, bf)] in
  let rgb3 := stain_exp_map inputIm [(2, cf)] in
  Ok (rgbOut, rgb1, rgb2, rgb3)).

(** [np.random.uniform(lo, hi) ** np.random.choice((-1, 1))] *)
Definition stain_factor (lo hi : Q) : M Q :=
  u <- np_uniform lo hi ;;
  s <- draw (choice1 [-1; 1]) ;;
  ret (np_power u s).

Definition add_stain (inputIm : image) (adjFactor : option (triple Q))
  (scaleMax scaleMin : triple Q) (random_seed : option Z) : M image :=
  adjFactor <- match adjFactor with
               | Some f => ret f
               | None =>
                   np_seed random_seed ;;
                   let '(hi0, hi1, hi2) := scaleMax in
                   let '(lo0, lo1, lo2) := scaleMin in
                   f0 <- stain_factor lo0 hi0 ;;
                   f1 <- stain_factor lo1 hi1 ;;
                   f2 <- stain_factor lo2 hi2 ;;
                   ret (f0, f1, f2)
               end ;;
  '(rgbOut, _, _, _) <- lift (adjust_stain inputIm adjFactor) ;;
  ret (image_fromarray rgbOut).
End Stain.

(* ------------------------------------------------------------------------- *)
(** ** add_tear (lines 622-797) *)

(** [l[i]] with NumPy's index normalisation. *)
Definition np_take {A} (l : list A) (i : Z) : result A :=
  rbind (np_index (Z.of_nat (List.length l)) i) (fun j =>
  match nth_error l (Z.to_nat j) with
  | Some a => Ok a
  | None => Raise IndexError
  end).

Fixpoint rmapM {A B} (f : A -> result B) (l : list A) : result (list B) :=
  match l with
  | [] => Ok []
  | a :: t => rbind (f a) (fun b => rbind (rmapM f t) (fun rest => Ok (b :: rest)))
  end.

(** Lines 769-771: rectify the points so we don't go out of bounds. *)
Definition clamp_point (dim : Z * Z) (p : Q * Q) : Q * Q :=
  let x := Qmax (fst p) 0 in
  let y := Qmax (snd p) 0 in
  (Qmin x (Z2Q (fst dim - 1)), Qmin y (Z2Q (snd dim - 1))).

(** Line 775: the cells of the tear mask that are zeroed. *)
Definition tear_index (dim : Z * Z) (tearXY : path) : list (Z * Z) :=
  path_index np_round (map (clamp_point dim) tearXY).

(** Lines 717-718: trim into [[0, splLen]], the upper bound first. *)
Definition trim_span (splLen v : Z) : Z :=
  let v := if splLen <? v then splLen else v in
  if v <? 0 then 0 else v.

Section TearGenerator.
Context {L : Library}.

(** Lines 752-764: the points of one layer of one tear. *)
Definition tear_layer (inLineMax perpMax : Q)
  (inLinePercs perpPercs : list Q * list Q) (center der : Q * Q)
  (layer nTPts prevCt : Z) (prev : path) : M path :=
  centPts <- (if layer =? 0
              then if nTPts <? 0 then raise ValueError
                   else ret (repeat center (Z.to_nat nTPts))
              else
                centIdxs <- np_randint_n 0 prevCt nTPts ;;
                lift (rmapM (np_take prev) centIdxs)) ;;
  ilo <- lift (np_take (fst inLinePercs) layer) ;;
  ihi <- lift (np_take (snd inLinePercs) layer) ;;
  inLineFactor <- np_uniform_n (ilo * inLineMax) (ihi * inLineMax) nTPts ;;
  plo <- lift (np_take (fst perpPercs) layer) ;;
  phi <- lift (np_take (snd perpPercs) layer) ;;
  perpFactor <- np_uniform_n (plo * perpMax) (phi * perpMax) nTPts ;;
  let cDerIL := der in
  let cDerP := (snd der, - fst der)%Q in
  let totVec :=
    zip_with (fun i p => (i * fst cDerIL + p * fst cDerP,
                          i * snd cDerIL + p * snd cDerP)%Q)
      inLineFactor perpFactor in
  ret (zip_with (fun c v => (fst c + fst v, snd c + snd v)%Q) centPts totVec).

(** The layer loop of one tear centre; each layer draws its parents among
    the points of the previous one. *)
Fixpoint tear_layers (inLineMax perpMax : Q)
  (inLinePercs perpPercs : list Q * list Q) (center der : Q * Q)
  (layer : Z) (counts : list Z) (prevCt : Z) (prev : path) : M (list path) :=
  match counts with
  | [] => ret []
  | nTPts :: rest =>
      newPts <- tear_layer inLineMax perpMax inLinePercs perpPercs center der
                  layer nTPts prevCt prev ;;
      more <- tear_layers inLineMax perpMax inLinePercs perpPercs center der
                (layer + 1) rest nTPts newPts ;;
      ret (newPts :: more)
  end.

(** Lines 737-741: the count of points per tear (rows) and layer (columns),
    kept by columns. *)
Fixpoint density_columns (tearDensity : Q) (minDensity maxDensity : list Q)
  (tNo nTears : Z) (rest : list Q) : M (list (list Z)) :=
  match rest with
  | [] => ret []
  | lo :: rest' =>
      hi <- lift (np_take maxDensity tNo) ;;
      col <- np_randint_n (Qceiling (tearDensity * lo)) (Qceiling (tearDensity * hi))
               nTears ;;
      cols <- density_columns tearDensity minDensity maxDensity (tNo + 1) nTears rest' ;;
      ret (col :: cols)
  end.

(** Lines 699-781: the point cloud, its mask and the two thresholded
    regions. *)
Definition tear_regions (inputIm : image) (sampSpl : option path)
  (random_seed : option Z) (nPts : Z) (minSpacing maxSpacing : Q)
  (tearStartFactor tearEndFactor : Q * Q) (dirMin dirMax : Q)
  (inLineMax perpMax : option Q) (ptRadius : Q)
  (inLinePercs perpPercs : list Q * list Q) (l1MinCt l1MaxCt : Z)
  (minDensity maxDensity : list Q) (edgeWidth : Q) (randEdge : bool)
  : M (region * region) :=
  np_seed random_seed ;;
  let dim := im_size inputIm in
  let invDim := (snd dim, fst dim) in
  sampSpl <- match sampSpl with
             | Some s => ret s
             | None => rand_spline dim None nPts random_seed (EBool true) (EInt (-2))
             end ;;
  let n := Z.of_nat (List.length sampSpl) in
  tearSpacing <- np_uniform_n minSpacing maxSpacing n ;;
  let splLen := n - 1 in
  u0 <- np_uniform (fst tearStartFactor) (snd tearStartFactor) ;;
  u1 <- np_uniform (fst tearEndFactor) (snd tearEndFactor) ;;
  let st0 := trim_span splLen (np_round (u0 * Z2Q splLen)) in
  let st1 := trim_span splLen (np_round (u1 * Z2Q splLen)) in
  let cdTS := filter (fun c => (st0 <=? c) && (c <? st1))
                (map np_round (np_cumsum tearSpacing)) in
  tearCents <- lift (rmapM (np_take sampSpl) cdTS) ;;
  let splDer := zip_with (fun p q => (fst p - fst q, snd p - snd q)%Q)
                  sampSpl (tl sampSpl) in
  inLineMax <- match inLineMax with
               | Some v => ret v
               | None => np_uniform dirMin dirMax
               end ;;
  perpMax <- match perpMax with
             | Some v => ret v
             | None => np_uniform dirMin dirMax
             end ;;
  d0 <- lift (np_take splDer 0) ;;
  let splDer := d0 :: splDer in
  tearDer <- lift (rmapM (np_take splDer) cdTS) ;;
  let areaMax := (inLineMax * perpMax)%Q in
  let tearDensity := (areaMax / (ptRadius * ptRadius * np_pi))%Q in
  let nTears := Z.of_nat (List.length tearCents) in
  col0 <- np_randint_n l1MinCt l1MaxCt nTears ;;
  cols <- density_columns tearDensity minDensity maxDensity 0 nTears minDensity ;;
  let tearCts := col0 :: cols in
  (if fold_left Z.add (flatten tearCts) 0 <? 0 then raise ValueError else ret tt) ;;
  layerMats <-
    mapM (fun '(tIdx, (center, der)) =>
            let counts := map (fun col => nth tIdx col 0) tearCts in
            layers <- tear_layers inLineMax perpMax inLinePercs perpPercs
                        center der 0 counts 0 [] ;;
            ret (flatten layers))
         (combine (seq 0 (List.length cdTS)) (combine tearCents tearDer)) ;;
  let tearXY := flatten layerMats in
  tearMask <- lift (np_set_cells invDim (tear_index dim tearXY) 0%Q (np_ones invDim)) ;;
  let tearDist := distance_transform_edt tearMask in
  tearDist <- (if randEdge
               then
                 distRand <- np_uniform_2d (Z2Q (- py_trunc (ptRadius * (1 # 2))))
                               (Z2Q (py_trunc (ptRadius * (1 # 2)))) invDim ;;
                 ret (blur5 (raster_zip Qplus tearDist distRand))
               else ret tearDist) ;;
  let tearBW := np_le tearDist ptRadius in
  let edgeArea :=
    raster_map (fun d => negb (Qle_bool d ptRadius)
                         && Qle_bool d (ptRadius + edgeWidth)) tearDist in
  ret (tearBW, edgeArea).

Definition add_tear (inputIm : image) (sampSpl : option path)
  (random_seed : option Z) (nPts : Z) (minSpacing maxSpacing : Q)
  (tearStartFactor tearEndFactor : Q * Q) (dirMin dirMax : Q)
  (inLineMax perpMax : option Q) (ptRadius tearAlpha : Q)
  (inLinePercs perpPercs : list Q * list Q) (l1MinCt l1MaxCt : Z)
  (minDensity maxDensity : list Q) (edgeWidth edgeAlpha : Q)
  (edgeColorMult rgbVal : triple Q) (randEdge : bool) : M image :=
  '(tearBW, edgeArea) <-
     tear_regions inputIm sampSpl random_seed nPts minSpacing maxSpacing
       tearStartFactor tearEndFactor dirMin dirMax inLineMax perpMax ptRadius
       inLinePercs perpPercs l1MinCt l1MaxCt minDensity maxDensity edgeWidth
       randEdge ;;
  ret (tear_composite inputIm tearBW edgeArea tearAlpha edgeAlpha
         edgeColorMult rgbVal).
End TearGenerator.

(* ------------------------------------------------------------------------- *)
(** ** An executable instance of the library interface

    The theorems below hold for every [Library].  To run the embedding on
    concrete inputs one instance is needed; this one is small and
    computable.  Its generator is a linear congruential one that honours the
    range contract of [randint] and [uniform]; its distance transform is the
    brute-force Euclidean one with a rational square root that is exact on
    perfect squares; its blur is the normalised 5x5 box filter with the
    reflect-101 border of [cv2.blur]; interpolation is piecewise linear; the
    remaining image kernels are simple stand-ins.  It does not reproduce the
    bit stream of NumPy's Mersenne Twister. *)

Module Demo.

Definition lcg (s : Z) : Z := (1103515245 * s + 12345) mod 2 ^ 31.

Definition bits (s : Z) : Z := s / 65536.

Definition lcg_randint (low high s : Z) : Z * Z :=
  let s' := lcg s in (low + bits s' mod (high - low), s').

Definition lcg_uniform (low high : Q) (s : Z) : Q * Z :=
  let s' := lcg s in
  (Qred (low + (high - low) * (bits s' mod 1024 # 1024)), s').

Definition lcg_choice (l : list Z) (s : Z) : Z * Z :=
  let s' := lcg s in
  (nth (Z.to_nat (bits s' mod Z.of_nat (List.length l))) l 0, s').

Definition sqrtQ (q : Q) : Q :=
  Qred (Z.sqrt (Qfloor (q * 1000000)) # 1000).

Fixpoint lerp_at (xi : list Q) (yi : path) (t : Q) : Q * Q :=
  match xi, yi with
  | x0 :: ((x1 :: _) as xi'), y0 :: ((y1 :: _) as yi') =>
      if Qle_bool t x1 || (List.length xi' <=? 1)%nat
      then
        let f := ((t - x0) / (x1 - x0))%Q in
        (Qred (fst y0 + f * (fst y1 - fst y0)), Qred (snd y0 + f * (snd y1 - snd y0)))
      else lerp_at xi' yi' t
  | _, y0 :: _ => y0
  | _, [] => (0, 0)%Q
  end.

Definition linear_eval (xi : list Q) (yi : path) (x : list Q) : result path :=
  Ok (map (lerp_at xi yi) x).

(** Coordinates of the cells of a raster, row by row. *)
Definition coords {A} (m : list (list A)) : list (list (Z * Z)) :=
  map (fun r => map (fun c => (Z.of_nat r, Z.of_nat c))
                  (seq 0 (List.length (nth r m []))))
      (seq 0 (List.length m)).

Definition zero_cells (m : raster) : list (Z * Z) :=
  filter (fun rc => Qeq_bool (cell 1%Q m (fst rc) (snd rc)) 0) (flatten (coords m)).

Definition edt (m : raster) : raster :=
  let zs := zero_cells m in
  raster_map
    (fun rc =>
       match map (fun z => (fst rc - fst z) * (fst rc - fst z)
                           + (snd rc - snd z) * (snd rc - snd z)) zs with
       | [] => sqrtQ (Z2Q (Z.of_nat (List.length m) * Z.of_nat (List.length m)))
       | d :: ds => sqrtQ (Z2Q (fold_left Z.min ds d))
       end)
    (coords m).

(** Border index of [cv2.BORDER_REFLECT_101] on an axis of length [n]. *)
Definition reflect101 (n i : Z) : Z :=
  if n <=? 1 then 0
  else
    let p := 2 * (n - 1) in
    let j := i mod p in
    if j <? n then j else p - j.

Definition box_blur5 (m : raster) : raster :=
  let h := Z.of_nat (List.length m) in
  raster_map
    (fun rc =>
       let w := Z.of_nat (List.length (nth (Z.to_nat (fst rc)) m [])) in
       let taps := [-2; -1; 0; 1; 2] in
       Qred (fold_left Qplus
               (flat_map (fun dr =>
                  map (fun dc => cell 0%Q m (reflect101 h (fst rc + dr))
                                   (reflect101 w (snd rc + dc))) taps) taps)
               0%Q / 25))
    (coords m).

Definition bump_pdf (cent : Q * Q) (cov : cov2) (pos : list (list (Q * Q)))
  : result raster :=
  Ok (raster_map
        (fun p =>
           let dx := (fst p - fst cent)%Q in
           let dy := (snd p - snd cent)%Q in
           Qred (1 / (1 + dx * dx / fst (fst cov) + dy * dy / snd (snd cov))))
        pos).

(** Images: rows of RGB pixels. *)
Definition pixel_image : Type := list (list (triple Z)).
Definition pixel_array : Type := list (list (triple Q)).

Definition pixel_size (im : pixel_image) : Z * Z :=
  (Z.of_nat (List.length (nth 0 im [])), Z.of_nat (List.length im)).

Definition to_array (im : pixel_image) : pixel_array :=
  raster_map (fun '(r, g, b) => (Z2Q r, Z2Q g, Z2Q b)) im.

Definition from_array (a : pixel_array) : pixel_image :=
  raster_map (fun '(r, g, b) => (py_trunc r, py_trunc g, py_trunc b)) a.

Definition blend (a : Q) (colour : triple Q) (px : triple Z) : triple Z :=
  let '(r, g, b) := px in
  let '(cr, cg, cb) := colour in
  (py_trunc (a * cr + (1 - a) * Z2Q r),
   py_trunc (a * cg + (1 - a) * Z2Q g),
   py_trunc (a * cb + (1 - a) * Z2Q b)).

Definition scale_px (f : Q) (px : triple Z) : triple Z :=
  let '(r, g, b) := px in
  (Z.min 255 (py_trunc (f * Z2Q r)), Z.min 255 (py_trunc (f * Z2Q g)),
   Z.min 255 (py_trunc (f * Z2Q b))).

Definition blend_region (im : pixel_image) (reg : region) (alpha : Q)
  (rgbVal : triple Q) : pixel_image :=
  raster_zip (fun px (inside : bool) => if inside then blend alpha rgbVal px else px)
    im reg.

Definition two_region_composite (im : pixel_image) (inner edge : region)
  (alpha edgeAlpha : Q) (edgeColour colour : triple Q) : pixel_image :=
  raster_zip (fun px (ie : bool * bool) =>
                if snd ie then blend edgeAlpha edgeColour px
                else if fst ie then blend alpha colour px else px)
    im (raster_zip pair inner edge).

Definition lib : Library := {|
  rng := Z;
  entropy := Z;
  seed_int := fun s => s;
  seed_os := fun e => (lcg e, e + 1);
  randint1 := lcg_randint;
  uniform1 := lcg_uniform;
  choice1 := lcg_choice;
  np_sqrt := sqrtQ;
  np_pi := 355 # 113;
  np_power := Qpower;
  pchip_eval := linear_eval;
  distance_transform_edt := edt;
  mvn_pdf := bump_pdf;
  blur5 := box_blur5;
  image := pixel_image;
  array3 := pixel_array;
  im_size := pixel_size;
  np_array := to_array;
  marker_composite := blend_region;
  warp_sample := fun sampArr _ _ _ => Ok sampArr;
  fold_composite := fun im warp reg _ =>
    Ok (raster_zip (fun px (wi : triple Q * bool) =>
                      if snd wi
                      then let '(r, g, b) := px in
                           let '(wr, wg, wb) := fst wi in
                           (py_trunc (Z2Q r * wr / 255), py_trunc (Z2Q g * wg / 255),
                            py_trunc (Z2Q b * wb / 255))
                      else px)
          im (raster_zip pair warp reg));
  sectioning_apply := fun im f => raster_zip (fun px v => scale_px v px) im f;
  bubbles_composite := fun im reg edge alpha edgeColorMult rgbVal =>
    two_region_composite im reg edge alpha alpha edgeColorMult rgbVal;
  illumination_apply := fun im f => raster_zip (fun px v => scale_px v px) im f;
  stain_densities := fun im =>
    let a := raster_map (fun '(r, _, _) => Z2Q (255 - r)) im in
    let b := raster_map (fun '(_, g, _) => Z2Q (255 - g)) im in
    let c := raster_map (fun '(_, _, b) => Z2Q (255 - b)) im in
    Ok (a, b, c);
  stain_exp_map := fun im _ => to_array im;
  image_fromarray := from_array;
  tear_composite := fun im reg edge alpha edgeAlpha edgeColorMult rgbVal =>
    two_region_composite im reg edge alpha edgeAlpha edgeColorMult rgbVal
|}.

(** ASCII lower-casing and a toy digest for the seed derivation. *)
Definition lower_ascii (a : Ascii.ascii) : Ascii.ascii :=
  let n := Ascii.nat_of_ascii a in
  if ((65 <=? n) && (n <=? 90))%nat then Ascii.ascii_of_nat (n + 32) else a.

Fixpoint lower (s : string) : string :=
  match s with
  | EmptyString => EmptyString
  | String a t => String (lower_ascii a) (lower t)
  end.

Fixpoint digest (s : string) : Z :=
  match s with
  | EmptyString => 5381
  | String a t => 33 * digest t + Z.of_nat (Ascii.nat_of_ascii a)
  end.

(** A grey pixel_image of the given size and one initial world. *)
Definition grey (width height : Z) : pixel_image := np_full (height, width) (128, 128, 128).
Definition w0 : @world lib := World (L := lib) 7 11.

End Demo.

(* ------------------------------------------------------------------------- *)
(** ** Vocabulary of the statements *)

(** The offset [typeSeedAdd] holds for each artifact type. *)
Definition type_offset (a : artifact) : Z :=
  match a with
  | Marker => 1
  | Fold => 2
  | Sectioning => 3
  | Illumination => 4
  | Bubbles => 5
  | Stain => 6
  | Tear => 7
  end.

(** The seeds [np.random.seed] accepts. *)
Definition seed_accepted (seed : option Z) : Prop :=
  match seed with
  | None => True
  | Some s => 0 <= s <= 2 ^ 32 - 1
  end.

(** A handle point [(x, y)] lies on edge [E] of an image of size [dim]:
    0 = left, 1 = top, 2 = right, 3 = bottom. *)
Definition on_edge (E : Z) (dim : Z * Z) (p : Z * Z) : Prop :=
  (E = 0 -> fst p = 0) /\ (E = 1 -> snd p = 0) /\
  (E = 2 -> fst p = fst dim - 1) /\ (E = 3 -> snd p = snd dim - 1).

(** Every pixel of the first region is a pixel of the second. *)
Definition region_subset (reg1 reg2 : region) : Prop :=
  forall r c : Z, cell false reg1 r c = true -> cell false reg2 r c = true.

(** A sample lies inside an image of size [dim]. *)
Definition inside_image (dim : Z * Z) (p : Q * Q) : Prop :=
  (0 <= fst p <= Z2Q (fst dim - 1))%Q /\ (0 <= snd p <= Z2Q (snd dim - 1))%Q.

(** An index that NumPy rejects on an axis of length [n]. *)
Definition index_rejected (n i : Z) : Prop := i < - n \/ n <= i.

(** What a call returns, without the world it leaves behind. *)
Definition value {L : Library} {A} (r : result (A * @world L)) : result A :=
  rmap fst r.

(** Two outcomes of one call, started in two worlds: the same value and the
    same generator state, or the same exception. *)
Definition related {L : Library} {A} (r1 r2 : result (A * @world L)) : Prop :=
  match r1, r2 with
  | Ok (a1, w1), Ok (a2, w2) => a1 = a2 /\ gen w1 = gen w2
  | Raise e1, Raise e2 => e1 = e2
  | _, _ => False
  end.

(** A computation that reads of the world only the generator state. *)
Definition gen_only {L : Library} {A} (m : @M L A) : Prop :=
  forall w1 w2 : world, gen w1 = gen w2 -> related (m w1) (m w2).

(** A computation whose outcome does not depend on the world it starts in,
    generator state included. *)
Definition reseeded {L : Library} {A} (m : @M L A) : Prop :=
  forall w1 w2 : world, related (m w1) (m w2).

(** Two independent invocations return the same value or raise the same
    exception. *)
Definition deterministic {L : Library} {A} (m : @M L A) : Prop :=
  forall w1 w2 : world, value (m w1) = value (m w2).


(* ------------------------------------------------------------------------- *)
(** ** apply_artifact (lines 799-889) *)

(** The command-line entry point, from the opened image to the image that is
    saved.  Opening and saving the file and taking its path apart
    ([Image.open], [os.path.split], [os.path.splitext], [outputIm.save]) are
    the caller's side: the image and the three path components are
    arguments, and so is [os.path.join]. *)
Section CommandLine.
Context {L : Library}.
Variable py_lower : string -> string.
Variable blake2s_int : string -> Z.
Variable path_join : list string -> string.

(** Lines 853-856: the tile name counts, or only the slide name. *)
Definition identity_string (rDir2 rDir1 fNameNoExt : string) (perTileRand : bool)
  : string :=
  if perTileRand then path_join [rDir2; rDir1; fNameNoExt]
  else path_join [rDir2; rDir1].

(** Lines 867-880, each generator with the defaults of its signature.  The
    last branch stands for falling through every [elif], which leaves
    [outputIm] unbound; the lookups in [typeSeedAdd] have raised for any
    name that would get there. *)
Definition dispatch (artifactType : string) (inputIm : image) (random_seed : Z)
  : M image :=
  if String.eqb artifactType "marker"
  then add_marker inputIm (Some random_seed) 3 None None 100 (3 # 4) None
         ((0, 50), (0, 50), (0, 100))
  else if String.eqb artifactType "fold"
  then add_fold inputIm None None None (Some random_seed) (1, 1)%Q 200 None
         false 2 3 (EInt (-2))
  else if String.eqb artifactType "sectioning"
  then add_sectioning inputIm 240 (Some random_seed) (1 # 2) (8 # 10) true None
         None 2 (EInt (-2))
  else if String.eqb artifactType "illumination"
  then add_illumination inputIm (Some random_seed) 15 3 (8 # 10) (11 # 10)
         (1 # 2) (1 # 10) (2 # 10)
  else if String.eqb artifactType "bubbles"
  then add_bubbles inputIm (Some random_seed) 25 50 (3 # 4) 2
         (3 # 4, 3 # 4, 3 # 4)%Q (225, 225, 225)%Q
  else if String.eqb artifactType "stain"
  then add_stain inputIm None (3, 3, 3 # 2)%Q (5 # 4, 5 # 4, 1)%Q
         (Some random_seed)
  else if String.eqb artifactType "tear"
  then add_tear inputIm None (Some random_seed) 2 20 40
         (- (15 # 100), 15 # 100)%Q (85 # 100, 115 # 100)%Q 10 30 None None
         (9 # 4) 1
         ([- (5 # 10); - (3 # 10); - (2 # 10)], [5 # 10; 3 # 10; 2 # 10])%Q
         ([- (5 # 10); - (3 # 10); - (2 # 10)], [5 # 10; 3 # 10; 2 # 10])%Q
         3 8 [1 # 2; 1 # 2]%Q [3 # 2; 3 # 2]%Q 2 (3 # 4)
         (85 # 100, 7 # 10, 85 # 100)%Q (245, 245, 245)%Q true
  else raise KeyError.

Definition apply_artifact (inputIm : image)
  (rDir2 rDir1 fNameNoExt artifactType : string) (randAdd : Z)
  (perTileRand : option bool) : M image :=
  perTileRand <- lift (tile_policy py_lower artifactType perTileRand) ;;
  let fID := identity_string rDir2 rDir1 fNameNoExt perTileRand in
  random_seed <- lift (derive_seed py_lower blake2s_int fID artifactType randAdd) ;;
  dispatch (py_lower artifactType) inputIm random_seed.
End CommandLine.

(* ------------------------------------------------------------------------- *)
(** ** More vocabulary *)

(** The range contract of the scalar draws: [randint(low, high)] lies in
    [[low, high)], [uniform(low, high)] between its bounds. *)
Definition randint_in_range (L : Library) : Prop :=
  forall (low high : Z) (g : rng),
    low < high -> low <= fst (randint1 low high g) < high.

Definition uniform_in_range (L : Library) : Prop :=
  forall (low high : Q) (g : rng),
    (low <= high)%Q -> (low <= fst (uniform1 low high g) <= high)%Q.

(** The cell that an accepted index addresses. *)
Definition wrap_index (n i : Z) : Z := if i <? 0 then i + n else i.

(** Whether one of the index pairs addresses cell [(r, c)] of an array of
    shape [invDim]. *)
Definition addressed (invDim : Z * Z) (idx : list (Z * Z)) (r c : Z) : bool :=
  existsb (fun rc => (wrap_index (fst invDim) (fst rc) =? r)
                     && (wrap_index (snd invDim) (snd rc) =? c)) idx.

(** An array of shape [invDim]. *)
Definition shaped {A} (invDim : Z * Z) (m : list (list A)) : Prop :=
  Z.of_nat (List.length m) = fst invDim /\
  Forall (fun row => Z.of_nat (List.length row) = snd invDim) m.

(** A handle point inside an image of size [dim]. *)
Definition handle_inside (dim : Z * Z) (p : Z * Z) : Prop :=
  0 <= fst p <= fst dim - 1 /\ 0 <= snd p <= snd dim - 1.

(** A handle point on one of the four edges. *)
Definition on_some_edge (dim : Z * Z) (p : Z * Z) : Prop :=
  fst p = 0 \/ snd p = 0 \/ fst p = fst dim - 1 \/ snd p = snd dim - 1.

(** Every entry of a raster satisfies a property. *)
Definition all_cells {A} (P : A -> Prop) (m : list (list A)) : Prop :=
  Forall (Forall P) m.

(** Both rows of [inLinePercs] and of [perpPercs] hold at least [n]
    entries. *)
Definition percs_cover (inLinePercs perpPercs : list Q * list Q) (n : Z) : Prop :=
  n <= Z.of_nat (List.length (fst inLinePercs)) /\
  n <= Z.of_nat (List.length (snd inLinePercs)) /\
  n <= Z.of_nat (List.length (fst perpPercs)) /\
  n <= Z.of_nat (List.length (snd perpPercs)).


(* ========================================================================= *)
(** * Properties *)

(* ------------------------------------------------------------------------- *)
(** ** Seed derivation *)

Lemma dict_get_typeSeedAdd (a : artifact) :
  dict_get typeSeedAdd (artifact_name a) = Ok (type_offset a).
Proof. destruct a; reflexivity. Qed.

Lemma type_offset_range (a : artifact) : 1 <= type_offset a <= 7.
Proof. destruct a; simpl; lia. Qed.

Lemma type_offset_inj (a1 a2 : artifact) :
  type_offset a1 = type_offset a2 -> a1 = a2.
Proof. destruct a1, a2; simpl; intros H; try reflexivity; discriminate H. Qed.

(** Two sums that differ by less than the modulus, and are not equal, have
    different residues. *)
Lemma mod_separates (m a o1 o2 : Z) :
  0 < m -> o1 <> o2 -> Z.abs (o1 - o2) < m -> (a + o1) mod m <> (a + o2) mod m.
Proof.
  intros Hm Hne Hlt Heq.
  assert (Hd : ((a + o1) - (a + o2)) mod m = 0).
  { rewrite Zminus_mod, Heq, Z.sub_diag. apply Z.mod_0_l. lia. }
  replace (a + o1 - (a + o2)) with (o1 - o2) in Hd by lia.
  apply Z.mod_divide in Hd; [| lia].
  destruct Hd as [k Hk].
  assert (k = 0) by nia.
  subst k. lia.
Qed.

Section SeedProperties.
Variable py_lower : string -> string.
Variable blake2s_int : string -> Z.

Lemma derive_seed_known (fID t : string) (randAdd : Z) (a : artifact) :
  py_lower t = artifact_name a ->
  derive_seed py_lower blake2s_int fID t randAdd
  = Ok ((blake2s_int fID + randAdd + type_offset a) mod randMax).
Proof.
  intros Ht. unfold derive_seed. rewrite Ht, dict_get_typeSeedAdd. reflexivity.
Qed.

(** C2.  The derived seed is the digest of the identity string plus the
    caller's offset plus the offset of the artifact type, reduced modulo
    2^32 - 1: it is determined by these three inputs, it is non-negative and
    below 2^32 - 1, and for one identity string and one caller offset two
    different artifact types never receive the same seed. *)
Theorem derive_seed_pure_bounded_separating :
  forall (fID t1 t2 : string) (randAdd : Z) (a1 a2 : artifact),
    py_lower t1 = artifact_name a1 ->
    py_lower t2 = artifact_name a2 ->
    a1 <> a2 ->
    exists s1 s2 : Z,
      derive_seed py_lower blake2s_int fID t1 randAdd = Ok s1 /\
      derive_seed py_lower blake2s_int fID t2 randAdd = Ok s2 /\
      s1 = (blake2s_int fID + randAdd + type_offset a1) mod (2 ^ 32 - 1) /\
      s2 = (blake2s_int fID + randAdd + type_offset a2) mod (2 ^ 32 - 1) /\
      0 <= s1 < 2 ^ 32 - 1 /\ 0 <= s2 < 2 ^ 32 - 1 /\
      s1 <> s2.
Proof.
  intros fID t1 t2 randAdd a1 a2 H1 H2 Hne.
  exists ((blake2s_int fID + randAdd + type_offset a1) mod randMax),
         ((blake2s_int fID + randAdd + type_offset a2) mod randMax).
  assert (Hpos : 0 < randMax) by (unfold randMax; lia).
  repeat split; try (apply Z.mod_pos_bound; exact Hpos).
  - apply derive_seed_known; assumption.
  - apply derive_seed_known; assumption.
  - apply mod_separates.
    + exact Hpos.
    + intros Heq. apply Hne, type_offset_inj, Heq.
    + pose proof (type_offset_range a1). pose proof (type_offset_range a2).
      unfold randMax. lia.
Qed.

(** A derived seed is one that [np.random.seed] accepts. *)
Lemma derive_seed_accepted (fID t : string) (randAdd s : Z) :
  derive_seed py_lower blake2s_int fID t randAdd = Ok s -> seed_accepted (Some s).
Proof.
  unfold derive_seed, rbind.
  destruct (dict_get typeSeedAdd (py_lower t)) as [off |]; [| discriminate].
  intros H. injection H as <-. simpl.
  pose proof (Z.mod_pos_bound (blake2s_int fID + randAdd + off) randMax) as Hb.
  unfold randMax in *. lia.
Qed.
End SeedProperties.

Lemma derive_seed_pure_bounded_separating_witness :
  Demo.lower "Marker" = artifact_name Marker /\
  Demo.lower "FOLD" = artifact_name Fold /\
  Marker <> Fold /\
  exists s1 s2 : Z,
    derive_seed Demo.lower Demo.digest "slide7/tile3" "Marker" 0 = Ok s1 /\
    derive_seed Demo.lower Demo.digest "slide7/tile3" "FOLD" 0 = Ok s2 /\
    s1 = (Demo.digest "slide7/tile3" + 0 + type_offset Marker) mod (2 ^ 32 - 1) /\
    s2 = (Demo.digest "slide7/tile3" + 0 + type_offset Fold) mod (2 ^ 32 - 1) /\
    0 <= s1 < 2 ^ 32 - 1 /\ 0 <= s2 < 2 ^ 32 - 1 /\
    s1 <> s2.
Proof.
  split; [reflexivity |].
  split; [reflexivity |].
  split; [discriminate |].
  apply (derive_seed_pure_bounded_separating Demo.lower Demo.digest
           "slide7/tile3" "Marker" "FOLD" 0 Marker Fold);
    [reflexivity | reflexivity | discriminate].
Defined.

(* ------------------------------------------------------------------------- *)
(** ** Seeding *)

Section SeedingFacts.
Context {L : Library}.

Lemma seed_ok_iff (s : Z) : seed_ok s = true <-> 0 <= s <= 2 ^ 32 - 1.
Proof. unfold seed_ok. rewrite andb_true_iff, Z.leb_le, Z.leb_le. tauto. Qed.

Lemma np_seed_accepted (seed : option Z) (w : world) :
  seed_accepted seed -> exists w', np_seed seed w = Ok (tt, w').
Proof.
  destruct seed as [s |]; simpl; intros H.
  - apply seed_ok_iff in H. rewrite H. eauto.
  - destruct (seed_os (os w)). eauto.
Qed.

Lemma np_seed_rejected (s : Z) (w : world) :
  ~ (0 <= s <= 2 ^ 32 - 1) -> np_seed (Some s) w = Raise ValueError.
Proof.
  intros H. simpl. destruct (seed_ok s) eqn:E; [| reflexivity].
  apply seed_ok_iff in E. contradiction.
Qed.

Lemma np_seed_raises (seed : option Z) (w : world) (e : exn) :
  np_seed seed w = Raise e -> e = ValueError.
Proof.
  destruct seed as [s |]; simpl.
  - destruct (seed_ok s); congruence.
  - destruct (seed_os (os w)); congruence.
Qed.
End SeedingFacts.

(* ------------------------------------------------------------------------- *)
(** ** The layer recursion of add_fold *)

Section FoldProperties.
Context {L : Library}.

(** Fuel beyond the layer count changes nothing: the exhausted branch of
    [add_fold_layers] is not reached from [add_fold]. *)
Lemma add_fold_layers_fuel :
  forall (fuel1 fuel2 : nat) inputIm sampArr sampSpl inPts random_seed scaleXY
         width sampShiftXY randEdge nLayers nPts endEdge w,
    (Z.to_nat nLayers <= S fuel1)%nat -> (Z.to_nat nLayers <= S fuel2)%nat ->
    add_fold_layers fuel1 inputIm sampArr sampSpl inPts random_seed scaleXY
      width sampShiftXY randEdge nLayers nPts endEdge w
    = add_fold_layers fuel2 inputIm sampArr sampSpl inPts random_seed scaleXY
        width sampShiftXY randEdge nLayers nPts endEdge w.
Proof.
  induction fuel1 as [| f1 IH]; intros fuel2 inputIm sampArr sampSpl inPts
    random_seed scaleXY width sampShiftXY randEdge nLayers nPts endEdge w H1 H2;
    destruct fuel2 as [| f2]; simpl; unfold bind;
    destruct (np_seed random_seed w) as [[[] w1] | e]; try reflexivity;
    destruct (nLayers <? 1) eqn:E1; try reflexivity;
    destruct (fold_layer inputIm sampArr sampSpl inPts random_seed scaleXY
                width sampShiftXY randEdge nPts endEdge w1)
      as [[[[comp_im sa] sp] w2] | e]; try reflexivity;
    destruct (1 <? nLayers) eqn:E2; try reflexivity;
    destruct (lift (py_add_int random_seed 1) w2) as [[seed' w3] | e];
    try reflexivity;
    apply Z.ltb_lt in E2; try lia.
  apply IH; lia.
Qed.

Lemma add_fold_unfold :
  forall inputIm sampArr sampSpl inPts random_seed scaleXY width sampShiftXY
         randEdge nLayers nPts endEdge w,
    add_fold inputIm sampArr sampSpl inPts random_seed scaleXY width
      sampShiftXY randEdge nLayers nPts endEdge w
    = add_fold_layers (S (Z.to_nat nLayers)) inputIm sampArr sampSpl inPts
        random_seed scaleXY width sampShiftXY randEdge nLayers nPts endEdge w.
Proof.
  intros. unfold add_fold. apply add_fold_layers_fuel; lia.
Qed.

(** Seeding comes first: a seed that [np.random.seed] rejects ends the call
    before the layer count is looked at. *)
Lemma add_fold_rejected_seed :
  forall inputIm sampArr sampSpl inPts (s : Z) scaleXY width sampShiftXY
         randEdge nLayers nPts endEdge w,
    ~ (0 <= s <= 2 ^ 32 - 1) ->
    add_fold inputIm sampArr sampSpl inPts (Some s) scaleXY width sampShiftXY
      randEdge nLayers nPts endEdge w = Raise ValueError.
Proof.
  intros. rewrite add_fold_unfold. simpl. unfold bind.
  rewrite np_seed_rejected by assumption. reflexivity.
Qed.

(** C3, as amended.  With a layer count below 1, and a seed that
    [np.random.seed] accepts (None, or an integer between 0 and 2^32 - 1),
    [add_fold] returns the very image it was given, whatever the remaining
    parameters. *)
Theorem add_fold_no_layers_returns_input :
  forall inputIm sampArr sampSpl inPts random_seed scaleXY width sampShiftXY
         randEdge nLayers nPts endEdge w,
    nLayers < 1 ->
    seed_accepted random_seed ->
    exists w',
      add_fold inputIm sampArr sampSpl inPts random_seed scaleXY width
        sampShiftXY randEdge nLayers nPts endEdge w = Ok (inputIm, w').
Proof.
  intros inputIm sampArr sampSpl inPts random_seed scaleXY width sampShiftXY
    randEdge nLayers nPts endEdge w Hn Hs.
  rewrite add_fold_unfold. simpl. unfold bind.
  destruct (np_seed_accepted random_seed w Hs) as [w' Hw]. rewrite Hw.
  apply Z.ltb_lt in Hn. rewrite Hn. exists w'. reflexivity.
Qed.

(** C10.  With [random_seed = None] and two layers or more, [add_fold] never
    returns an image; and whenever the first layer is computed, so that the
    recursive call is reached, what the call raises is the [TypeError] of
    [None + 1]. *)
Theorem add_fold_unseeded_layers_raise :
  forall inputIm sampArr sampSpl inPts scaleXY width sampShiftXY randEdge
         nLayers nPts endEdge w,
    2 <= nLayers ->
    (forall r,
        add_fold inputIm sampArr sampSpl inPts None scaleXY width sampShiftXY
          randEdge nLayers nPts endEdge w <> Ok r) /\
    (forall w1 layer w2,
        np_seed None w = Ok (tt, w1) ->
        fold_layer inputIm sampArr sampSpl inPts None scaleXY width
          sampShiftXY randEdge nPts endEdge w1 = Ok (layer, w2) ->
        add_fold inputIm sampArr sampSpl inPts None scaleXY width sampShiftXY
          randEdge nLayers nPts endEdge w = Raise TypeError).
Proof.
  intros inputIm sampArr sampSpl inPts scaleXY width sampShiftXY randEdge
    nLayers nPts endEdge w Hn.
  assert (E1 : (nLayers <? 1) = false) by (apply Z.ltb_ge; lia).
  assert (E2 : (1 <? nLayers) = true) by (apply Z.ltb_lt; lia).
  split.
  - intros r. rewrite add_fold_unfold. simpl. unfold bind.
    destruct (np_seed None w) as [[[] w1] | ex]; [| discriminate].
    rewrite E1.
    destruct (fold_layer inputIm sampArr sampSpl inPts None scaleXY width
                sampShiftXY randEdge nPts endEdge w1)
      as [[[[comp_im sa] sp] w2] | ex]; [| discriminate].
    rewrite E2. unfold lift, py_add_int. discriminate.
  - intros w1 [[comp_im sa] sp] w2 Hseed Hlayer.
    rewrite add_fold_unfold. simpl. unfold bind.
    rewrite Hseed, E1, Hlayer, E2. reflexivity.
Qed.

(** C4 (what the code does).  The branch of lines 396-399 of
    [add_sectioning] is the reverse of the one in [add_marker] and
    [add_fold]: supplied handle points are dropped and the path is drawn from
    [nPts] random ones with the requested [endEdge]; without handle points
    [nPts] and [endEdge] are dropped and the defaults of [rand_spline]
    (5 points, end edge [True]) apply. *)
Theorem sectioning_path_branches :
  forall (dim : Z * Z) (pts pts' : path) (nPts : Z) (endEdge : edge_opt)
         (random_seed : option Z),
    sectioning_path dim (Some pts) nPts endEdge random_seed
    = rand_spline dim None nPts random_seed (EBool true) endEdge /\
    sectioning_path dim (Some pts) nPts endEdge random_seed
    = sectioning_path dim (Some pts') nPts endEdge random_seed /\
    sectioning_path dim None nPts endEdge random_seed
    = rand_spline dim None 5 random_seed (EBool true) (EBool true).
Proof. intros. repeat split. Qed.
End FoldProperties.

(* ------------------------------------------------------------------------- *)
(** ** Inversion of monadic computations *)

Section MonadFacts.
Context {L : Library}.

Lemma bind_ok {A B} (m : M A) (k : A -> M B) (w : world) (r : B * world) :
  bind m k w = Ok r -> exists a w1, m w = Ok (a, w1) /\ k a w1 = Ok r.
Proof.
  unfold bind. destruct (m w) as [[a w1] | e]; [| discriminate]. eauto.
Qed.

Lemma bind_eq_ok {A B} (m : M A) (k : A -> M B) (w w1 : world) (a : A) :
  m w = Ok (a, w1) -> bind m k w = k a w1.
Proof. unfold bind. intros ->. reflexivity. Qed.

Lemma bind_eq_raise {A B} (m : M A) (k : A -> M B) (w : world) (e : exn) :
  m w = Raise e -> bind m k w = Raise e.
Proof. unfold bind. intros ->. reflexivity. Qed.

Lemma ret_ok {A} (a b : A) (w w' : world) :
  ret a w = Ok (b, w') -> b = a /\ w' = w.
Proof. unfold ret. intros H. injection H as <- <-. auto. Qed.

Lemma lift_ok {A} (r : result A) (a : A) (w w' : world) :
  lift r w = Ok (a, w') -> r = Ok a /\ w' = w.
Proof.
  unfold lift. destruct r; [| discriminate]. intros H. injection H as <- <-. auto.
Qed.

Lemma draw_ok {A} (f : rng -> A * rng) (w : world) :
  draw f w = Ok (fst (f (gen w)), World (snd (f (gen w))) (os w)).
Proof. unfold draw. destruct (f (gen w)). reflexivity. Qed.

Lemma repeatM_draw_length {A} (f : rng -> A * rng) :
  forall (n : nat) (w : world) (l : list A) (w' : world),
    repeatM n (draw f) w = Ok (l, w') -> List.length l = n.
Proof.
  induction n as [| n IH]; intros w l w' H; simpl in H.
  - apply ret_ok in H. destruct H as [-> _]. reflexivity.
  - apply bind_ok in H. destruct H as (a & w1 & _ & H).
    apply bind_ok in H. destruct H as (rest & w2 & Hrest & H).
    apply ret_ok in H. destruct H as [-> _].
    simpl. f_equal. eapply IH. exact Hrest.
Qed.

Lemma np_randint_n_length (low high count : Z) (w : world) (l : list Z) (w' : world) :
  np_randint_n low high count w = Ok (l, w') ->
  0 <= count /\ Z.of_nat (List.length l) = count.
Proof.
  unfold np_randint_n. destruct (low <? high); [| discriminate].
  destruct (count <? 0) eqn:E; [discriminate |].
  intros H. apply repeatM_draw_length in H. apply Z.ltb_ge in E. lia.
Qed.

Lemma bind_raise {A B} (m : M A) (k : A -> M B) (w : world) (e : exn) :
  bind m k w = Raise e ->
  m w = Raise e \/ exists a w1, m w = Ok (a, w1) /\ k a w1 = Raise e.
Proof.
  unfold bind. destruct (m w) as [[a w1] | e']; [eauto |].
  intros H. injection H as ->. auto.
Qed.

Lemma draw_raise {A} (f : rng -> A * rng) (w : world) (e : exn) :
  draw f w = Raise e -> False.
Proof. rewrite draw_ok. discriminate. Qed.

Lemma repeatM_draw_raise {A} (f : rng -> A * rng) :
  forall (n : nat) (w : world) (e : exn), repeatM n (draw f) w = Raise e -> False.
Proof.
  induction n as [| n IH]; intros w e H; simpl in H; [discriminate |].
  apply bind_raise in H. destruct H as [H | (a & w1 & _ & H)].
  - eapply draw_raise. exact H.
  - apply bind_raise in H. destruct H as [H | (rest & w2 & _ & H)].
    + eapply IH. exact H.
    + discriminate.
Qed.

Lemma np_randint_n_raise low high count w e :
  np_randint_n low high count w = Raise e -> e = ValueError.
Proof.
  unfold np_randint_n, raise.
  destruct (low <? high); [| congruence].
  destruct (count <? 0); [congruence |].
  intros H. apply repeatM_draw_raise in H. contradiction.
Qed.

Lemma np_randint_raise low high w e :
  np_randint low high w = Raise e -> e = ValueError.
Proof.
  unfold np_randint, raise. destruct (low <? high); [| congruence].
  intros H. apply draw_raise in H. contradiction.
Qed.


Lemma lift_raise {A} (r : result A) (w : world) (e : exn) :
  lift r w = Raise e -> r = Raise e.
Proof. unfold lift. destruct r; congruence. Qed.

End MonadFacts.

Ltac inv_bind H E :=
  let a := fresh "a" in
  let w := fresh "w" in
  apply bind_ok in H; destruct H as (a & w & E & H).

Ltac same E1 E2 := rewrite E1 in E2; injection E2; intros; subst; clear E1 E2.

(* ------------------------------------------------------------------------- *)
(** ** rand_spline: edge pinning and short handle arrays *)

Section SplineProperties.
Context {L : Library}.

Lemma list_set_length {A} (l : list A) (i : nat) (v : A) :
  List.length (list_set l i v) = List.length l.
Proof.
  revert i. induction l as [| a t IH]; intros [| i]; simpl; auto.
Qed.

Lemma pin_to_edge_length row edgeNum dim inPts out :
  pin_to_edge row edgeNum dim inPts = Ok out -> List.length out = List.length inPts.
Proof.
  unfold pin_to_edge, rbind.
  destruct (np_index (Z.of_nat (List.length inPts)) row); [| discriminate].
  intros H. injection H as <-. apply list_set_length.
Qed.

Lemma np_index_direct (n i : Z) : 0 <= i < n -> np_index n i = Ok i.
Proof.
  intros H. unfold np_index.
  replace ((0 <=? i) && (i <? n)) with true; [reflexivity |].
  symmetry. apply andb_true_iff. rewrite Z.leb_le, Z.ltb_lt. exact H.
Qed.

Lemma set_coord_on_edge (E : Z) (dim p : Z * Z) :
  0 <= E < 4 ->
  on_edge E dim (set_coord p (LR_v_TB E) (LT_V_RB E * (dim_at dim (LR_v_TB E) - 1))).
Proof.
  intros H.
  assert (C : E = 0 \/ E = 1 \/ E = 2 \/ E = 3) by lia.
  destruct C as [-> | [-> | [-> | ->]]]; cbv [LR_v_TB LT_V_RB dim_at set_coord on_edge];
    simpl; repeat split; intros; try lia; try discriminate;
    [destruct (fst dim - 1) | destruct (snd dim - 1)]; reflexivity.
Qed.

Lemma pin_first (E : Z) (dim : Z * Z) (a : Z * Z) (t : list (Z * Z)) :
  pin_to_edge 0 E dim (a :: t)
  = Ok (set_coord a (LR_v_TB E) (LT_V_RB E * (dim_at dim (LR_v_TB E) - 1)) :: t).
Proof.
  unfold pin_to_edge. rewrite np_index_direct by (simpl; lia). reflexivity.
Qed.

Lemma pin_later (row E : Z) (dim : Z * Z) (a : Z * Z) (t out : list (Z * Z)) :
  1 <= row ->
  pin_to_edge row E dim (a :: t) = Ok out -> exists t', out = a :: t'.
Proof.
  intros Hrow. unfold pin_to_edge, rbind, np_index.
  destruct ((0 <=? row) && (row <? Z.of_nat (List.length (a :: t)))).
  - intros H. injection H as <-.
    destruct (Z.to_nat row) as [| i] eqn:E1; [lia |]. simpl. eauto.
  - destruct ((- Z.of_nat (List.length (a :: t)) <=? row) && (row <? 0)) eqn:E2;
      [| discriminate].
    apply andb_true_iff in E2. rewrite Z.ltb_lt in E2. lia.
Qed.

Lemma pin_empty (E : Z) (dim : Z * Z) : pin_to_edge 0 E dim [] = Raise IndexError.
Proof. reflexivity. Qed.

(** The handle-point stage: unless there is a single row, which the end edge
    would overwrite, the first row is the one pinned to the start edge. *)
Lemma random_handles_start_pinned dim nPts E eE w hs w' :
  0 <= E < 4 -> nPts <> 1 ->
  random_handles dim nPts (EInt E) eE w = Ok (hs, w') ->
  exists p rest, hs = p :: rest /\ on_edge E dim p.
Proof.
  intros HE Hn H. unfold random_handles in H.
  apply bind_ok in H. destruct H as (xs & w1 & Hxs & H).
  apply bind_ok in H. destruct H as (ys & w2 & Hys & H).
  apply np_randint_n_length in Hxs. apply np_randint_n_length in Hys.
  assert (Hr : py_in_range (EInt E) 0 4 = true).
  { unfold py_in_range. simpl. apply andb_true_iff. rewrite Z.leb_le, Z.ltb_lt. lia. }
  rewrite Hr in H. rewrite orb_true_r in H. cbn [py_not_bool andb py_int_of] in H.
  apply bind_ok in H. destruct H as ([inPts1 edgeNum] & w3 & H1 & H).
  apply bind_ok in H1. destruct H1 as (e0 & w4 & He0 & H1).
  apply ret_ok in He0. destruct He0 as [-> ->].
  apply bind_ok in H1. destruct H1 as (inPts' & w5 & Hpin & H1).
  apply lift_ok in Hpin. destruct Hpin as [Hpin ->].
  apply ret_ok in H1. destruct H1 as [H1 ->].
  injection H1 as -> ->.
  destruct xs as [| x0 xs]; [rewrite pin_empty in Hpin; discriminate |].
  destruct ys as [| y0 ys]; [rewrite pin_empty in Hpin; discriminate |].
  cbn [combine] in Hpin.
  rewrite pin_first in Hpin. injection Hpin as <-.
  destruct (py_eq_True eE || py_in_range eE 0 4 || py_in_range eE (-4) 0 && true).
  - apply bind_ok in H. destruct H as (e1 & w6 & _ & H).
    apply lift_ok in H. destruct H as [H _].
    apply pin_later in H; [| simpl in Hxs; lia]. destruct H as [t' ->].
    eexists _, _. split; [reflexivity |]. apply set_coord_on_edge. exact HE.
  - apply ret_ok in H. destruct H as [-> _].
    eexists _, _. split; [reflexivity |]. apply set_coord_on_edge. exact HE.
Qed.

Lemma random_handles_length dim nPts sE eE w hs w' :
  random_handles dim nPts sE eE w = Ok (hs, w') ->
  0 <= nPts /\ Z.of_nat (List.length hs) = nPts.
Proof.
  intros H. unfold random_handles in H.
  apply bind_ok in H. destruct H as (xs & w1 & Hxs & H).
  apply bind_ok in H. destruct H as (ys & w2 & Hys & H).
  apply np_randint_n_length in Hxs. apply np_randint_n_length in Hys.
  assert (Hc : Z.of_nat (List.length (combine xs ys)) = nPts).
  { rewrite length_combine. lia. }
  apply bind_ok in H. destruct H as ([inPts1 edgeNum] & w3 & H1 & H).
  assert (Hl1 : List.length inPts1 = List.length (combine xs ys)).
  { destruct (py_eq_True sE || py_in_range sE 0 4).
    - apply bind_ok in H1. destruct H1 as (e0 & w4 & _ & H1).
      apply bind_ok in H1. destruct H1 as (inPts' & w5 & Hpin & H1).
      apply lift_ok in Hpin. destruct Hpin as [Hpin _].
      apply ret_ok in H1. destruct H1 as [H1 _]. injection H1 as -> _.
      eapply pin_to_edge_length. exact Hpin.
    - apply ret_ok in H1. destruct H1 as [H1 _]. injection H1 as -> _. reflexivity. }
  split; [lia |].
  match type of H with (if ?c then _ else _) _ = _ => destruct c end.
  - apply bind_ok in H. destruct H as (e1 & w6 & _ & H).
    apply lift_ok in H. destruct H as [H _].
    apply pin_to_edge_length in H. lia.
  - apply ret_ok in H. destruct H as [-> _]. lia.
Qed.

Lemma cumsum_from_length (l : list Q) : forall acc, List.length (cumsum_from acc l) = List.length l.
Proof. induction l as [| x t IH]; intros acc; simpl; auto. Qed.

Lemma np_diff_length (pts : path) : List.length (np_diff pts) = pred (List.length pts).
Proof.
  unfold np_diff. destruct pts as [| p t]; [reflexivity |]. simpl.
  revert p. induction t as [| q t IH]; intros p; simpl; auto.
Qed.

Lemma resample_ok_length (pts out : path) :
  resample pts = Ok out -> (2 <= List.length pts)%nat.
Proof.
  unfold resample, pchip_interpolate.
  match goal with |- (if ?c then _ else _) = _ -> _ => destruct c eqn:E end;
    [discriminate |].
  intros _. apply Nat.ltb_ge in E. simpl in E. unfold np_cumsum in E.
  rewrite cumsum_from_length, length_map, np_diff_length in E. lia.
Qed.

Lemma resample_short (pts : path) :
  (List.length pts < 2)%nat -> resample pts = Raise ValueError.
Proof.
  intros H. unfold resample, pchip_interpolate.
  match goal with |- (if ?c then _ else _) = _ => destruct c eqn:E end;
    [reflexivity |].
  apply Nat.ltb_ge in E. simpl in E. unfold np_cumsum in E.
  rewrite cumsum_from_length, length_map, np_diff_length in E. lia.
Qed.

(** C8.  When [rand_spline] draws its own handle points with a start edge
    [E] in {0, 1, 2, 3} forced, the first handle point lies on that edge:
    [x = 0] for the left edge, [y = 0] for the top, [x = width - 1] for the
    right, [y = height - 1] for the bottom.  This holds for the handle
    points of every call that returns a path, and already for the
    handle-point stage whenever it draws any number of points but one (a
    single row is also the last row, which the end edge overwrites; such a
    call returns no path). *)
Theorem rand_spline_start_edge_pinned :
  forall (dim : Z * Z) (nPts : Z) (random_seed : option Z) (E : Z)
         (endEdge : edge_opt) (w : world),
    0 <= E < 4 ->
    (forall (splXY : path) (w' : world),
        rand_spline dim None nPts random_seed (EInt E) endEdge w = Ok (splXY, w') ->
        exists (w0 : world) (p : Z * Z) (rest : list (Z * Z)),
          np_seed random_seed w = Ok (tt, w0) /\
          random_handles dim nPts (EInt E) endEdge w0 = Ok (p :: rest, w') /\
          resample (points_to_Q (p :: rest)) = Ok splXY /\
          on_edge E dim p) /\
    (forall (hs : list (Z * Z)) (w' : world),
        nPts <> 1 ->
        random_handles dim nPts (EInt E) endEdge w = Ok (hs, w') ->
        exists (p : Z * Z) (rest : list (Z * Z)),
          hs = p :: rest /\ on_edge E dim p).
Proof.
  intros dim nPts random_seed E endEdge w HE. split.
  - intros splXY w' H.
    unfold rand_spline in H.
    apply bind_ok in H. destruct H as ([] & w0 & Hseed & H).
    apply bind_ok in H. destruct H as (pts & w1 & Hpts & H).
    apply bind_ok in Hpts. destruct Hpts as (hs & w2 & Hhs & Hpts).
    apply ret_ok in Hpts. destruct Hpts as [-> ->].
    apply lift_ok in H. destruct H as [Hres ->].
    pose proof (resample_ok_length _ _ Hres) as Hlen.
    unfold points_to_Q in Hlen. rewrite length_map in Hlen.
    pose proof (random_handles_length _ _ _ _ _ _ _ Hhs) as [_ Hn].
    destruct (random_handles_start_pinned dim nPts E endEdge _ hs _ HE ltac:(lia) Hhs)
      as (p & rest & -> & Hedge).
    exists w0, p, rest. repeat (split; [assumption |]). assumption.
  - intros hs w' Hn H.
    eapply random_handles_start_pinned; eassumption.
Qed.

Lemma pin_to_edge_raise row edgeNum dim inPts e :
  pin_to_edge row edgeNum dim inPts = Raise e ->
  e = IndexError /\ index_rejected (Z.of_nat (List.length inPts)) row.
Proof.
  unfold pin_to_edge, rbind, np_index, index_rejected.
  destruct ((0 <=? row) && (row <? Z.of_nat (List.length inPts))) eqn:E1;
    [discriminate |].
  destruct ((- Z.of_nat (List.length inPts) <=? row) && (row <? 0)) eqn:E2;
    [discriminate |].
  intros H. split; [congruence |].
  apply andb_false_iff in E1. apply andb_false_iff in E2.
  rewrite Z.leb_gt, Z.ltb_ge in E1. rewrite Z.leb_gt, Z.ltb_ge in E2. lia.
Qed.

(** The exceptions of the handle-point stage: [ValueError] from the draws,
    [IndexError] from pinning a row of an empty array. *)
Lemma random_handles_raise dim nPts sE eE w e :
  random_handles dim nPts sE eE w = Raise e ->
  e = ValueError \/ (e = IndexError /\ nPts <= 0).
Proof.
  intros H. unfold random_handles in H.
  apply bind_raise in H. destruct H as [H | (xs & w1 & Hxs & H)];
    [left; eapply np_randint_n_raise; exact H |].
  apply bind_raise in H. destruct H as [H | (ys & w2 & Hys & H)];
    [left; eapply np_randint_n_raise; exact H |].
  apply np_randint_n_length in Hxs. apply np_randint_n_length in Hys.
  assert (Hc : Z.of_nat (List.length (combine xs ys)) = nPts).
  { rewrite length_combine. lia. }
  apply bind_raise in H. destruct H as [H | ([inPts1 edgeNum] & w3 & H1 & H)].
  - destruct (py_eq_True sE || py_in_range sE 0 4); [| discriminate].
    apply bind_raise in H. destruct H as [H | (e0 & w4 & _ & H)].
    + destruct (py_in_range sE 0 4 && py_not_bool sE); [discriminate |].
      left. eapply np_randint_raise. exact H.
    + apply bind_raise in H. destruct H as [H | (? & ? & _ & H)]; [| discriminate].
      apply lift_raise, pin_to_edge_raise in H. destruct H as [-> Hrej].
      right. split; [reflexivity |]. unfold index_rejected in Hrej. lia.
  - assert (Hl1 : List.length inPts1 = List.length (combine xs ys)).
    { destruct (py_eq_True sE || py_in_range sE 0 4).
      - apply bind_ok in H1. destruct H1 as (e0 & w4 & _ & H1).
        apply bind_ok in H1. destruct H1 as (inPts' & w5 & Hpin & H1).
        apply lift_ok in Hpin. destruct Hpin as [Hpin _].
        apply ret_ok in H1. destruct H1 as [H1 _]. injection H1 as -> _.
        eapply pin_to_edge_length. exact Hpin.
      - apply ret_ok in H1. destruct H1 as [H1 _]. injection H1 as -> _.
        reflexivity. }
    match type of H with (if ?c then _ else _) _ = _ => destruct c end;
      [| discriminate].
    apply bind_raise in H. destruct H as [H | (e1 & w6 & _ & H)].
    + destruct (py_in_range eE 0 4); [discriminate |].
      match type of H with (if ?c then _ else _) _ = _ => destruct c end;
        [discriminate |].
      left. eapply np_randint_raise. exact H.
    + apply lift_raise, pin_to_edge_raise in H. destruct H as [-> Hrej].
      right. split; [reflexivity |]. unfold index_rejected in Hrej. lia.
Qed.

(** C6, as amended.  [rand_spline] has no check of its own on the number of
    handle points.  With fewer than two supplied points, and with
    [nPts = 1], the call ends in the [ValueError] of the libraries (the
    interpolation, or before it the argument checks of the seeding and of
    [randint]); with [nPts <= 0] in a [ValueError] or in the [IndexError] of
    pinning a row of an empty array.  [InvalidInputError] is never what is
    raised. *)
Theorem rand_spline_too_few_handles :
  forall (dim : Z * Z) (random_seed : option Z) (startEdge endEdge : edge_opt)
         (w : world),
    (forall (pts : path) (nPts : Z),
        (List.length pts < 2)%nat ->
        rand_spline dim (Some pts) nPts random_seed startEdge endEdge w
        = Raise ValueError) /\
    rand_spline dim None 1 random_seed startEdge endEdge w = Raise ValueError /\
    (forall nPts : Z,
        nPts < 2 ->
        exists e : exn,
          rand_spline dim None nPts random_seed startEdge endEdge w = Raise e /\
          (e = ValueError \/ e = IndexError)).
Proof.
  intros dim random_seed startEdge endEdge w.
  assert (Hrandom : forall nPts : Z,
             nPts < 2 ->
             exists e : exn,
               rand_spline dim None nPts random_seed startEdge endEdge w = Raise e /\
               (e = ValueError \/ (e = IndexError /\ nPts <= 0))).
  { intros nPts Hn. unfold rand_spline.
    destruct (np_seed random_seed w) as [[[] w0] | e] eqn:Hs.
    - rewrite (bind_eq_ok _ _ _ _ _ Hs).
      destruct (random_handles dim nPts startEdge endEdge w0) as [[hs w1] | e] eqn:Hh.
      + pose proof (random_handles_length _ _ _ _ _ _ _ Hh) as [_ Hl].
        exists ValueError. split; [| auto].
        unfold bind at 1. unfold bind at 1. rewrite Hh. unfold ret, lift.
        rewrite resample_short; [reflexivity |].
        unfold points_to_Q. rewrite length_map. lia.
      + exists e. split; [| eapply random_handles_raise; exact Hh].
        unfold bind at 1. unfold bind at 1. rewrite Hh. reflexivity.
    - exists e. rewrite (bind_eq_raise _ _ _ _ Hs). apply np_seed_raises in Hs. auto. }
  split; [| split].
  - intros pts nPts Hlen. unfold rand_spline.
    destruct (np_seed random_seed w) as [[[] w0] | e] eqn:Hs.
    + rewrite (bind_eq_ok _ _ _ _ _ Hs).
      unfold bind, ret, lift. rewrite (resample_short pts Hlen). reflexivity.
    + rewrite (bind_eq_raise _ _ _ _ Hs). apply np_seed_raises in Hs. congruence.
  - destruct (Hrandom 1 ltac:(lia)) as (e & He & [-> | [_ Hneg]]); [exact He | lia].
  - intros nPts Hn. destruct (Hrandom nPts Hn) as (e & He & [-> | [-> _]]); eauto.
Qed.
End SplineProperties.

(* ------------------------------------------------------------------------- *)
(** ** Mask indexing *)

Lemma Qle_bool_false (x y : Q) : Qle_bool x y = false -> (y < x)%Q.
Proof.
  intros H. apply Qnot_le_lt. intros Hle. apply Qle_bool_iff in Hle. congruence.
Qed.

Lemma np_round_bounds (a b : Z) (q : Q) :
  (Z2Q a <= q <= Z2Q b)%Q -> a <= np_round q <= b.
Proof.
  unfold Z2Q. intros [Ha Hb].
  assert (Hfa : a <= Qfloor q).
  { rewrite <- (Qfloor_Z a). apply Qfloor_resp_le. exact Ha. }
  assert (Hfb : Qfloor q <= b).
  { rewrite <- (Qfloor_Z b). apply Qfloor_resp_le. exact Hb. }
  pose proof (Qfloor_le q) as Hfl.
  unfold np_round.
  destruct (Qle_bool (q - inject_Z (Qfloor q)) (1 # 2)) eqn:E1.
  - destruct (Qle_bool (1 # 2) (q - inject_Z (Qfloor q))) eqn:E2.
    + apply Qle_bool_iff in E2.
      assert (Hlt : Qfloor q < b).
      { destruct (Z.eq_dec (Qfloor q) b) as [Heq | Hne]; [| lia].
        rewrite Heq in E2. lra. }
      destruct (Z.even (Qfloor q)); lia.
    + lia.
  - apply Qle_bool_false in E1.
    assert (Hlt : Qfloor q < b).
    { destruct (Z.eq_dec (Qfloor q) b) as [Heq | Hne]; [| lia].
      rewrite Heq in E1. lra. }
    lia.
Qed.

Lemma py_trunc_bounds (b : Z) (q : Q) :
  (0 <= q <= Z2Q b)%Q -> 0 <= py_trunc q <= b.
Proof.
  unfold Z2Q. intros [Ha Hb]. unfold py_trunc.
  apply Qle_bool_iff in Ha. rewrite Ha. apply Qle_bool_iff in Ha.
  split.
  - change 0 with (Qfloor (inject_Z 0)). apply Qfloor_resp_le. exact Ha.
  - rewrite <- (Qfloor_Z b). apply Qfloor_resp_le. exact Hb.
Qed.

Lemma clamp_point_inside (dim : Z * Z) (p : Q * Q) :
  0 < fst dim -> 0 < snd dim -> inside_image dim (clamp_point dim p).
Proof.
  intros Hw Hh. unfold inside_image, clamp_point, Z2Q. simpl.
  assert (H0w : (0 <= inject_Z (fst dim - 1))%Q).
  { change 0%Q with (inject_Z 0). rewrite <- Zle_Qle. lia. }
  assert (H0h : (0 <= inject_Z (snd dim - 1))%Q).
  { change 0%Q with (inject_Z 0). rewrite <- Zle_Qle. lia. }
  repeat split.
  - apply Q.min_glb; [apply Q.le_max_r | exact H0w].
  - apply Q.le_min_r.
  - apply Q.min_glb; [apply Q.le_max_r | exact H0h].
  - apply Q.le_min_r.
Qed.

Lemma path_index_inside (conv : Q -> Z) (dim : Z * Z) (sampSpl : path) :
  (forall (b : Z) (q : Q), (0 <= q <= Z2Q b)%Q -> 0 <= conv q <= b) ->
  Forall (inside_image dim) sampSpl ->
  Forall (in_bounds (snd dim, fst dim)) (path_index conv sampSpl).
Proof.
  intros Hconv H. unfold path_index. apply Forall_map.
  eapply Forall_impl; [| exact H].
  intros [x y] [Hx Hy]. unfold in_bounds. simpl in *.
  pose proof (Hconv _ _ Hx). pose proof (Hconv _ _ Hy). lia.
Qed.

Lemma np_index_rejected (n i : Z) :
  index_rejected n i -> np_index n i = Raise IndexError.
Proof.
  unfold index_rejected, np_index. intros H.
  destruct ((0 <=? i) && (i <? n)) eqn:E1.
  - apply andb_true_iff in E1. rewrite Z.leb_le, Z.ltb_lt in E1. lia.
  - destruct ((- n <=? i) && (i <? 0)) eqn:E2; [| reflexivity].
    apply andb_true_iff in E2. rewrite Z.leb_le, Z.ltb_lt in E2. lia.
Qed.

Lemma np_index_raise (n i : Z) (e : exn) : np_index n i = Raise e -> e = IndexError.
Proof.
  unfold np_index. destruct ((0 <=? i) && (i <? n)); [discriminate |].
  destruct ((- n <=? i) && (i <? 0)); [discriminate | congruence].
Qed.

Lemma np_set_cells_rejected {A} (invDim : Z * Z) (v : A) (idx : list (Z * Z)) :
  Exists (fun rc => index_rejected (fst invDim) (fst rc)
                    \/ index_rejected (snd invDim) (snd rc)) idx ->
  forall m, np_set_cells invDim idx v m = Raise IndexError.
Proof.
  induction idx as [| [r c] rest IH]; intros H m.
  - inversion H.
  - simpl. unfold rbind.
    destruct (np_index (fst invDim) r) as [r' | e] eqn:Er.
    + destruct (np_index (snd invDim) c) as [c' | e] eqn:Ec.
      * apply IH. inversion H as [? ? [Hr | Hc] | ? ? Hrest]; subst; simpl in *.
        -- rewrite np_index_rejected in Er by exact Hr. discriminate.
        -- rewrite np_index_rejected in Ec by exact Hc. discriminate.
        -- exact Hrest.
      * apply np_index_raise in Ec. congruence.
    + apply np_index_raise in Er. congruence.
Qed.

(* ------------------------------------------------------------------------- *)
(** ** Thresholded regions and the width parameter *)

Lemma nth_map_error {A B} (g : A -> B) (d : B) :
  forall (l : list A) (n : nat),
    nth n (map g l) d = match nth_error l n with Some x => g x | None => d end.
Proof.
  induction l as [| a t IH]; intros [| n]; simpl; auto.
Qed.

Lemma cell_raster_map {A B} (f : A -> B) (d : B) (m : list (list A)) (r c : Z) :
  cell d (raster_map f m) r c
  = match nth_error m (Z.to_nat r) with
    | Some row => match nth_error row (Z.to_nat c) with
                  | Some x => f x
                  | None => d
                  end
    | None => d
    end.
Proof.
  unfold cell, raster_map. rewrite (nth_map_error (map f) []).
  destruct (nth_error m (Z.to_nat r)) as [row |].
  - apply nth_map_error.
  - destruct (Z.to_nat c); reflexivity.
Qed.

Lemma np_le_mono (m : raster) (t1 t2 : Q) :
  (t1 <= t2)%Q -> region_subset (np_le m t1) (np_le m t2).
Proof.
  intros Ht r c. unfold np_le. rewrite !cell_raster_map.
  destruct (nth_error m (Z.to_nat r)) as [row |]; [| discriminate].
  destruct (nth_error row (Z.to_nat c)) as [x |]; [| discriminate].
  intros H. apply Qle_bool_iff in H. apply Qle_bool_iff.
  eapply Qle_trans; eassumption.
Qed.

Lemma half_mono (w1 w2 : Q) : (w1 <= w2)%Q -> (w1 / 2 <= w2 / 2)%Q.
Proof.
  intros H. unfold Qdiv. apply Qmult_le_compat_r; [exact H | discriminate].
Qed.

Section WidthProperties.
Context {L : Library}.

(** C7, as amended.  With everything but the width fixed, the thresholded
    region of [add_marker] grows with the width, and so does the band of
    [add_sectioning] when [randEdge] is off: every pixel of the region at
    [width1] is a pixel of the region at any [width2 >= width1]. *)
Theorem region_grows_with_width :
  forall (inputIm : image) (random_seed : option Z) (nPts : Z)
         (sampSpl inPts : option path) (width1 width2 : Q) (w : world),
    (width1 <= width2)%Q ->
    (forall rgbVal rgbRange c1 reg1 w1 c2 reg2 w2,
        marker_region inputIm random_seed nPts sampSpl inPts width1 rgbVal
          rgbRange w = Ok ((c1, reg1), w1) ->
        marker_region inputIm random_seed nPts sampSpl inPts width2 rgbVal
          rgbRange w = Ok ((c2, reg2), w2) ->
        region_subset reg1 reg2) /\
    (forall endEdge d1 reg1 w1 d2 reg2 w2,
        sectioning_region inputIm width1 random_seed false sampSpl inPts nPts
          endEdge w = Ok ((d1, reg1), w1) ->
        sectioning_region inputIm width2 random_seed false sampSpl inPts nPts
          endEdge w = Ok ((d2, reg2), w2) ->
        region_subset reg1 reg2).
Proof.
  intros inputIm random_seed nPts sampSpl inPts width1 width2 w Hw. split.
  - intros rgbVal rgbRange c1 reg1 w1 c2 reg2 w2 H1 H2.
    unfold marker_region in H1, H2.
    inv_bind H1 Ea. inv_bind H2 Eb. same Ea Eb.
    inv_bind H1 Ea. inv_bind H2 Eb. same Ea Eb.
    inv_bind H1 Ea. inv_bind H2 Eb. same Ea Eb.
    inv_bind H1 Ea. inv_bind H2 Eb. same Ea Eb.
    apply ret_ok in H1. apply ret_ok in H2.
    destruct H1 as [H1 _]. destruct H2 as [H2 _].
    injection H1 as _ ->. injection H2 as _ ->.
    apply np_le_mono, half_mono, Hw.
  - intros endEdge d1 reg1 w1 d2 reg2 w2 H1 H2.
    unfold sectioning_region in H1, H2.
    inv_bind H1 Ea. inv_bind H2 Eb. same Ea Eb.
    inv_bind H1 Ea. inv_bind H2 Eb. same Ea Eb.
    inv_bind H1 Ea. inv_bind H2 Eb. same Ea Eb.
    inv_bind H1 Ea. inv_bind H2 Eb.
    apply ret_ok in Ea. apply ret_ok in Eb.
    destruct Ea as [-> ->]. destruct Eb as [-> ->].
    apply ret_ok in H1. apply ret_ok in H2.
    destruct H1 as [H1 _]. destruct H2 as [H2 _].
    injection H1 as _ ->. injection H2 as _ ->.
    apply np_le_mono, half_mono, Hw.
Qed.
End WidthProperties.

(* ------------------------------------------------------------------------- *)
(** ** Determinism *)

Create HintDb det discriminated.

Section Determinism.
Context {L : Library}.

Lemma related_value {A} (r1 r2 : result (A * world)) :
  related r1 r2 -> value r1 = value r2.
Proof.
  destruct r1 as [[a1 w1] | e1], r2 as [[a2 w2] | e2]; simpl; try contradiction.
  - intros [-> _]. reflexivity.
  - intros ->. reflexivity.
Qed.

Lemma reseeded_deterministic {A} (m : M A) : reseeded m -> deterministic m.
Proof. intros H w1 w2. apply related_value, H. Qed.

Lemma reseeded_gen_only {A} (m : M A) : reseeded m -> gen_only m.
Proof. intros H w1 w2 _. apply H. Qed.

Lemma gen_only_ret {A} (a : A) : gen_only (ret a).
Proof. intros w1 w2 H. simpl. auto. Qed.

Lemma gen_only_raise {A} (e : exn) : gen_only (@raise L A e).
Proof. intros w1 w2 H. reflexivity. Qed.

Lemma gen_only_lift {A} (r : result A) : gen_only (lift r).
Proof. intros w1 w2 H. unfold lift. destruct r; simpl; auto. Qed.

Lemma gen_only_draw {A} (f : rng -> A * rng) : gen_only (draw f).
Proof.
  intros w1 w2 H. unfold draw. rewrite H. destruct (f (gen w2)). simpl. auto.
Qed.

Lemma gen_only_bind {A B} (m : M A) (k : A -> M B) :
  gen_only m -> (forall a, gen_only (k a)) -> gen_only (bind m k).
Proof.
  intros Hm Hk w1 w2 H. unfold bind. specialize (Hm w1 w2 H).
  destruct (m w1) as [[a1 w1'] | e1], (m w2) as [[a2 w2'] | e2];
    simpl in Hm; try contradiction.
  - destruct Hm as [-> Hg]. apply Hk. exact Hg.
  - exact Hm.
Qed.

Lemma reseeded_bind {A B} (m : M A) (k : A -> M B) :
  reseeded m -> (forall a, gen_only (k a)) -> reseeded (bind m k).
Proof.
  intros Hm Hk w1 w2. unfold bind. specialize (Hm w1 w2).
  destruct (m w1) as [[a1 w1'] | e1], (m w2) as [[a2 w2'] | e2];
    simpl in Hm; try contradiction.
  - destruct Hm as [-> Hg]. apply Hk. exact Hg.
  - exact Hm.
Qed.

(** Seeding with an integer overwrites the generator: what follows no longer
    depends on the world the call started in. *)
Lemma reseeded_seed (s : Z) : reseeded (np_seed (Some s)).
Proof.
  intros w1 w2. simpl. destruct (seed_ok s); simpl; auto.
Qed.

Lemma gen_only_seed (s : Z) : gen_only (np_seed (Some s)).
Proof. apply reseeded_gen_only, reseeded_seed. Qed.

Lemma gen_only_repeatM {A} (m : M A) (n : nat) : gen_only m -> gen_only (repeatM n m).
Proof.
  intros Hm. induction n as [| n IH]; simpl.
  - apply gen_only_ret.
  - apply gen_only_bind; [exact Hm | intros a].
    apply gen_only_bind; [exact IH | intros rest]. apply gen_only_ret.
Qed.

Lemma gen_only_mapM {A B} (f : A -> M B) (l : list A) :
  (forall a, gen_only (f a)) -> gen_only (mapM f l).
Proof.
  intros Hf. induction l as [| a t IH]; simpl.
  - apply gen_only_ret.
  - apply gen_only_bind; [apply Hf | intros b].
    apply gen_only_bind; [exact IH | intros rest]. apply gen_only_ret.
Qed.

Lemma gen_only_foldM {A B} (f : A -> B -> M A) (l : list B) :
  (forall a b, gen_only (f a b)) -> forall a, gen_only (foldM f l a).
Proof.
  intros Hf. induction l as [| b t IH]; intros a; simpl.
  - apply gen_only_ret.
  - apply gen_only_bind; [apply Hf | exact IH].
Qed.

#[local] Hint Resolve gen_only_ret gen_only_raise gen_only_lift gen_only_draw
  gen_only_seed : det.

Ltac det_step :=
  match goal with
  | |- forall _, _ => intro
  | |- gen_only (bind _ _) => apply gen_only_bind
  | |- gen_only (repeatM _ _) => apply gen_only_repeatM
  | |- gen_only (mapM _ _) => apply gen_only_mapM
  | |- gen_only (foldM _ _ _) => apply gen_only_foldM
  | |- gen_only (if ?c then _ else _) => destruct c
  | |- gen_only (match ?x with _ => _ end) => destruct x
  | |- gen_only _ => solve [auto with det]
  | |- gen_only _ => progress cbv beta zeta
  end.
Ltac det := repeat det_step.

Lemma gen_only_np_randint low high : gen_only (np_randint low high).
Proof. unfold np_randint. det. Qed.

Lemma gen_only_np_randint_n low high count : gen_only (np_randint_n low high count).
Proof. unfold np_randint_n. det. Qed.

Lemma gen_only_np_uniform low high : gen_only (np_uniform low high).
Proof. unfold np_uniform. det. Qed.

Lemma gen_only_np_uniform_n low high count : gen_only (np_uniform_n low high count).
Proof. unfold np_uniform_n. det. Qed.

#[local] Hint Resolve gen_only_np_randint gen_only_np_randint_n gen_only_np_uniform
  gen_only_np_uniform_n : det.

Lemma gen_only_np_randint_2d low high invDim : gen_only (np_randint_2d low high invDim).
Proof. unfold np_randint_2d. det. Qed.

Lemma gen_only_np_uniform_2d low high invDim : gen_only (np_uniform_2d low high invDim).
Proof. unfold np_uniform_2d. det. Qed.

#[local] Hint Resolve gen_only_np_randint_2d gen_only_np_uniform_2d : det.

Lemma gen_only_random_handles dim nPts sE eE : gen_only (random_handles dim nPts sE eE).
Proof. unfold random_handles. det. Qed.

#[local] Hint Resolve gen_only_random_handles : det.

Lemma gen_only_rand_spline dim inPts nPts s sE eE :
  gen_only (rand_spline dim inPts nPts (Some s) sE eE).
Proof. unfold rand_spline. det. Qed.

#[local] Hint Resolve gen_only_rand_spline : det.

Ltac reseed := apply reseeded_bind; [apply reseeded_seed | det].

Lemma reseeded_marker_region inputIm s nPts sampSpl inPts width rgbVal rgbRange :
  reseeded (marker_region inputIm (Some s) nPts sampSpl inPts width rgbVal rgbRange).
Proof. unfold marker_region. reseed. Qed.

Lemma reseeded_add_marker inputIm s nPts sampSpl inPts width alpha rgbVal rgbRange :
  reseeded (add_marker inputIm (Some s) nPts sampSpl inPts width alpha rgbVal rgbRange).
Proof.
  unfold add_marker. apply reseeded_bind; [apply reseeded_marker_region | det].
Qed.

Lemma gen_only_fold_layer inputIm sampArr sampSpl inPts s scaleXY width
  sampShiftXY randEdge nPts endEdge :
  gen_only (fold_layer inputIm sampArr sampSpl inPts (Some s) scaleXY width
              sampShiftXY randEdge nPts endEdge).
Proof. unfold fold_layer. det. Qed.

Lemma reseeded_add_fold_layers :
  forall (fuel : nat) inputIm sampArr sampSpl inPts s scaleXY width sampShiftXY
         randEdge nLayers nPts endEdge,
    reseeded (add_fold_layers fuel inputIm sampArr sampSpl inPts (Some s) scaleXY
                width sampShiftXY randEdge nLayers nPts endEdge).
Proof.
  induction fuel as [| fuel IH]; intros; simpl;
    (apply reseeded_bind; [apply reseeded_seed | intros _]);
    (destruct (nLayers <? 1); [apply gen_only_ret |]);
    (apply gen_only_bind; [apply gen_only_fold_layer | intros [[comp_im sa] sp]]);
    (destruct (1 <? nLayers); [| apply gen_only_ret]);
    (apply gen_only_bind; [apply gen_only_lift | intros seed']).
  - apply gen_only_raise.
  - apply reseeded_gen_only, IH.
Qed.

Lemma reseeded_add_fold inputIm sampArr sampSpl inPts s scaleXY width sampShiftXY
  randEdge nLayers nPts endEdge :
  reseeded (add_fold inputIm sampArr sampSpl inPts (Some s) scaleXY width
              sampShiftXY randEdge nLayers nPts endEdge).
Proof. unfold add_fold. apply reseeded_add_fold_layers. Qed.

Lemma reseeded_sectioning_region inputIm width s randEdge sampSpl inPts nPts endEdge :
  reseeded (sectioning_region inputIm width (Some s) randEdge sampSpl inPts nPts endEdge).
Proof. unfold sectioning_region, sectioning_path. reseed. Qed.

Lemma reseeded_add_sectioning inputIm width s scaleMin scaleMax randEdge sampSpl
  inPts nPts endEdge :
  reseeded (add_sectioning inputIm width (Some s) scaleMin scaleMax randEdge
              sampSpl inPts nPts endEdge).
Proof.
  unfold add_sectioning.
  apply reseeded_bind; [apply reseeded_sectioning_region | det].
Qed.

Lemma gen_only_gauss_term pos maxCov minCovScale minDiagCovScale maxCrCovScale
  sumMap cent :
  gen_only (gauss_term pos maxCov minCovScale minDiagCovScale maxCrCovScale
              sumMap cent).
Proof. unfold gauss_term. det. Qed.

#[local] Hint Resolve gen_only_gauss_term : det.

Lemma gen_only_rand_gauss dim nNorms maxCov s centXY zeroToOne minMaxX minMaxY
  minCovScale minDiagCovScale maxCrCovScale :
  gen_only (rand_gauss dim nNorms maxCov (Some s) centXY zeroToOne minMaxX
              minMaxY minCovScale minDiagCovScale maxCrCovScale).
Proof. unfold rand_gauss. det. Qed.

#[local] Hint Resolve gen_only_rand_gauss : det.

Lemma reseeded_add_bubbles inputIm s nBubbles maxWidth alpha edgeWidth
  edgeColorMult rgbVal :
  reseeded (add_bubbles inputIm (Some s) nBubbles maxWidth alpha edgeWidth
              edgeColorMult rgbVal).
Proof. unfold add_bubbles. reseed. Qed.

Lemma reseeded_add_illumination inputIm s maxCov nNorms scaleMin scaleMax
  minCovScale minDiagCovScale maxCrCovScale :
  reseeded (add_illumination inputIm (Some s) maxCov nNorms scaleMin scaleMax
              minCovScale minDiagCovScale maxCrCovScale).
Proof. unfold add_illumination. reseed. Qed.

Lemma gen_only_stain_factor lo hi : gen_only (stain_factor lo hi).
Proof. unfold stain_factor. det. Qed.

#[local] Hint Resolve gen_only_stain_factor : det.

Lemma deterministic_add_stain inputIm adjFactor scaleMax scaleMin s :
  deterministic (add_stain inputIm adjFactor scaleMax scaleMin (Some s)).
Proof.
  unfold add_stain. destruct adjFactor as [f |].
  - intros w1 w2. unfold bind, ret, lift.
    destruct (adjust_stain inputIm f) as [[[[rgbOut rgb1] rgb2] rgb3] |];
      reflexivity.
  - apply reseeded_deterministic.
    destruct scaleMax as [[hi0 hi1] hi2]. destruct scaleMin as [[lo0 lo1] lo2].
    apply reseeded_bind; [reseed | det].
Qed.

Lemma gen_only_tear_layer inLineMax perpMax inLinePercs perpPercs center der
  layer nTPts prevCt prev :
  gen_only (tear_layer inLineMax perpMax inLinePercs perpPercs center der layer
              nTPts prevCt prev).
Proof. unfold tear_layer. det. Qed.

Lemma gen_only_tear_layers inLineMax perpMax inLinePercs perpPercs center der :
  forall counts layer prevCt prev,
    gen_only (tear_layers inLineMax perpMax inLinePercs perpPercs center der
                layer counts prevCt prev).
Proof.
  induction counts as [| nTPts rest IH]; intros layer prevCt prev; simpl.
  - apply gen_only_ret.
  - apply gen_only_bind; [apply gen_only_tear_layer | intros newPts].
    apply gen_only_bind; [apply IH | intros more]. apply gen_only_ret.
Qed.

Lemma gen_only_density_columns tearDensity minDensity maxDensity nTears :
  forall rest tNo,
    gen_only (density_columns tearDensity minDensity maxDensity tNo nTears rest).
Proof.
  induction rest as [| lo rest IH]; intros tNo; simpl.
  - apply gen_only_ret.
  - det.
Qed.

#[local] Hint Resolve gen_only_tear_layers gen_only_density_columns : det.

Lemma reseeded_tear_regions inputIm sampSpl s nPts minSpacing maxSpacing
  tearStartFactor tearEndFactor dirMin dirMax inLineMax perpMax ptRadius
  inLinePercs perpPercs l1MinCt l1MaxCt minDensity maxDensity edgeWidth randEdge :
  reseeded (tear_regions inputIm sampSpl (Some s) nPts minSpacing maxSpacing
              tearStartFactor tearEndFactor dirMin dirMax inLineMax perpMax
              ptRadius inLinePercs perpPercs l1MinCt l1MaxCt minDensity
              maxDensity edgeWidth randEdge).
Proof. unfold tear_regions. reseed. Qed.

Lemma reseeded_add_tear inputIm sampSpl s nPts minSpacing maxSpacing
  tearStartFactor tearEndFactor dirMin dirMax inLineMax perpMax ptRadius
  tearAlpha inLinePercs perpPercs l1MinCt l1MaxCt minDensity maxDensity
  edgeWidth edgeAlpha edgeColorMult rgbVal randEdge :
  reseeded (add_tear inputIm sampSpl (Some s) nPts minSpacing maxSpacing
              tearStartFactor tearEndFactor dirMin dirMax inLineMax perpMax
              ptRadius tearAlpha inLinePercs perpPercs l1MinCt l1MaxCt
              minDensity maxDensity edgeWidth edgeAlpha edgeColorMult rgbVal
              randEdge).
Proof.
  unfold add_tear. apply reseeded_bind; [apply reseeded_tear_regions | det].
Qed.
End Determinism.

(* ------------------------------------------------------------------------- *)
(** ** Stain factors *)

(** With the factors [[1, 1, 1]] the exponent maps that [adjust_stain] hands
    to the exponential map have the values of the density maps of the
    decomposition.  How close the recomposed colours then are to the input
    image is a property of the decomposition package's floating-point
    kernels, which are not part of this module. *)
Lemma unit_factor_keeps_densities (a : raster) :
  Forall2 (Forall2 Qeq) (raster_map (fun x => x * 1)%Q a) a.
Proof.
  unfold raster_map. induction a as [| row t IH]; simpl; constructor;
    [| exact IH].
  induction row as [| x r IHr]; simpl; constructor;
    [apply Qmult_1_r | exact IHr].
Qed.

(* ------------------------------------------------------------------------- *)
(** ** Which generators clamp before they index *)

Lemma np_set_cells_in_bounds {A} (invDim : Z * Z) (v : A) (idx : list (Z * Z)) :
  Forall (in_bounds invDim) idx ->
  forall m, exists m', np_set_cells invDim idx v m = Ok m'.
Proof.
  induction idx as [| [r c] rest IH]; intros H m.
  - exists m. reflexivity.
  - inversion H as [| ? ? [Hr Hc] Hrest]; subst. simpl in Hr, Hc.
    simpl. rewrite (np_index_direct _ _ Hr), (np_index_direct _ _ Hc). simpl.
    apply IH. exact Hrest.
Qed.

(** C9, as amended.  On an image with at least one pixel, [add_tear] clamps
    every point of its cloud into the image before rounding, so every cell
    its mask construction addresses is in bounds and the construction
    succeeds.  [add_marker] (rounding) and [add_fold], [add_sectioning]
    (truncating) do not clamp: the cells they address are in bounds when the
    path samples lie inside the image, and a sample whose converted
    coordinate is at or beyond the dimension, or below minus the dimension,
    ends the mask construction in an [IndexError]. *)
Theorem mask_indexing_bounds :
  forall dim : Z * Z,
    0 < fst dim -> 0 < snd dim ->
    (forall tearXY : path,
        Forall (in_bounds (snd dim, fst dim)) (tear_index dim tearXY) /\
        exists tearMask : raster,
          np_set_cells (snd dim, fst dim) (tear_index dim tearXY) 0%Q
            (np_ones (snd dim, fst dim)) = Ok tearMask) /\
    (forall sampSpl : path,
        Forall (inside_image dim) sampSpl ->
        Forall (in_bounds (snd dim, fst dim)) (path_index np_round sampSpl) /\
        Forall (in_bounds (snd dim, fst dim)) (path_index py_trunc sampSpl)) /\
    (forall (conv : Q -> Z) (sampSpl : path),
        Exists (fun p => index_rejected (snd dim) (conv (snd p))
                         \/ index_rejected (fst dim) (conv (fst p))) sampSpl ->
        path_mask conv (snd dim, fst dim) sampSpl = Raise IndexError).
Proof.
  intros dim Hw Hh.
  assert (Hround : forall (b : Z) (q : Q),
             (0 <= q <= Z2Q b)%Q -> 0 <= np_round q <= b).
  { intros b q Hq. apply (np_round_bounds 0 b q). exact Hq. }
  assert (Htear : forall tearXY : path,
             Forall (in_bounds (snd dim, fst dim)) (tear_index dim tearXY)).
  { intros tearXY. unfold tear_index.
    apply path_index_inside; [exact Hround |].
    apply Forall_map, Forall_forall. intros p _.
    apply clamp_point_inside; assumption. }
  split; [| split].
  - intros tearXY. split; [apply Htear |].
    apply np_set_cells_in_bounds, Htear.
  - intros sampSpl Hin. split.
    + apply path_index_inside; [exact Hround | exact Hin].
    + apply path_index_inside; [exact py_trunc_bounds | exact Hin].
  - intros conv sampSpl Hex. unfold path_mask.
    apply np_set_cells_rejected. unfold path_index.
    apply Exists_map. exact Hex.
Qed.

(* ------------------------------------------------------------------------- *)
(** ** Two invocations with one integer seed *)

Section TwoRuns.
Context {L : Library}.

(** C1.  For each of the seven artifact types, any input image, any
    parameters and any integer [random_seed], two invocations of the
    [add_*] function, started in any two states of the global generator and
    of the entropy source, return the same image (or raise the same
    exception). *)
Theorem generators_deterministic :
  forall s : Z,
    (forall inputIm nPts sampSpl inPts width alpha rgbVal rgbRange,
        deterministic (add_marker inputIm (Some s) nPts sampSpl inPts width
                         alpha rgbVal rgbRange)) /\
    (forall inputIm sampArr sampSpl inPts scaleXY width sampShiftXY randEdge
            nLayers nPts endEdge,
        deterministic (add_fold inputIm sampArr sampSpl inPts (Some s) scaleXY
                         width sampShiftXY randEdge nLayers nPts endEdge)) /\
    (forall inputIm width scaleMin scaleMax randEdge sampSpl inPts nPts endEdge,
        deterministic (add_sectioning inputIm width (Some s) scaleMin scaleMax
                         randEdge sampSpl inPts nPts endEdge)) /\
    (forall inputIm maxCov nNorms scaleMin scaleMax minCovScale minDiagCovScale
            maxCrCovScale,
        deterministic (add_illumination inputIm (Some s) maxCov nNorms scaleMin
                         scaleMax minCovScale minDiagCovScale maxCrCovScale)) /\
    (forall inputIm nBubbles maxWidth alpha edgeWidth edgeColorMult rgbVal,
        deterministic (add_bubbles inputIm (Some s) nBubbles maxWidth alpha
                         edgeWidth edgeColorMult rgbVal)) /\
    (forall inputIm adjFactor scaleMax scaleMin,
        deterministic (add_stain inputIm adjFactor scaleMax scaleMin (Some s))) /\
    (forall inputIm sampSpl nPts minSpacing maxSpacing tearStartFactor
            tearEndFactor dirMin dirMax inLineMax perpMax ptRadius tearAlpha
            inLinePercs perpPercs l1MinCt l1MaxCt minDensity maxDensity
            edgeWidth edgeAlpha edgeColorMult rgbVal randEdge,
        deterministic (add_tear inputIm sampSpl (Some s) nPts minSpacing
                         maxSpacing tearStartFactor tearEndFactor dirMin dirMax
                         inLineMax perpMax ptRadius tearAlpha inLinePercs
                         perpPercs l1MinCt l1MaxCt minDensity maxDensity
                         edgeWidth edgeAlpha edgeColorMult rgbVal randEdge)).
Proof.
  intros s. repeat split; intros.
  - apply reseeded_deterministic, reseeded_add_marker.
  - apply reseeded_deterministic, reseeded_add_fold.
  - apply reseeded_deterministic, reseeded_add_sectioning.
  - apply reseeded_deterministic, reseeded_add_illumination.
  - apply reseeded_deterministic, reseeded_add_bubbles.
  - apply deterministic_add_stain.
  - apply reseeded_deterministic, reseeded_add_tear.
Qed.
End TwoRuns.

(* ------------------------------------------------------------------------- *)
(** ** Concrete runs *)

(** C3, the claim as stated fails: the generator is seeded before the layer
    count is looked at, so a seed that [np.random.seed] rejects ends the
    call in a [ValueError] although [nLayers = 0]. *)
Lemma add_fold_no_layers_rejected_seed :
  add_fold (L := Demo.lib) (Demo.grey 4 4) None None None (Some (-1)) (1, 1)%Q
    200 None false 0 3 (EInt (-2)) Demo.w0 = Raise ValueError.
Proof. vm_compute. reflexivity. Qed.

Lemma add_fold_no_layers_returns_input_witness :
  0 < 1 /\ seed_accepted (Some 42) /\
  exists w',
    add_fold (L := Demo.lib) (Demo.grey 4 4) None None None (Some 42) (1, 1)%Q
      200 None false 0 3 (EInt (-2)) Demo.w0 = Ok (Demo.grey 4 4, w').
Proof.
  split; [lia |]. split; [simpl; lia |].
  apply (add_fold_no_layers_returns_input (L := Demo.lib)); [lia | simpl; lia].
Defined.

Lemma add_fold_unseeded_layers_raise_witness :
  2 <= 2 /\
  (forall r,
      add_fold (L := Demo.lib) (Demo.grey 12 12) None
        (Some [(0, 0); (4, 4); (8, 8)]%Q) None None (1, 1)%Q 4 None false 2 3
        (EInt (-2)) Demo.w0 <> Ok r) /\
  add_fold (L := Demo.lib) (Demo.grey 12 12) None
    (Some [(0, 0); (4, 4); (8, 8)]%Q) None None (1, 1)%Q 4 None false 2 3
    (EInt (-2)) Demo.w0 = Raise TypeError.
Proof.
  split; [lia |].
  destruct (add_fold_unseeded_layers_raise (L := Demo.lib) (Demo.grey 12 12) None
              (Some [(0, 0); (4, 4); (8, 8)]%Q) None (1, 1)%Q 4 None false 2 3
              (EInt (-2)) Demo.w0 ltac:(lia)) as [Hnever Hraise].
  split; [exact Hnever |].
  eapply Hraise; [vm_compute; reflexivity | vm_compute; reflexivity].
Defined.

Lemma rand_spline_start_edge_pinned_witness :
  0 <= 2 < 4 /\ 3 <> 1 /\
  (exists (splXY : path) (w' w0 : @world Demo.lib) (p : Z * Z) (rest : list (Z * Z)),
      rand_spline (L := Demo.lib) (10, 10) None 3 (Some 42) (EInt 2) (EInt (-2))
        Demo.w0 = Ok (splXY, w') /\
      np_seed (L := Demo.lib) (Some 42) Demo.w0 = Ok (tt, w0) /\
      random_handles (L := Demo.lib) (10, 10) 3 (EInt 2) (EInt (-2)) w0
      = Ok (p :: rest, w') /\
      resample (L := Demo.lib) (points_to_Q (p :: rest)) = Ok splXY /\
      on_edge 2 (10, 10) p) /\
  (exists (w' : @world Demo.lib) (p : Z * Z) (rest : list (Z * Z)),
      random_handles (L := Demo.lib) (10, 10) 3 (EInt 2) (EInt (-2)) Demo.w0
      = Ok (p :: rest, w') /\
      on_edge 2 (10, 10) p).
Proof.
  split; [lia |]. split; [lia |].
  destruct (rand_spline_start_edge_pinned (L := Demo.lib) (10, 10) 3 (Some 42) 2
              (EInt (-2)) Demo.w0 ltac:(lia)) as [Hpath Hstage].
  split.
  - assert (Hrun : exists splXY w',
               rand_spline (L := Demo.lib) (10, 10) None 3 (Some 42) (EInt 2)
                 (EInt (-2)) Demo.w0 = Ok (splXY, w')).
    { eexists. eexists. vm_compute. reflexivity. }
    destruct Hrun as (splXY & w' & Hrun).
    destruct (Hpath splXY w' Hrun) as (w0 & p & rest & H).
    exists splXY, w', w0, p, rest. split; [exact Hrun | exact H].
  - assert (Hrun : exists hs w',
               random_handles (L := Demo.lib) (10, 10) 3 (EInt 2) (EInt (-2))
                 Demo.w0 = Ok (hs, w')).
    { eexists. eexists. vm_compute. reflexivity. }
    destruct Hrun as (hs & w' & Hrun).
    destruct (Hstage hs w' ltac:(lia) Hrun) as (p & rest & -> & Hedge).
    exists w', p, rest. split; [exact Hrun | exact Hedge].
Defined.

(** C6, the claim as stated fails: a single supplied handle point makes the
    call end in the [ValueError] of the interpolation, not in an
    [InvalidInputError]. *)
Lemma rand_spline_single_point_not_invalid_input :
  rand_spline (L := Demo.lib) (10, 10) (Some [(1, 1)%Q]) 5 (Some 42)
    (EBool true) (EBool true) Demo.w0 = Raise ValueError /\
  rand_spline (L := Demo.lib) (10, 10) (Some [(1, 1)%Q]) 5 (Some 42)
    (EBool true) (EBool true) Demo.w0 <> Raise InvalidInputError.
Proof. split; [vm_compute; reflexivity | vm_compute; discriminate]. Qed.

Lemma rand_spline_too_few_handles_witness :
  (List.length [(1, 1)%Q] < 2)%nat /\ 0 < 2 /\
  rand_spline (L := Demo.lib) (10, 10) (Some [(1, 1)%Q]) 5 (Some 42)
    (EBool true) (EBool true) Demo.w0 = Raise ValueError /\
  rand_spline (L := Demo.lib) (10, 10) None 1 (Some 42) (EBool true)
    (EBool true) Demo.w0 = Raise ValueError /\
  exists e : exn,
    rand_spline (L := Demo.lib) (10, 10) None 0 (Some 42) (EBool true)
      (EBool true) Demo.w0 = Raise e /\
    (e = ValueError \/ e = IndexError).
Proof.
  destruct (rand_spline_too_few_handles (L := Demo.lib) (10, 10) (Some 42)
              (EBool true) (EBool true) Demo.w0) as (Hsupplied & Hone & Hfew).
  split; [simpl; lia |]. split; [lia |].
  split; [apply Hsupplied; simpl; lia |].
  split; [exact Hone |].
  apply Hfew. lia.
Defined.

(** C7, the claim as stated fails for [add_sectioning] with its default
    [randEdge = True]: the jitter is drawn from
    [[-int(width/2), int(width/2))], so the field that is thresholded changes
    with the width.  On a 6x1 image with the path at the left pixel, pixel 4
    belongs to the band at width 6 and not at width 8. *)
Lemma sectioning_band_not_monotone :
  exists (d1 d2 : raster) (reg1 reg2 : region) (w1 w2 : @world Demo.lib),
    sectioning_region (L := Demo.lib) (Demo.grey 6 1) 6 (Some 2) true
      (Some [(0, 0)%Q]) None 2 (EInt (-2)) Demo.w0 = Ok ((d1, reg1), w1) /\
    sectioning_region (L := Demo.lib) (Demo.grey 6 1) 8 (Some 2) true
      (Some [(0, 0)%Q]) None 2 (EInt (-2)) Demo.w0 = Ok ((d2, reg2), w2) /\
    cell false reg1 0 4 = true /\
    cell false reg2 0 4 = false /\
    ~ region_subset reg1 reg2.
Proof.
  do 6 eexists.
  split; [vm_compute; reflexivity |].
  split; [vm_compute; reflexivity |].
  split; [reflexivity |]. split; [reflexivity |].
  intros H. specialize (H 0 4 eq_refl). discriminate H.
Qed.

Lemma region_grows_with_width_witness :
  (2 <= 4)%Q /\
  exists (c1 c2 : triple Q) (reg1 reg2 : region) (w1 w2 : @world Demo.lib),
    marker_region (L := Demo.lib) (Demo.grey 6 4) (Some 42) 3
      (Some [(0, 0); (1, 1); (2, 2)]%Q) None 2 None ((0, 50), (0, 50), (0, 100))
      Demo.w0 = Ok ((c1, reg1), w1) /\
    marker_region (L := Demo.lib) (Demo.grey 6 4) (Some 42) 3
      (Some [(0, 0); (1, 1); (2, 2)]%Q) None 4 None ((0, 50), (0, 50), (0, 100))
      Demo.w0 = Ok ((c2, reg2), w2) /\
    region_subset reg1 reg2.
Proof.
  assert (Hle : (2 <= 4)%Q) by (unfold Qle; simpl; lia).
  split; [exact Hle |].
  do 6 eexists.
  split; [vm_compute; reflexivity |].
  split; [vm_compute; reflexivity |].
  eapply (proj1 (region_grows_with_width (L := Demo.lib) (Demo.grey 6 4) (Some 42)
                   3 (Some [(0, 0); (1, 1); (2, 2)]%Q) None 2 4 Demo.w0 Hle)
            None ((0, 50), (0, 50), (0, 100)));
    [vm_compute; reflexivity | vm_compute; reflexivity].
Defined.

(** C9, the claim as stated fails: [add_marker] indexes its mask with the
    rounded path coordinates as they are.  On a 3x3 image the sample
    [(5, 0)] addresses column 5, and the call ends in an [IndexError]. *)
Lemma marker_mask_index_out_of_bounds :
  ~ Forall (in_bounds (3, 3)) (path_index np_round [(5, 0)%Q]) /\
  add_marker (L := Demo.lib) (Demo.grey 3 3) (Some 42) 3 (Some [(5, 0)%Q]) None
    2 (3 # 4) (Some (0, 0, 255)%Q) ((0, 50), (0, 50), (0, 100)) Demo.w0
  = Raise IndexError.
Proof.
  split.
  - intros H. inversion H as [| ? ? Hb _]. subst.
    unfold in_bounds in Hb. vm_compute in Hb. destruct Hb as [_ [_ Hc]].
    discriminate Hc.
  - vm_compute. reflexivity.
Qed.

Lemma mask_indexing_bounds_witness :
  0 < 3 /\ 0 < 3 /\
  Forall (inside_image (3, 3)) [(1, 3 # 2)%Q] /\
  Exists (fun p => index_rejected 3 (np_round (snd p))
                   \/ index_rejected 3 (np_round (fst p))) [(5, 0)%Q] /\
  Forall (in_bounds (3, 3)) (tear_index (3, 3) [(5, -2); (1 # 2, 7 # 2)]%Q) /\
  (exists tearMask : raster,
      np_set_cells (3, 3) (tear_index (3, 3) [(5, -2); (1 # 2, 7 # 2)]%Q) 0%Q
        (np_ones (3, 3)) = Ok tearMask) /\
  Forall (in_bounds (3, 3)) (path_index np_round [(1, 3 # 2)%Q]) /\
  Forall (in_bounds (3, 3)) (path_index py_trunc [(1, 3 # 2)%Q]) /\
  path_mask np_round (3, 3) [(5, 0)%Q] = Raise IndexError.
Proof.
  assert (Hin : Forall (inside_image (3, 3)) [(1, 3 # 2)%Q]).
  { constructor; [| constructor]. unfold inside_image, Qle. simpl. lia. }
  assert (Hex : Exists (fun p => index_rejected 3 (np_round (snd p))
                                 \/ index_rejected 3 (np_round (fst p)))
                  [(5, 0)%Q]).
  { constructor. right. unfold index_rejected. vm_compute. right. discriminate. }
  destruct (mask_indexing_bounds (3, 3) ltac:(simpl; lia) ltac:(simpl; lia))
    as (Htear & Hpath & Hraise).
  split; [lia |]. split; [lia |]. split; [exact Hin |]. split; [exact Hex |].
  split; [apply Htear |]. split; [apply Htear |].
  split; [apply (Hpath _ Hin) |]. split; [apply (Hpath _ Hin) |].
  apply (Hraise np_round _ Hex).
Defined.


(* ========================================================================= *)
(** * Further properties *)

(* ------------------------------------------------------------------------- *)
(** ** What a mask holds after its construction *)

Lemma list_set_nth_same {A} (d v : A) :
  forall (l : list A) (i : nat), (i < List.length l)%nat -> nth i (list_set l i v) d = v.
Proof.
  induction l as [| a t IH]; intros [| i] H; simpl in *; try lia; auto.
  apply IH. lia.
Qed.

Lemma list_set_nth_other {A} (d v : A) :
  forall (l : list A) (i j : nat), i <> j -> nth j (list_set l i v) d = nth j l d.
Proof.
  induction l as [| a t IH]; intros [| i] [| j] H; simpl; auto; try lia.
Qed.

Lemma np_index_ok (n i j : Z) :
  np_index n i = Ok j -> j = wrap_index n i /\ 0 <= j < n.
Proof.
  unfold np_index, wrap_index.
  destruct ((0 <=? i) && (i <? n)) eqn:E1.
  - apply andb_true_iff in E1. rewrite Z.leb_le, Z.ltb_lt in E1.
    intros H. injection H as <-.
    destruct (i <? 0) eqn:E; [apply Z.ltb_lt in E; lia | lia].
  - destruct ((- n <=? i) && (i <? 0)) eqn:E2; [| discriminate].
    apply andb_true_iff in E2. rewrite Z.leb_le, Z.ltb_lt in E2.
    intros H. injection H as <-.
    destruct (i <? 0) eqn:E; [lia | apply Z.ltb_ge in E; lia].
Qed.

Lemma shaped_row {A} (invDim : Z * Z) (m : list (list A)) (r : Z) :
  shaped invDim m -> 0 <= r < fst invDim ->
  Z.of_nat (List.length (nth (Z.to_nat r) m [])) = snd invDim.
Proof.
  intros [Hh Hw] Hr. rewrite Forall_forall in Hw. apply Hw, nth_In. lia.
Qed.

Lemma raster_set_shaped {A} (invDim : Z * Z) (m : list (list A)) (r c : Z) (v : A) :
  shaped invDim m -> 0 <= r < fst invDim -> shaped invDim (raster_set m r c v).
Proof.
  intros Hs Hr. pose proof (shaped_row invDim m r Hs Hr) as Hrow.
  destruct Hs as [Hh Hw]. unfold raster_set, shaped.
  rewrite list_set_length. split; [exact Hh |].
  rewrite Forall_forall in *. intros row Hin.
  apply In_nth with (d := []) in Hin. destruct Hin as (j & Hj & <-).
  rewrite list_set_length in Hj.
  destruct (Nat.eq_dec (Z.to_nat r) j) as [<- | Hne].
  - rewrite list_set_nth_same by lia. rewrite list_set_length. exact Hrow.
  - rewrite list_set_nth_other by exact Hne. apply Hw, nth_In. exact Hj.
Qed.

Lemma cell_raster_set {A} (d : A) (invDim : Z * Z) (m : list (list A))
  (r c r' c' : Z) (v : A) :
  shaped invDim m -> 0 <= r < fst invDim -> 0 <= c < snd invDim ->
  0 <= r' -> 0 <= c' ->
  cell d (raster_set m r c v) r' c'
  = if (r =? r') && (c =? c') then v else cell d m r' c'.
Proof.
  intros Hs Hr Hc Hr' Hc'. pose proof (shaped_row invDim m r Hs Hr) as Hrow.
  destruct Hs as [Hh Hw]. unfold cell, raster_set.
  destruct (r =? r') eqn:Er.
  - apply Z.eqb_eq in Er. subst r'. rewrite list_set_nth_same by lia.
    destruct (c =? c') eqn:Ec; simpl.
    + apply Z.eqb_eq in Ec. subst c'. apply list_set_nth_same. lia.
    + apply Z.eqb_neq in Ec. apply list_set_nth_other. lia.
  - apply Z.eqb_neq in Er. simpl. rewrite list_set_nth_other by lia. reflexivity.
Qed.

Lemma np_set_cells_cells {A} (d v : A) (invDim : Z * Z) :
  forall (idx : list (Z * Z)) (m m' : list (list A)),
    shaped invDim m ->
    np_set_cells invDim idx v m = Ok m' ->
    shaped invDim m' /\
    forall r c : Z,
      0 <= r -> 0 <= c ->
      cell d m' r c = if addressed invDim idx r c then v else cell d m r c.
Proof.
  induction idx as [| [r0 c0] rest IH]; intros m m' Hs H; simpl in H.
  - injection H as <-. split; [exact Hs |]. intros. reflexivity.
  - unfold rbind in H.
    destruct (np_index (fst invDim) r0) as [r1 |] eqn:Er; [| discriminate].
    destruct (np_index (snd invDim) c0) as [c1 |] eqn:Ec; [| discriminate].
    apply np_index_ok in Er. destruct Er as [-> Hr1].
    apply np_index_ok in Ec. destruct Ec as [-> Hc1].
    destruct (IH _ _ (raster_set_shaped invDim m _ _ v Hs Hr1) H) as [Hs' Hcell].
    split; [exact Hs' |]. intros r c Hr Hc.
    rewrite Hcell by assumption. simpl.
    rewrite (cell_raster_set d invDim) by assumption.
    destruct (addressed invDim rest r c); [rewrite orb_true_r; reflexivity |].
    rewrite orb_false_r. reflexivity.
Qed.

Lemma np_full_shaped {A} (invDim : Z * Z) (v : A) :
  0 <= fst invDim -> 0 <= snd invDim -> shaped invDim (np_full invDim v).
Proof.
  intros Hh Hw. unfold shaped, np_full. rewrite repeat_length. split; [lia |].
  apply Forall_forall. intros row Hin. apply repeat_spec in Hin. subst row.
  rewrite repeat_length. lia.
Qed.

Lemma cell_np_full {A} (d v : A) (invDim : Z * Z) (r c : Z) :
  0 <= r < fst invDim -> 0 <= c < snd invDim -> cell d (np_full invDim v) r c = v.
Proof.
  intros Hr Hc. unfold cell, np_full.
  rewrite (nth_indep _ [] (repeat v (Z.to_nat (snd invDim))))
    by (rewrite repeat_length; lia).
  rewrite nth_repeat.
  rewrite (nth_indep _ d v) by (rewrite repeat_length; lia).
  apply nth_repeat.
Qed.

(** X1.  When the mask construction of [add_marker], [add_fold] or
    [add_sectioning] succeeds, the mask has the shape of the image, holds 0
    exactly in the cells the path addresses (a negative accepted index
    addressing the cell counted from the far side) and 1 in every other
    cell. *)
Theorem path_mask_cells :
  forall (conv : Q -> Z) (invDim : Z * Z) (sampSpl : path) (mask : raster),
    0 <= fst invDim -> 0 <= snd invDim ->
    path_mask conv invDim sampSpl = Ok mask ->
    shaped invDim mask /\
    forall r c : Z,
      0 <= r < fst invDim -> 0 <= c < snd invDim ->
      cell 1%Q mask r c
      = if addressed invDim (path_index conv sampSpl) r c then 0%Q else 1%Q.
Proof.
  intros conv invDim sampSpl mask Hh Hw H. unfold path_mask in H.
  destruct (np_set_cells_cells 1%Q 0%Q invDim _ _ _ (np_full_shaped invDim 1%Q Hh Hw) H)
    as [Hs Hcell].
  split; [exact Hs |]. intros r c Hr Hc.
  rewrite Hcell by lia. unfold np_ones. rewrite cell_np_full by assumption.
  reflexivity.
Qed.

(* ------------------------------------------------------------------------- *)
(** ** The handle points that rand_spline draws *)

Section HandlePoints.
Context {L : Library}.

(** The stages of [random_handles], read off a successful run: the two
    coordinate draws, the start-edge write on row 0, the end-edge write on
    row [nPts - 1], each with the edge number it used.  An edge number is
    forced by the argument, derived from the start edge, or drawn. *)
Lemma random_handles_stages dim nPts sE eE w hs w' :
  random_handles dim nPts sE eE w = Ok (hs, w') ->
  let startEdgeFlag := py_eq_True sE || py_in_range sE 0 4 in
  let endFlag := py_eq_True eE || py_in_range eE 0 4
                 || (py_in_range eE (-4) 0 && startEdgeFlag) in
  exists (xs ys : list Z) (w1 w2 : world) (inPts1 : list (Z * Z)) (edgeNum : Z),
    np_randint_n 0 (fst dim - 1) nPts w = Ok (xs, w1) /\
    np_randint_n 0 (snd dim - 1) nPts w1 = Ok (ys, w2) /\
    (if startEdgeFlag
     then pin_to_edge 0 edgeNum dim (combine xs ys) = Ok inPts1 /\
          (if py_in_range sE 0 4 && py_not_bool sE
           then edgeNum = py_int_of sE
           else exists g : rng, edgeNum = fst (randint1 0 4 g))
     else inPts1 = combine xs ys) /\
    (if endFlag
     then exists edgeNum' : Z,
         pin_to_edge (nPts - 1) edgeNum' dim inPts1 = Ok hs /\
         (if py_in_range eE 0 4
          then edgeNum' = py_int_of eE
          else if py_in_range eE (-4) 0 && startEdgeFlag
               then edgeNum' = (py_int_of eE + edgeNum + 4) mod 4
               else exists g : rng, edgeNum' = fst (randint1 0 4 g))
     else hs = inPts1).
Proof.
  intros H. cbv zeta. unfold random_handles in H.
  apply bind_ok in H. destruct H as (xs & w1 & Hxs & H).
  apply bind_ok in H. destruct H as (ys & w2 & Hys & H).
  apply bind_ok in H. destruct H as ([inPts1 edgeNum] & w3 & H1 & H).
  exists xs, ys, w1, w2, inPts1, edgeNum.
  split; [exact Hxs |]. split; [exact Hys |]. split.
  - destruct (py_eq_True sE || py_in_range sE 0 4).
    + apply bind_ok in H1. destruct H1 as (e0 & w4 & He0 & H1).
      apply bind_ok in H1. destruct H1 as (inPts' & w5 & Hpin & H1).
      apply lift_ok in Hpin. destruct Hpin as [Hpin _].
      apply ret_ok in H1. destruct H1 as [H1 _]. injection H1 as -> ->.
      split; [exact Hpin |].
      destruct (py_in_range sE 0 4 && py_not_bool sE).
      * apply ret_ok in He0. destruct He0 as [-> _]. reflexivity.
      * unfold np_randint in He0. simpl in He0. rewrite draw_ok in He0.
        injection He0 as <- _. eauto.
    + apply ret_ok in H1. destruct H1 as [H1 _]. injection H1 as -> _.
      reflexivity.
  - match type of H with (if ?c then _ else _) _ = _ => destruct c end.
    + apply bind_ok in H. destruct H as (e1 & w6 & He1 & H).
      apply lift_ok in H. destruct H as [H _].
      exists e1. split; [exact H |].
      destruct (py_in_range eE 0 4).
      * apply ret_ok in He1. destruct He1 as [-> _]. reflexivity.
      * match type of He1 with (if ?c then _ else _) _ = _ => destruct c end.
        -- apply ret_ok in He1. destruct He1 as [-> _]. reflexivity.
        -- unfold np_randint in He1. simpl in He1. rewrite draw_ok in He1.
           injection He1 as <- _. eauto.
    + apply ret_ok in H. destruct H as [-> _]. reflexivity.
Qed.

Lemma pin_to_edge_ok row edgeNum dim inPts out :
  pin_to_edge row edgeNum dim inPts = Ok out ->
  let i := wrap_index (Z.of_nat (List.length inPts)) row in
  0 <= i < Z.of_nat (List.length inPts) /\
  out = list_set inPts (Z.to_nat i)
          (set_coord (nth (Z.to_nat i) inPts (0, 0)) (LR_v_TB edgeNum)
             (LT_V_RB edgeNum * (dim_at dim (LR_v_TB edgeNum) - 1))).
Proof.
  unfold pin_to_edge, rbind.
  destruct (np_index (Z.of_nat (List.length inPts)) row) as [i |] eqn:E;
    [| discriminate].
  apply np_index_ok in E. destruct E as [-> Hi].
  intros H. injection H as <-. cbv zeta. split; [exact Hi | reflexivity].
Qed.

Lemma last_list_set {A} (d v : A) :
  forall l : list A,
    l <> [] -> last (list_set l (List.length l - 1) v) d = v.
Proof.
  induction l as [| a t IH]; intros H; [contradiction |].
  destruct t as [| b t']; [reflexivity |].
  simpl List.length. replace (S (S (List.length t')) - 1)%nat
    with (S (List.length (b :: t') - 1)) by (simpl; lia).
  change (list_set (a :: b :: t') (S (List.length (b :: t') - 1)) v)
    with (a :: list_set (b :: t') (List.length (b :: t') - 1) v).
  specialize (IH ltac:(discriminate)).
  remember (list_set (b :: t') (List.length (b :: t') - 1) v) as u eqn:Hu.
  destruct u as [| c u'].
  - simpl in Hu. destruct (List.length t' - 0)%nat; discriminate.
  - exact IH.
Qed.

Lemma start_stage_length dim sE (xs ys : list Z) inPts1 edgeNum :
  (if py_eq_True sE || py_in_range sE 0 4
   then pin_to_edge 0 edgeNum dim (combine xs ys) = Ok inPts1 /\
        (if py_in_range sE 0 4 && py_not_bool sE
         then edgeNum = py_int_of sE
         else exists g : rng, edgeNum = fst (randint1 0 4 g))
   else inPts1 = combine xs ys) ->
  List.length inPts1 = List.length (combine xs ys).
Proof.
  destruct (py_eq_True sE || py_in_range sE 0 4).
  - intros [H _]. eapply pin_to_edge_length. exact H.
  - intros ->. reflexivity.
Qed.

(** X2.  An end edge given as an absolute value - an int 0..3, or a bool,
    which [endEdge in range(0, 4)] reads as 1 or 0 - pins the last handle
    point to exactly that edge: [endEdge = True] always means the top edge
    and [endEdge = False] the left edge; the random choice of line 67 is
    never reached for them. *)
Theorem random_handles_end_edge_pinned :
  forall (dim : Z * Z) (nPts : Z) (startEdge endEdge : edge_opt)
         (w : world) (hs : list (Z * Z)) (w' : world),
    0 <= py_int_of endEdge < 4 ->
    random_handles dim nPts startEdge endEdge w = Ok (hs, w') ->
    hs <> [] /\ on_edge (py_int_of endEdge) dim (last hs (0, 0)).
Proof.
  intros dim nPts sE eE w hs w' HE H.
  pose proof (random_handles_length _ _ _ _ _ _ _ H) as [_ Hlen].
  destruct (random_handles_stages _ _ _ _ _ _ _ H)
    as (xs & ys & w1 & w2 & inPts1 & edgeNum & _ & _ & Hstart & Hend).
  assert (Hr : py_in_range eE 0 4 = true).
  { unfold py_in_range. apply andb_true_iff. rewrite Z.leb_le, Z.ltb_lt. lia. }
  rewrite Hr, orb_true_r in Hend. simpl in Hend.
  destruct Hend as (e1 & Hpin & ->).
  pose proof (pin_to_edge_length _ _ _ _ _ Hpin) as Hl.
  apply pin_to_edge_ok in Hpin. cbv zeta in Hpin. destruct Hpin as [Hi Hout].
  assert (Hne : inPts1 <> []) by (intros ->; simpl in Hi; lia).
  split; [intros ->; destruct inPts1; [contradiction | discriminate] |].
  assert (Hidx : Z.to_nat (wrap_index (Z.of_nat (List.length inPts1)) (nPts - 1))
                 = (List.length inPts1 - 1)%nat).
  { unfold wrap_index in *.
    destruct (nPts - 1 <? 0) eqn:E; [apply Z.ltb_lt in E | apply Z.ltb_ge in E]; lia. }
  rewrite Hidx in Hout. rewrite Hout, last_list_set by exact Hne.
  apply set_coord_on_edge. exact HE.
Qed.

(** X3.  An end edge given relative to a forced start edge [E] (a value
    -4..-1) pins the last handle point to edge [(endEdge + E + 4) mod 4]:
    -2 is the opposite side, -4 the same side. *)
Theorem random_handles_relative_end_edge :
  forall (dim : Z * Z) (nPts E r : Z) (w : world) (hs : list (Z * Z)) (w' : world),
    0 <= E < 4 -> -4 <= r < 0 ->
    random_handles dim nPts (EInt E) (EInt r) w = Ok (hs, w') ->
    hs <> [] /\ on_edge ((r + E + 4) mod 4) dim (last hs (0, 0)).
Proof.
  intros dim nPts E r w hs w' HE Hrel H.
  pose proof (random_handles_length _ _ _ _ _ _ _ H) as [_ Hlen].
  destruct (random_handles_stages _ _ _ _ _ _ _ H)
    as (xs & ys & w1 & w2 & inPts1 & edgeNum & _ & _ & Hstart & Hend).
  assert (Hs : py_in_range (EInt E) 0 4 = true).
  { unfold py_in_range. simpl. apply andb_true_iff. rewrite Z.leb_le, Z.ltb_lt. lia. }
  assert (Hr0 : py_in_range (EInt r) 0 4 = false).
  { unfold py_in_range. simpl. apply andb_false_iff. left. apply Z.leb_gt. lia. }
  assert (Hr1 : py_in_range (EInt r) (-4) 0 = true).
  { unfold py_in_range. simpl. apply andb_true_iff. rewrite Z.leb_le, Z.ltb_lt. lia. }
  rewrite Hs, orb_true_r in Hstart. cbn [py_not_bool andb py_int_of] in Hstart.
  destruct Hstart as [_ ->].
  rewrite Hs, Hr0, Hr1 in Hend. rewrite ?orb_true_r in Hend.
  cbn [andb orb py_int_of] in Hend. rewrite ?orb_true_r in Hend.
  destruct Hend as (e1 & Hpin & ->).
  pose proof (pin_to_edge_length _ _ _ _ _ Hpin) as Hl.
  apply pin_to_edge_ok in Hpin. cbv zeta in Hpin. destruct Hpin as [Hi Hout].
  assert (Hne : inPts1 <> []) by (intros ->; simpl in Hi; lia).
  split; [intros ->; destruct inPts1; [contradiction | discriminate] |].
  assert (Hidx : Z.to_nat (wrap_index (Z.of_nat (List.length inPts1)) (nPts - 1))
                 = (List.length inPts1 - 1)%nat).
  { unfold wrap_index in *.
    destruct (nPts - 1 <? 0) eqn:E0; [apply Z.ltb_lt in E0 | apply Z.ltb_ge in E0]; lia. }
  rewrite Hidx in Hout. rewrite Hout, last_list_set by exact Hne.
  apply set_coord_on_edge. apply Z.mod_pos_bound. lia.
Qed.
End HandlePoints.

Section HandlePointsInRange.
Context {L : Library}.
Hypothesis randint_contract : randint_in_range L.

Lemma repeatM_draw_forall {A} (f : rng -> A * rng) (P : A -> Prop) :
  (forall g, P (fst (f g))) ->
  forall (n : nat) (w : world) (l : list A) (w' : world),
    repeatM n (draw f) w = Ok (l, w') -> Forall P l.
Proof.
  intros Hf. induction n as [| n IH]; intros w l w' H; simpl in H.
  - apply ret_ok in H. destruct H as [-> _]. constructor.
  - apply bind_ok in H. destruct H as (a & w1 & Ha & H).
    apply bind_ok in H. destruct H as (rest & w2 & Hrest & H).
    apply ret_ok in H. destruct H as [-> _].
    rewrite draw_ok in Ha. injection Ha as <- _.
    constructor; [apply Hf | eapply IH; exact Hrest].
Qed.

Lemma np_randint_n_range low high count w l w' :
  np_randint_n low high count w = Ok (l, w') ->
  low < high /\ Forall (fun v => low <= v < high) l.
Proof.
  unfold np_randint_n. destruct (low <? high) eqn:E; [| discriminate].
  apply Z.ltb_lt in E. destruct (count <? 0); [discriminate |].
  intros H. split; [exact E |].
  eapply repeatM_draw_forall; [| exact H].
  intros g. apply randint_contract. exact E.
Qed.

Lemma Forall_combine_inside (dim : Z * Z) :
  forall xs ys : list Z,
    Forall (fun v => 0 <= v < fst dim - 1) xs ->
    Forall (fun v => 0 <= v < snd dim - 1) ys ->
    Forall (handle_inside dim) (combine xs ys).
Proof.
  induction xs as [| x xs IH]; intros ys Hx Hy; simpl; [constructor |].
  destruct ys as [| y ys]; [constructor |].
  inversion Hx; subst. inversion Hy; subst.
  constructor; [unfold handle_inside; simpl; lia | apply IH; assumption].
Qed.

Lemma list_set_Forall {A} (P : A -> Prop) (v : A) :
  forall (l : list A) (i : nat), Forall P l -> P v -> Forall P (list_set l i v).
Proof.
  induction l as [| a t IH]; intros [| i] Hl Hv; simpl; try constructor;
    inversion Hl; subst; auto.
Qed.

Lemma set_coord_inside (dim p : Z * Z) (e : Z) :
  1 <= fst dim -> 1 <= snd dim -> 0 <= e < 4 -> handle_inside dim p ->
  handle_inside dim
    (set_coord p (LR_v_TB e) (LT_V_RB e * (dim_at dim (LR_v_TB e) - 1))).
Proof.
  intros Hw Hh He [Hx Hy].
  assert (C : e = 0 \/ e = 1 \/ e = 2 \/ e = 3) by lia.
  destruct C as [-> | [-> | [-> | ->]]];
    cbv [LR_v_TB LT_V_RB dim_at set_coord handle_inside]; simpl;
    repeat split; try lia;
    try (destruct (fst dim - 1); lia); try (destruct (snd dim - 1); lia).
Qed.

Lemma pin_to_edge_inside row e dim inPts out :
  1 <= fst dim -> 1 <= snd dim -> 0 <= e < 4 ->
  Forall (handle_inside dim) inPts ->
  pin_to_edge row e dim inPts = Ok out ->
  Forall (handle_inside dim) out.
Proof.
  intros Hw Hh He Hin H. apply pin_to_edge_ok in H. cbv zeta in H.
  destruct H as [Hi ->].
  apply list_set_Forall; [exact Hin |].
  apply set_coord_inside; try assumption.
  rewrite Forall_forall in Hin. apply Hin, nth_In. lia.
Qed.

Lemma in_range_bounds (e : edge_opt) :
  py_in_range e 0 4 = true -> 0 <= py_int_of e < 4.
Proof.
  unfold py_in_range. rewrite andb_true_iff, Z.leb_le, Z.ltb_lt. tauto.
Qed.

(** The edge numbers of a successful run lie in 0..3. *)
Lemma random_handles_edge_numbers dim sE (xs ys : list Z) inPts1 edgeNum :
  (if py_eq_True sE || py_in_range sE 0 4
   then pin_to_edge 0 edgeNum dim (combine xs ys) = Ok inPts1 /\
        (if py_in_range sE 0 4 && py_not_bool sE
         then edgeNum = py_int_of sE
         else exists g : rng, edgeNum = fst (randint1 0 4 g))
   else inPts1 = combine xs ys) ->
  py_eq_True sE || py_in_range sE 0 4 = true -> 0 <= edgeNum < 4.
Proof.
  intros H Hflag. rewrite Hflag in H. destruct H as [_ H].
  destruct (py_in_range sE 0 4) eqn:Er; simpl in H.
  - destruct (py_not_bool sE).
    + subst. apply in_range_bounds, Er.
    + destruct H as [g ->]. apply randint_contract. lia.
  - destruct H as [g ->]. apply randint_contract. lia.
Qed.

(** X4.  Every handle point that [rand_spline] draws lies inside the image,
    the pinned ones on its border: all coordinates are within
    [[0, width - 1]] and [[0, height - 1]], whatever the edge arguments. *)
Theorem random_handles_inside_image :
  forall (dim : Z * Z) (nPts : Z) (startEdge endEdge : edge_opt)
         (w : world) (hs : list (Z * Z)) (w' : world),
    random_handles dim nPts startEdge endEdge w = Ok (hs, w') ->
    Forall (handle_inside dim) hs.
Proof.
  intros dim nPts sE eE w hs w' H.
  destruct (random_handles_stages _ _ _ _ _ _ _ H)
    as (xs & ys & w1 & w2 & inPts1 & edgeNum & Hxs & Hys & Hstart & Hend).
  apply np_randint_n_range in Hxs. destruct Hxs as [Hw Hxs].
  apply np_randint_n_range in Hys. destruct Hys as [Hh Hys].
  pose proof (Forall_combine_inside dim xs ys Hxs Hys) as Hin.
  pose proof (random_handles_edge_numbers dim sE xs ys inPts1 edgeNum Hstart)
    as Hnum.
  assert (Hin1 : Forall (handle_inside dim) inPts1).
  { destruct (py_eq_True sE || py_in_range sE 0 4).
    - destruct Hstart as [Hpin _].
      eapply pin_to_edge_inside; [lia | lia | apply Hnum; reflexivity | exact Hin
                                 | exact Hpin].
    - subst. exact Hin. }
  destruct (py_eq_True sE || py_in_range sE 0 4) eqn:Hflag.
  - specialize (Hnum eq_refl). rewrite andb_true_r in Hend.
    match type of Hend with (if ?c then _ else _) => destruct c end;
      [| subst; exact Hin1].
    destruct Hend as (e1 & Hpin & He1).
    eapply pin_to_edge_inside; [lia | lia | | exact Hin1 | exact Hpin].
    destruct (py_in_range eE 0 4) eqn:Er.
    + subst. apply in_range_bounds, Er.
    + destruct (py_in_range eE (-4) 0).
      * subst. apply Z.mod_pos_bound. lia.
      * destruct He1 as [g ->]. apply randint_contract. lia.
  - rewrite andb_false_r, orb_false_r in Hend.
    match type of Hend with (if ?c then _ else _) => destruct c end;
      [| subst; exact Hin1].
    destruct Hend as (e1 & Hpin & He1).
    eapply pin_to_edge_inside; [lia | lia | | exact Hin1 | exact Hpin].
    destruct (py_in_range eE 0 4) eqn:Er.
    + subst. apply in_range_bounds, Er.
    + destruct He1 as [g ->]. apply randint_contract. lia.
Qed.

Lemma on_edge_some (e : Z) (dim p : Z * Z) :
  0 <= e < 4 -> on_edge e dim p -> on_some_edge dim p.
Proof.
  intros He (H0 & H1 & H2 & H3). unfold on_some_edge.
  assert (C : e = 0 \/ e = 1 \/ e = 2 \/ e = 3) by lia.
  destruct C as [-> | [-> | [-> | ->]]]; auto.
Qed.

(** X5.  [startEdge = False] does not switch the start edge off: [False] is
    in [range(0, 4)], so for either bool the first handle point is written
    onto one of the four edges, drawn at random (for any number of handle
    points but one). *)
Theorem random_handles_bool_start_edge :
  forall (dim : Z * Z) (nPts : Z) (b : bool) (endEdge : edge_opt)
         (w : world) (hs : list (Z * Z)) (w' : world),
    nPts <> 1 ->
    random_handles dim nPts (EBool b) endEdge w = Ok (hs, w') ->
    exists (p : Z * Z) (rest : list (Z * Z)),
      hs = p :: rest /\ on_some_edge dim p.
Proof.
  intros dim nPts b eE w hs w' Hn H.
  pose proof (random_handles_length _ _ _ _ _ _ _ H) as [Hn0 Hlen].
  destruct (random_handles_stages _ _ _ _ _ _ _ H)
    as (xs & ys & w1 & w2 & inPts1 & edgeNum & _ & _ & Hstart & Hend).
  pose proof (random_handles_edge_numbers dim (EBool b) xs ys inPts1 edgeNum
                Hstart) as Hnum.
  assert (Hflag : py_eq_True (EBool b) || py_in_range (EBool b) 0 4 = true)
    by (destruct b; reflexivity).
  specialize (Hnum Hflag). rewrite Hflag in Hstart, Hend.
  destruct Hstart as [Hpin0 _].
  pose proof (pin_to_edge_length _ _ _ _ _ Hpin0) as Hl0.
  apply pin_to_edge_ok in Hpin0. cbv zeta in Hpin0. destruct Hpin0 as [Hi0 Hout0].
  destruct (combine xs ys) as [| a t] eqn:Hc; [simpl in Hi0; unfold wrap_index in Hi0; simpl in Hi0; lia |].
  unfold wrap_index in Hout0. simpl in Hout0.
  assert (Hedge : on_some_edge dim
                    (set_coord a (LR_v_TB edgeNum)
                       (LT_V_RB edgeNum * (dim_at dim (LR_v_TB edgeNum) - 1)))).
  { eapply on_edge_some; [exact Hnum | apply set_coord_on_edge; exact Hnum]. }
  match type of Hend with (if ?c then _ else _) => destruct c end.
  - destruct Hend as (e1 & Hpin & _).
    pose proof (pin_to_edge_length _ _ _ _ _ Hpin) as Hl1.
    subst inPts1. apply pin_later in Hpin.
    + destruct Hpin as [t' ->]. eauto.
    + simpl in Hl1. lia.
  - subst. eauto.
Qed.
End HandlePointsInRange.

(* ------------------------------------------------------------------------- *)
(** ** The layers of add_fold *)

Section FoldLayers.
Context {L : Library}.

Lemma np_seed_ok_accepted (seed : option Z) (w w' : world) :
  np_seed seed w = Ok (tt, w') -> seed_accepted seed.
Proof.
  destruct seed as [s |]; simpl; [| auto].
  destruct (seed_ok s) eqn:E; [| discriminate].
  intros _. apply seed_ok_iff. exact E.
Qed.

Lemma add_fold_layers_seeds :
  forall (fuel : nat) inputIm sampArr sampSpl inPts (s : Z) scaleXY width
         sampShiftXY randEdge nLayers nPts endEdge w r,
    add_fold_layers fuel inputIm sampArr sampSpl inPts (Some s) scaleXY width
      sampShiftXY randEdge nLayers nPts endEdge w = Ok r ->
    0 <= s /\ s + Z.max 1 nLayers - 1 <= 2 ^ 32 - 1.
Proof.
  induction fuel as [| fuel IH]; intros inputIm sampArr sampSpl inPts s scaleXY
    width sampShiftXY randEdge nLayers nPts endEdge w r H; simpl in H;
    apply bind_ok in H; destruct H as ([] & w0 & Hseed & H);
    apply np_seed_ok_accepted in Hseed; simpl in Hseed;
    (destruct (nLayers <? 1) eqn:E1;
     [apply Z.ltb_lt in E1; lia | apply Z.ltb_ge in E1]);
    apply bind_ok in H; destruct H as ([[comp_im sa] sp] & w1 & _ & H);
    (destruct (1 <? nLayers) eqn:E2;
     [apply Z.ltb_lt in E2 | apply Z.ltb_ge in E2; lia]);
    apply bind_ok in H; destruct H as (seed' & w2 & Hs' & H);
    apply lift_ok in Hs'; destruct Hs' as [Hs' _]; simpl in Hs';
    injection Hs' as <-.
  - discriminate.
  - apply IH in H. lia.
Qed.

(** X6.  Layer [k] of a fold is seeded with [random_seed + k - 1], and each
    of these seeds goes through [np.random.seed]: [add_fold] returns an image
    only if the seed is non-negative and the seed of its last layer,
    [random_seed + nLayers - 1], is still at most 2^32 - 1. *)
Theorem add_fold_returns_only_with_accepted_seeds :
  forall inputIm sampArr sampSpl inPts (s : Z) scaleXY width sampShiftXY
         randEdge nLayers nPts endEdge w r,
    add_fold inputIm sampArr sampSpl inPts (Some s) scaleXY width sampShiftXY
      randEdge nLayers nPts endEdge w = Ok r ->
    0 <= s /\ s + Z.max 1 nLayers - 1 <= 2 ^ 32 - 1.
Proof.
  intros until r. unfold add_fold. apply add_fold_layers_seeds.
Qed.


Lemma py_trunc_below_one (q : Q) : (q < 1)%Q -> py_trunc q <= 0.
Proof.
  intros H1. unfold py_trunc. destruct (Qle_bool 0 q) eqn:E.
  - apply Z.lt_succ_r. apply Z.lt_nge. intros Hge.
    assert (Hq : (inject_Z 1 <= q)%Q).
    { eapply Qle_trans; [| apply Qfloor_le]. rewrite <- Zle_Qle. simpl in Hge. exact Hge. }
    apply (Qlt_not_le _ _ H1). exact Hq.
  - assert (Hneg : (q <= inject_Z 0)%Q).
    { apply Qlt_le_weak. apply Qnot_le_lt. intros Hc.
      change (inject_Z 0) with 0%Q in Hc. apply Qle_bool_iff in Hc. congruence. }
    change 0 with (Qceiling (inject_Z 0)). apply Qceiling_resp_le. exact Hneg.
Qed.

Lemma quarter_below_one (q : Q) : (q < 4)%Q -> (q / 4 < 1)%Q.
Proof.
  intros H. apply Qlt_shift_div_r; [reflexivity |]. lra.
Qed.

Lemma rescaled_box_size (x0 y0 x1 y1 : Q) (scaleXY : Q * Q) :
  let box := rescaled_box ((x0, y0), (x1, y1)) scaleXY in
  (fst (snd box) - fst (fst box) == (x1 - x0) * fst scaleXY)%Q /\
  (snd (snd box) - snd (fst box) == (y1 - y0) * snd scaleXY)%Q.
Proof.
  unfold rescaled_box. simpl. split; field.
Qed.

Lemma np_randint_n_empty_range (low high count : Z) (w : world) :
  high <= low -> np_randint_n low high count w = Raise ValueError.
Proof.
  intros H. unfold np_randint_n.
  destruct (low <? high) eqn:E; [apply Z.ltb_lt in E; lia | reflexivity].
Qed.

Lemma py_trunc_comp (p q : Q) : (p == q)%Q -> py_trunc p = py_trunc q.
Proof.
  intros H. unfold py_trunc.
  assert (Hb : Qle_bool 0 p = Qle_bool 0 q).
  { destruct (Qle_bool 0 p) eqn:E1, (Qle_bool 0 q) eqn:E2; try reflexivity.
    - apply Qle_bool_iff in E1. rewrite H in E1. apply Qle_bool_iff in E1. congruence.
    - apply Qle_bool_iff in E2. rewrite <- H in E2. apply Qle_bool_iff in E2. congruence. }
  rewrite Hb. destruct (Qle_bool 0 q); [apply Qfloor_comp | apply Qceiling_comp];
    exact H.
Qed.

End FoldLayers.

(* ------------------------------------------------------------------------- *)
(** ** Images too small for a random path *)

Section SmallImages.
Context {L : Library}.

Lemma bind_all_raise {A B} (m : M A) (k : A -> M B) (w : world) (e : exn) :
  (forall e', m w = Raise e' -> e' = e) ->
  (forall a w1, m w = Ok (a, w1) -> k a w1 = Raise e) ->
  bind m k w = Raise e.
Proof.
  intros Hr Hk. destruct (m w) as [[a w1] | e'] eqn:E.
  - rewrite (bind_eq_ok _ _ _ _ _ E). apply Hk. reflexivity.
  - rewrite (bind_eq_raise _ _ _ _ E). f_equal. apply Hr. reflexivity.
Qed.

Lemma random_handles_small_image dim nPts sE eE (w : world) :
  fst dim <= 1 \/ snd dim <= 1 ->
  random_handles dim nPts sE eE w = Raise ValueError.
Proof.
  intros Hdim. unfold random_handles.
  apply bind_all_raise.
  - intros e' H. eapply np_randint_n_raise. exact H.
  - intros xs w1 Hxs. destruct Hdim as [Hx | Hy].
    + rewrite np_randint_n_empty_range in Hxs by lia. discriminate.
    + apply bind_eq_raise. apply np_randint_n_empty_range. lia.
Qed.

Lemma rand_spline_small_image dim nPts seed sE eE (w : world) :
  fst dim <= 1 \/ snd dim <= 1 ->
  rand_spline dim None nPts seed sE eE w = Raise ValueError.
Proof.
  intros Hdim. unfold rand_spline.
  apply bind_all_raise.
  - intros e' H. eapply np_seed_raises. exact H.
  - intros [] w1 _. apply bind_eq_raise. apply bind_eq_raise.
    apply random_handles_small_image. exact Hdim.
Qed.

End SmallImages.

(* ------------------------------------------------------------------------- *)
(** ** The multiplier of add_sectioning *)

Lemma np_interp01_bounds (lo hi x : Q) :
  (lo <= hi)%Q -> (lo <= np_interp01 lo hi x <= hi)%Q.
Proof.
  intros H. unfold np_interp01.
  destruct (Qle_bool x 0) eqn:E0; [lra |].
  destruct (Qle_bool 1 x) eqn:E1; [lra |].
  apply Qle_bool_false in E0. apply Qle_bool_false in E1.
  assert (H0 : (0 <= (hi - lo) * x)%Q) by (apply Qmult_le_0_compat; lra).
  assert (H1 : (0 <= (hi - lo) * (1 - x))%Q) by (apply Qmult_le_0_compat; lra).
  split; [lra |].
  assert (E : ((hi - lo) * (1 - x) == (hi - lo) - (hi - lo) * x)%Q) by ring.
  rewrite E in H1. lra.
Qed.

Lemma half_sum (a b : Q) : ((a + b) / 2 == (1 # 2) * a + (1 # 2) * b)%Q.
Proof. field. Qed.

Lemma Forall_zip_with {A B C} (f : A -> B -> C) (P : A -> Prop) (R : C -> Prop) :
  (forall a b, P a -> R (f a b)) ->
  forall l1 l2, Forall P l1 -> Forall R (zip_with f l1 l2).
Proof.
  intros Hf. induction l1 as [| a t IH]; intros l2 Hl; [constructor |].
  destruct l2 as [| b t2]; [constructor |]. simpl.
  inversion Hl; subst. constructor; [apply Hf; assumption | apply IH; assumption].
Qed.

Lemma Forall_zip_with_r {A B C} (f : A -> B -> C) (P : B -> Prop) (R : C -> Prop) :
  (forall a b, P b -> R (f a b)) ->
  forall l1 l2, Forall P l2 -> Forall R (zip_with f l1 l2).
Proof.
  intros Hf. induction l1 as [| a t IH]; intros l2 Hl; [constructor |].
  destruct l2 as [| b t2]; [constructor |]. simpl.
  inversion Hl; subst. constructor; [apply Hf; assumption | apply IH; assumption].
Qed.

Lemma all_cells_raster_zip_r {A B C} (f : A -> B -> C) (P : B -> Prop)
  (R : C -> Prop) (m1 : list (list A)) (m2 : list (list B)) :
  (forall a b, P b -> R (f a b)) ->
  all_cells P m2 -> all_cells R (raster_zip f m1 m2).
Proof.
  intros Hf H. unfold all_cells, raster_zip.
  apply (Forall_zip_with_r (zip_with f) (Forall P) (Forall R)); [| exact H].
  intros a b Hb. apply Forall_zip_with_r with (P := P); assumption.
Qed.

Lemma all_cells_raster_map {A B} (f : A -> B) (R : B -> Prop) (m : list (list A)) :
  (forall a, R (f a)) -> all_cells R (raster_map f m).
Proof.
  intros Hf. unfold all_cells, raster_map.
  apply Forall_forall. intros row Hrow. apply in_map_iff in Hrow.
  destruct Hrow as (r & <- & _). apply Forall_forall. intros b Hb.
  apply in_map_iff in Hb. destruct Hb as (a & <- & _). apply Hf.
Qed.

Lemma all_cells_raster_zip {A B C} (f : A -> B -> C) (P : A -> Prop)
  (R : C -> Prop) (m1 : list (list A)) (m2 : list (list B)) :
  (forall a b, P a -> R (f a b)) ->
  all_cells P m1 -> all_cells R (raster_zip f m1 m2).
Proof.
  intros Hf H. unfold all_cells, raster_zip.
  apply (Forall_zip_with (zip_with f) (Forall P) (Forall R)); [| exact H].
  intros a b Ha. apply Forall_zip_with with (P := P); assumption.
Qed.

Section SectioningMultiplier.
Context {L : Library}.
Hypothesis uniform_contract : uniform_in_range L.

Lemma np_uniform_range (low high : Q) (w : world) (u : Q) (w' : world) :
  (low <= high)%Q -> np_uniform low high w = Ok (u, w') -> (low <= u <= high)%Q.
Proof.
  intros Hle H. unfold np_uniform, draw in H.
  pose proof (uniform_contract low high (gen w) Hle) as Hc.
  destruct (uniform1 low high (gen w)) as [a g]. injection H as <- _. exact Hc.
Qed.

End SectioningMultiplier.

(* ------------------------------------------------------------------------- *)
(** ** add_bubbles without bubbles *)

Section NoBubbles.
Context {L : Library}.

Lemma all_cells_np_full {A} (P : A -> Prop) (invDim : Z * Z) (v : A) :
  P v -> all_cells P (np_full invDim v).
Proof.
  intros Hv. unfold all_cells, np_full.
  apply Forall_forall. intros row Hrow. apply repeat_spec in Hrow. subst row.
  apply Forall_forall. intros x Hx. apply repeat_spec in Hx. subst x. exact Hv.
Qed.

Lemma all_cells_map_impl {A B} (f : A -> B) (P : A -> Prop) (R : B -> Prop)
  (m : list (list A)) :
  (forall a, P a -> R (f a)) -> all_cells P m -> all_cells R (raster_map f m).
Proof.
  intros Hf H. unfold all_cells, raster_map in *.
  apply Forall_map. eapply Forall_impl; [| exact H].
  intros row Hrow. apply Forall_map. eapply Forall_impl; [| exact Hrow].
  exact Hf.
Qed.

Lemma rand_gauss_no_centres dim maxCov seed zeroToOne minMaxX minMaxY
  minCovScale minDiagCovScale maxCrCovScale (w : world) :
  seed_accepted seed ->
  exists w',
    rand_gauss dim 0 maxCov seed None zeroToOne minMaxX minMaxY minCovScale
      minDiagCovScale maxCrCovScale w
    = Ok (raster_map (fun v => v * maxCov)%Q (np_full (snd dim, fst dim) 0%Q), w').
Proof.
  intros Hs. destruct (np_seed_accepted seed w Hs) as [w1 H1].
  exists w1. unfold rand_gauss. rewrite (bind_eq_ok _ _ _ _ _ H1). reflexivity.
Qed.

(** X11.  With [nBubbles = 0] no centre is drawn and the loop over the
    Gaussians does not run: the summed field of [rand_gauss] is zero
    everywhere, so the bubble region ([sumMap >= 1]) and its edge are empty,
    whatever the image and the other parameters, and the image is composed
    with these two empty regions.  A negative [nBubbles] is refused by the
    draw of the centres with a [ValueError]. *)
Theorem add_bubbles_without_bubbles :
  forall inputIm random_seed maxWidth alpha edgeWidth edgeColorMult rgbVal w,
    seed_accepted random_seed ->
    (exists bwReg edgeArea w',
        add_bubbles inputIm random_seed 0 maxWidth alpha edgeWidth edgeColorMult
          rgbVal w
        = Ok (bubbles_composite inputIm bwReg edgeArea alpha edgeColorMult rgbVal,
              w') /\
        all_cells (fun b => b = false) bwReg /\
        all_cells (fun b => b = false) edgeArea) /\
    (forall nBubbles, nBubbles < 0 ->
        add_bubbles inputIm random_seed nBubbles maxWidth alpha edgeWidth
          edgeColorMult rgbVal w = Raise ValueError).
Proof.
  intros inputIm random_seed maxWidth alpha edgeWidth edgeColorMult rgbVal w Hs.
  split.
  - destruct (np_seed_accepted random_seed w Hs) as [w1 H1].
    destruct (rand_gauss_no_centres (im_size inputIm) maxWidth random_seed false
                None None (1 # 10) (1 # 4) (7 # 10) w1 Hs) as [w2 H2].
    assert (Hreg : all_cells (fun b => b = false)
                     (raster_map (fun v => Qle_bool 1 v)
                        (raster_map (fun v => (v * maxWidth)%Q)
                           (np_full (snd (im_size inputIm), fst (im_size inputIm))
                              0%Q)))).
    { apply all_cells_map_impl with (P := fun v => (v == 0)%Q).
      - intros a Ha. destruct (Qle_bool 1 a) eqn:E; [| reflexivity].
        apply Qle_bool_iff in E. rewrite Ha in E. lra.
      - apply all_cells_map_impl with (P := fun v => (v == 0)%Q).
        + intros a Ha. rewrite Ha. ring.
        + apply all_cells_np_full. reflexivity. }
    unfold add_bubbles. rewrite (bind_eq_ok _ _ _ _ _ H1).
    rewrite (bind_eq_ok _ _ _ _ _ H2). unfold ret.
    eexists _, _, _. split; [reflexivity |]. split; [exact Hreg |].
    apply all_cells_raster_zip_r with (P := fun b : bool => b = false);
      [| exact Hreg].
    intros a b ->. apply andb_false_r.
  - intros nBubbles Hn. unfold add_bubbles, rand_gauss.
    apply bind_all_raise.
    + intros e' H. eapply np_seed_raises. exact H.
    + intros [] w1 _. apply bind_eq_raise. apply bind_all_raise.
      * intros e' H. eapply np_seed_raises. exact H.
      * intros [] w2 _. apply bind_eq_raise. apply bind_eq_raise.
        unfold np_uniform_n.
        assert (E : (nBubbles <? 0) = true) by (apply Z.ltb_lt; lia).
        rewrite E. reflexivity.
Qed.
End NoBubbles.

(* ------------------------------------------------------------------------- *)
(** ** add_tear on a path without a segment *)

Section ShortTearPath.
Context {L : Library}.

Lemma bind_total_raise {A B} (m : M A) (k : A -> M B) (w : world) (e : exn) :
  (forall e', m w = Raise e' -> False) ->
  (forall a w1, m w = Ok (a, w1) -> k a w1 = Raise e) ->
  bind m k w = Raise e.
Proof.
  intros Hr Hk. destruct (m w) as [[a w1] | e'] eqn:E.
  - rewrite (bind_eq_ok _ _ _ _ _ E). apply Hk. reflexivity.
  - exfalso. eapply Hr. reflexivity.
Qed.

Lemma np_uniform_raise (low high : Q) (w : world) (e : exn) :
  np_uniform low high w = Raise e -> False.
Proof. apply draw_raise. Qed.

Lemma np_uniform_n_raise (low high : Q) (count : Z) (w : world) (e : exn) :
  0 <= count -> np_uniform_n low high count w = Raise e -> False.
Proof.
  intros Hc. unfold np_uniform_n.
  destruct (count <? 0) eqn:E; [apply Z.ltb_lt in E; lia |].
  apply repeatM_draw_raise.
Qed.

Lemma np_seed_accepted_raise (seed : option Z) (w : world) (e : exn) :
  seed_accepted seed -> np_seed seed w = Raise e -> False.
Proof.
  intros Hs H. destruct (np_seed_accepted seed w Hs) as [w' H']. congruence.
Qed.

Lemma trim_span_no_segment (splLen v : Z) : splLen <= 0 -> trim_span splLen v = 0.
Proof.
  intros H. unfold trim_span.
  destruct (splLen <? v) eqn:E1.
  - destruct (splLen <? 0) eqn:E2; [reflexivity |]. apply Z.ltb_ge in E2. lia.
  - apply Z.ltb_ge in E1. destruct (v <? 0) eqn:E2; [reflexivity |].
    apply Z.ltb_ge in E2. lia.
Qed.

Lemma filter_empty_span (l : list Z) :
  filter (fun c => (0 <=? c) && (c <? 0)) l = [].
Proof.
  induction l as [| c t IH]; [reflexivity |]. simpl.
  destruct (0 <=? c) eqn:E1, (c <? 0) eqn:E2; simpl; try exact IH.
  apply Z.leb_le in E1. apply Z.ltb_lt in E2. lia.
Qed.

(** X12.  [add_tear] needs a path of at least two samples.  With a supplied
    path of one sample or none, and a seed that [np.random.seed] accepts, no
    tear centre is kept (the span of admissible positions is empty), the
    array of path differences is empty, and the call ends in the
    [IndexError] of [splDer[[0],:]], whatever the other parameters. *)
Theorem add_tear_short_path_raises :
  forall inputIm (sampSpl : path) random_seed nPts minSpacing maxSpacing
         tearStartFactor tearEndFactor dirMin dirMax inLineMax perpMax ptRadius
         tearAlpha inLinePercs perpPercs l1MinCt l1MaxCt minDensity maxDensity
         edgeWidth edgeAlpha edgeColorMult rgbVal randEdge w,
    seed_accepted random_seed ->
    (List.length sampSpl < 2)%nat ->
    add_tear inputIm (Some sampSpl) random_seed nPts minSpacing maxSpacing
      tearStartFactor tearEndFactor dirMin dirMax inLineMax perpMax ptRadius
      tearAlpha inLinePercs perpPercs l1MinCt l1MaxCt minDensity maxDensity
      edgeWidth edgeAlpha edgeColorMult rgbVal randEdge w = Raise IndexError.
Proof.
  intros inputIm sampSpl random_seed nPts minSpacing maxSpacing tearStartFactor
    tearEndFactor dirMin dirMax inLineMax perpMax ptRadius tearAlpha inLinePercs
    perpPercs l1MinCt l1MaxCt minDensity maxDensity edgeWidth edgeAlpha
    edgeColorMult rgbVal randEdge w Hs Hlen.
  unfold add_tear. apply bind_eq_raise. unfold tear_regions.
  apply bind_total_raise; [intros e'; apply np_seed_accepted_raise; exact Hs |].
  intros [] w1 _. cbv zeta.
  rewrite (bind_eq_ok _ _ w1 w1 sampSpl) by reflexivity.
  apply bind_total_raise; [intros e'; apply np_uniform_n_raise; lia |].
  intros tearSpacing w2 _.
  apply bind_total_raise; [intros e'; apply np_uniform_raise |].
  intros u0 w3 _.
  apply bind_total_raise; [intros e'; apply np_uniform_raise |].
  intros u1 w4 _.
  rewrite !trim_span_no_segment by lia. rewrite filter_empty_span.
  rewrite (bind_eq_ok _ _ w4 w4 []) by reflexivity.
  assert (Hder : zip_with (fun p q : Q * Q => (fst p - fst q, snd p - snd q)%Q)
                   sampSpl (tl sampSpl) = []).
  { destruct sampSpl as [| p [| q t]]; [reflexivity | reflexivity |].
    simpl in Hlen. lia. }
  rewrite Hder.
  apply bind_total_raise.
  { intros e'. destruct inLineMax; [discriminate | apply np_uniform_raise]. }
  intros ilm w5 _.
  apply bind_total_raise.
  { intros e'. destruct perpMax; [discriminate | apply np_uniform_raise]. }
  intros pm w6 _.
  apply bind_eq_raise. reflexivity.
Qed.
End ShortTearPath.

(* ------------------------------------------------------------------------- *)
(** ** apply_artifact *)

Lemma dict_get_unknown {V} (d : list (string * V)) (k : string) :
  (forall k' v, In (k', v) d -> k' <> k) -> dict_get d k = Raise KeyError.
Proof.
  induction d as [| [k' v] rest IH]; intros H; [reflexivity |]. simpl.
  assert (E : String.eqb k' k = false).
  { apply String.eqb_neq. apply (H k' v). left. reflexivity. }
  rewrite E. apply IH. intros k'' v' Hin. apply (H k'' v'). right. exact Hin.
Qed.

Lemma typeSeedAdd_names (k : string) (v : Z) :
  In (k, v) typeSeedAdd -> exists a, k = artifact_name a.
Proof.
  unfold typeSeedAdd. simpl.
  intros [H | [H | [H | [H | [H | [H | [H | []]]]]]]]; injection H as <- _;
    [exists Marker | exists Fold | exists Sectioning | exists Illumination
    | exists Bubbles | exists Stain | exists Tear]; reflexivity.
Qed.

Lemma typeTileRand_names (k : string) (v : bool) :
  In (k, v) typeTileRand -> exists a, k = artifact_name a.
Proof.
  unfold typeTileRand. simpl.
  intros [H | [H | [H | [H | [H | [H | [H | []]]]]]]]; injection H as <- _;
    [exists Marker | exists Fold | exists Sectioning | exists Illumination
    | exists Bubbles | exists Stain | exists Tear]; reflexivity.
Qed.

Section CommandLineProperties.
Context {L : Library}.
Variable py_lower : string -> string.
Variable blake2s_int : string -> Z.
Variable path_join : list string -> string.


Lemma deterministic_dispatch (artifactType : string) (inputIm : image) (s : Z) :
  deterministic (dispatch artifactType inputIm s).
Proof.
  unfold dispatch.
  repeat match goal with
         | |- deterministic (if ?b then _ else _) => destruct b
         end.
  - apply reseeded_deterministic, reseeded_add_marker.
  - apply reseeded_deterministic, reseeded_add_fold.
  - apply reseeded_deterministic, reseeded_add_sectioning.
  - apply reseeded_deterministic, reseeded_add_illumination.
  - apply reseeded_deterministic, reseeded_add_bubbles.
  - apply deterministic_add_stain.
  - apply reseeded_deterministic, reseeded_add_tear.
  - intros w1 w2. reflexivity.
Qed.

(** X14.  What [apply_artifact] returns is a function of the image, the
    three path components, the artifact type, [randAdd] and [perTileRand]:
    two runs, started in any two states of NumPy's global generator and of
    the operating system's entropy, return the same image or raise the same
    exception.  The seed is derived from the arguments and handed to a
    generator that seeds with it before its first draw. *)
Theorem apply_artifact_deterministic :
  forall inputIm rDir2 rDir1 fNameNoExt artifactType randAdd perTileRand,
    deterministic
      (apply_artifact py_lower blake2s_int path_join inputIm rDir2 rDir1
         fNameNoExt artifactType randAdd perTileRand).
Proof.
  intros inputIm rDir2 rDir1 fNameNoExt artifactType randAdd perTileRand w1 w2.
  unfold apply_artifact, bind, lift.
  destruct (tile_policy py_lower artifactType perTileRand) as [b |];
    [| reflexivity].
  destruct (derive_seed py_lower blake2s_int
              (identity_string path_join rDir2 rDir1 fNameNoExt b) artifactType
              randAdd) as [s |]; [| reflexivity].
  apply deterministic_dispatch.
Qed.

Lemma stain_factor_total lo hi (w : world) :
  exists f w', stain_factor lo hi w = Ok (f, w') /\ os w' = os w.
Proof.
  unfold stain_factor. unfold np_uniform.
  rewrite (bind_eq_ok _ _ _ _ _ (draw_ok _ _)).
  rewrite (bind_eq_ok _ _ _ _ _ (draw_ok _ _)).
  unfold ret. eexists _, _. split; reflexivity.
Qed.

(** The three stain factors are a function of the seed (lines 611-616): two
    calls with one seed, on any two images, adjust with the same factors. *)
Lemma stain_draw_shared (s : Z) (scaleMax scaleMin : triple Q) :
  0 <= s <= 2 ^ 32 - 1 ->
  forall (im1 im2 : image) (w1 w2 : world),
  exists f : triple Q,
    value (add_stain im1 None scaleMax scaleMin (Some s) w1)
    = value (add_stain im1 (Some f) scaleMax scaleMin None w1) /\
    value (add_stain im2 None scaleMax scaleMin (Some s) w2)
    = value (add_stain im2 (Some f) scaleMax scaleMin None w2).
Proof.
  intros Hs im1 im2 w1 w2.
  destruct scaleMax as [[hi0 hi1] hi2], scaleMin as [[lo0 lo1] lo2].
  set (m := (np_seed (Some s) ;;
             f0 <- stain_factor lo0 hi0 ;;
             f1 <- stain_factor lo1 hi1 ;;
             f2 <- stain_factor lo2 hi2 ;;
             ret (f0, f1, f2)) : M (triple Q)).
  assert (Hre : reseeded m).
  { unfold m. apply reseeded_bind; [apply reseeded_seed |]. intros _.
    apply gen_only_bind; [apply gen_only_stain_factor |]. intros f0.
    apply gen_only_bind; [apply gen_only_stain_factor |]. intros f1.
    apply gen_only_bind; [apply gen_only_stain_factor |]. intros f2.
    apply gen_only_ret. }
  assert (Htot : forall w, exists f w', m w = Ok (f, w')).
  { intros w. unfold m.
    destruct (np_seed_accepted (Some s) w Hs) as [w1' H1].
    rewrite (bind_eq_ok _ _ _ _ _ H1).
    destruct (stain_factor_total lo0 hi0 w1') as (f0 & w2' & H2 & _).
    rewrite (bind_eq_ok _ _ _ _ _ H2).
    destruct (stain_factor_total lo1 hi1 w2') as (f1 & w3' & H3 & _).
    rewrite (bind_eq_ok _ _ _ _ _ H3).
    destruct (stain_factor_total lo2 hi2 w3') as (f2 & w4' & H4 & _).
    rewrite (bind_eq_ok _ _ _ _ _ H4). unfold ret. eauto. }
  assert (Hsame : forall w0 f w0', m w0 = Ok (f, w0') ->
            forall inputIm w,
              value (add_stain inputIm None (hi0, hi1, hi2) (lo0, lo1, lo2)
                       (Some s) w)
              = value (add_stain inputIm (Some f) (hi0, hi1, hi2) (lo0, lo1, lo2)
                         None w)).
  { intros w0 f w0' H0 inputIm w.
    destruct (Htot w) as (f' & w' & Hw).
    pose proof (Hre w0 w) as Hrel. rewrite H0, Hw in Hrel. simpl in Hrel.
    destruct Hrel as [<- _].
    unfold add_stain. fold m. rewrite (bind_eq_ok _ _ _ _ _ Hw).
    rewrite (bind_eq_ok _ _ w w f) by reflexivity.
    unfold bind, lift, ret.
    destruct (adjust_stain inputIm f) as [[[[rgbOut rgb1] rgb2] rgb3] |];
      reflexivity. }
  destruct (Htot w1) as (f & w1' & Hf).
  exists f. split; eapply Hsame; exact Hf.
Qed.

(** X15.  Stain is randomised by slide: with [perTileRand] left at [None]
    the seed of a [stain] run is derived from the two directory names alone,
    so every tile of a slide - whatever its file name, its pixels and the
    state of the generator - is adjusted with the same three stain factors.
    Each run equals [add_stain] called with these factors given. *)
Theorem stain_factors_shared_by_slide :
  forall (im1 im2 : image) rDir2 rDir1 fName1 fName2 artifactType randAdd
         (w1 w2 : world),
    py_lower artifactType = "stain"%string ->
    exists f : triple Q,
      value (apply_artifact py_lower blake2s_int path_join im1 rDir2 rDir1
               fName1 artifactType randAdd None w1)
      = value (add_stain im1 (Some f) (3, 3, 3 # 2)%Q (5 # 4, 5 # 4, 1)%Q None w1)
      /\
      value (apply_artifact py_lower blake2s_int path_join im2 rDir2 rDir1
               fName2 artifactType randAdd None w2)
      = value (add_stain im2 (Some f) (3, 3, 3 # 2)%Q (5 # 4, 5 # 4, 1)%Q None w2).
Proof.
  intros im1 im2 rDir2 rDir1 fName1 fName2 artifactType randAdd w1 w2 Ht.
  set (fID := path_join [rDir2; rDir1]).
  set (s := (blake2s_int fID + randAdd + type_offset Stain) mod randMax).
  assert (Hseed : derive_seed py_lower blake2s_int fID artifactType randAdd = Ok s)
    by (apply derive_seed_known; exact Ht).
  assert (Hs : 0 <= s <= 2 ^ 32 - 1)
    by (apply (derive_seed_accepted _ _ _ _ _ _ Hseed)).
  assert (Hrun : forall im fName (w : world),
            apply_artifact py_lower blake2s_int path_join im rDir2 rDir1 fName
              artifactType randAdd None w
            = add_stain im None (3, 3, 3 # 2)%Q (5 # 4, 5 # 4, 1)%Q (Some s) w).
  { intros im fName w. unfold apply_artifact.
    rewrite (bind_eq_ok _ _ w w false)
      by (unfold lift, tile_policy; rewrite Ht; reflexivity).
    unfold identity_string. fold fID.
    rewrite (bind_eq_ok _ _ w w s) by (unfold lift; rewrite Hseed; reflexivity).
    rewrite Ht. reflexivity. }
  rewrite !Hrun. apply stain_draw_shared. exact Hs.
Qed.
End CommandLineProperties.

(* ------------------------------------------------------------------------- *)
(** ** The array lookups of add_tear *)

Lemma np_take_ok {A} (l : list A) (i : Z) :
  0 <= i < Z.of_nat (List.length l) -> exists a, np_take l i = Ok a.
Proof.
  intros H. unfold np_take. rewrite (np_index_direct _ _ H). simpl.
  destruct (nth_error l (Z.to_nat i)) as [a |] eqn:E; [eauto |].
  apply nth_error_None in E. lia.
Qed.

Lemma rmapM_length {A B} (f : A -> result B) :
  forall (l : list A) (r : list B), rmapM f l = Ok r -> List.length r = List.length l.
Proof.
  induction l as [| a t IH]; intros r H; simpl in H.
  - injection H as <-. reflexivity.
  - destruct (f a) as [b |]; [| discriminate]. simpl in H.
    destruct (rmapM f t) as [rest |]; [| discriminate]. simpl in H.
    injection H as <-. simpl. f_equal. apply IH. reflexivity.
Qed.

Lemma rmapM_np_take_ok {A} (l : list A) :
  forall cs : list Z,
    Forall (fun c => 0 <= c < Z.of_nat (List.length l)) cs ->
    exists r, rmapM (np_take l) cs = Ok r.
Proof.
  induction cs as [| c t IH]; intros H; simpl; [eauto |].
  inversion H as [| ? ? Hc Ht]; subst.
  destruct (np_take_ok l c Hc) as [a ->]. destruct (IH Ht) as [r ->].
  simpl. eauto.
Qed.

Lemma trim_span_range (splLen v : Z) : 0 <= trim_span splLen v <= Z.max 0 splLen.
Proof.
  unfold trim_span. destruct (splLen <? v) eqn:E1.
  - destruct (splLen <? 0) eqn:E2;
      [apply Z.ltb_lt in E2 | apply Z.ltb_ge in E2]; lia.
  - apply Z.ltb_ge in E1. destruct (v <? 0) eqn:E2;
      [apply Z.ltb_lt in E2 | apply Z.ltb_ge in E2]; lia.
Qed.

(** Lines 713-720: the positions that are kept lie on the path, before its
    last sample. *)
Lemma kept_positions_on_path (splLen a b : Z) (l : list Z) :
  Forall (fun c => 0 <= c < splLen)
    (filter (fun c => (trim_span splLen a <=? c) && (c <? trim_span splLen b)) l).
Proof.
  apply Forall_forall. intros c Hc. apply filter_In in Hc. destruct Hc as [_ Hc].
  apply andb_true_iff in Hc. rewrite Z.leb_le, Z.ltb_lt in Hc.
  pose proof (trim_span_range splLen a). pose proof (trim_span_range splLen b).
  lia.
Qed.

Lemma zip_with_length {A B C} (f : A -> B -> C) :
  forall (l1 : list A) (l2 : list B),
    List.length (zip_with f l1 l2) = Nat.min (List.length l1) (List.length l2).
Proof.
  induction l1 as [| a t IH]; intros [| b t2]; simpl; try reflexivity.
  f_equal. apply IH.
Qed.

Lemma zip_tl_length {A C} (f : A -> A -> C) (l : list A) :
  List.length (zip_with f l (tl l)) = pred (List.length l).
Proof.
  rewrite zip_with_length.
  destruct l as [| a t]; [reflexivity | cbn [tl List.length pred]; lia].
Qed.

Section TearLookups.
Context {L : Library}.
Hypothesis randint_contract : randint_in_range L.

Lemma np_uniform_n_length (low high : Q) (count : Z) (w : world) l w' :
  np_uniform_n low high count w = Ok (l, w') ->
  0 <= count /\ Z.of_nat (List.length l) = count.
Proof.
  unfold np_uniform_n. destruct (count <? 0) eqn:E; [discriminate |].
  intros H. apply repeatM_draw_length in H. apply Z.ltb_ge in E. lia.
Qed.

Lemma np_uniform_n_value_error (low high : Q) (count : Z) (w : world) (e : exn) :
  np_uniform_n low high count w = Raise e -> e = ValueError.
Proof.
  unfold np_uniform_n, raise. destruct (count <? 0); [congruence |].
  intros H. apply repeatM_draw_raise in H. contradiction.
Qed.

Lemma mapM_raise_only {A B} (f : A -> M B) (P : A -> Prop) (e0 : exn) :
  (forall a w e, P a -> f a w = Raise e -> e = e0) ->
  forall l w e, Forall P l -> mapM f l w = Raise e -> e = e0.
Proof.
  intros Hf. induction l as [| a t IH]; intros w e Hl H; simpl in H;
    [discriminate |].
  inversion Hl as [| ? ? Ha Ht]; subst.
  apply bind_raise in H. destruct H as [H | (b & w1 & _ & H)];
    [eapply Hf; eassumption |].
  apply bind_raise in H. destruct H as [H | (rest & w2 & _ & H)];
    [eapply IH; eassumption | discriminate].
Qed.

Section OneTear.
Variables (inLineMax perpMax : Q) (inLinePercs perpPercs : list Q * list Q).
Variables (center der : Q * Q).

(** The parents of a layer are rows of the previous layer: the draw
    [randint(0, tearCts[tIdx, layer-1])] stays below the number of points
    that layer has. *)
Lemma tear_layer_outcome (layer nTPts prevCt : Z) (prev : path) (w : world) :
  0 <= layer -> percs_cover inLinePercs perpPercs (layer + 1) ->
  (layer = 0 \/ Z.of_nat (List.length prev) = prevCt) ->
  match tear_layer inLineMax perpMax inLinePercs perpPercs center der layer
          nTPts prevCt prev w with
  | Ok (newPts, _) => Z.of_nat (List.length newPts) = nTPts
  | Raise e => e = ValueError
  end.
Proof.
  intros Hl (Hc1 & Hc2 & Hc3 & Hc4) Hprev.
  destruct (tear_layer inLineMax perpMax inLinePercs perpPercs center der layer
              nTPts prevCt prev w) as [[newPts w'] | e] eqn:H.
  - unfold tear_layer in H.
    apply bind_ok in H. destruct H as (centPts & w1 & Hcent & H).
    apply bind_ok in H. destruct H as (ilo & w2 & _ & H).
    apply bind_ok in H. destruct H as (ihi & w3 & _ & H).
    apply bind_ok in H. destruct H as (inLineFactor & w4 & Hil & H).
    apply bind_ok in H. destruct H as (plo & w5 & _ & H).
    apply bind_ok in H. destruct H as (phi & w6 & _ & H).
    apply bind_ok in H. destruct H as (perpFactor & w7 & Hpf & H).
    apply ret_ok in H. destruct H as [-> _].
    apply np_uniform_n_length in Hil. apply np_uniform_n_length in Hpf.
    assert (Hcl : Z.of_nat (List.length centPts) = nTPts).
    { destruct (layer =? 0).
      - destruct (nTPts <? 0) eqn:E; [discriminate |]. apply Z.ltb_ge in E.
        apply ret_ok in Hcent. destruct Hcent as [-> _].
        rewrite repeat_length. lia.
      - apply bind_ok in Hcent. destruct Hcent as (centIdxs & w8 & Hidx & Hcent).
        apply lift_ok in Hcent. destruct Hcent as [Hcent _].
        apply rmapM_length in Hcent. apply np_randint_n_length in Hidx. lia. }
    rewrite !zip_with_length. lia.
  - unfold tear_layer in H.
    apply bind_raise in H. destruct H as [H | (centPts & w1 & _ & H)].
    { destruct (layer =? 0) eqn:El.
      - destruct (nTPts <? 0); [unfold raise in H; congruence | discriminate].
      - apply Z.eqb_neq in El.
        apply bind_raise in H. destruct H as [H | (centIdxs & w8 & Hidx & H)];
          [eapply np_randint_n_raise; exact H |].
        apply lift_raise in H. exfalso.
        apply (np_randint_n_range randint_contract) in Hidx.
        destruct Hidx as [_ Hidx].
        destruct (rmapM_np_take_ok prev centIdxs) as [r Hr]; [| congruence].
        eapply Forall_impl; [| exact Hidx]. intros c Hc. simpl in Hc.
        destruct Hprev as [Hz | Hp]; [contradiction | lia]. }
    apply bind_raise in H. destruct H as [H | (ilo & w2 & _ & H)].
    { apply lift_raise in H. exfalso.
      destruct (np_take_ok (fst inLinePercs) layer) as [a Ha]; [lia | congruence]. }
    apply bind_raise in H. destruct H as [H | (ihi & w3 & _ & H)].
    { apply lift_raise in H. exfalso.
      destruct (np_take_ok (snd inLinePercs) layer) as [a Ha]; [lia | congruence]. }
    apply bind_raise in H. destruct H as [H | (inLineFactor & w4 & _ & H)];
      [eapply np_uniform_n_value_error; exact H |].
    apply bind_raise in H. destruct H as [H | (plo & w5 & _ & H)].
    { apply lift_raise in H. exfalso.
      destruct (np_take_ok (fst perpPercs) layer) as [a Ha]; [lia | congruence]. }
    apply bind_raise in H. destruct H as [H | (phi & w6 & _ & H)].
    { apply lift_raise in H. exfalso.
      destruct (np_take_ok (snd perpPercs) layer) as [a Ha]; [lia | congruence]. }
    apply bind_raise in H. destruct H as [H | (perpFactor & w7 & _ & H)];
      [eapply np_uniform_n_value_error; exact H | discriminate].
Qed.

Lemma tear_layers_value_error :
  forall (counts : list Z) (layer prevCt : Z) (prev : path) (w : world) (e : exn),
    0 <= layer ->
    percs_cover inLinePercs perpPercs (layer + Z.of_nat (List.length counts)) ->
    (layer = 0 \/ Z.of_nat (List.length prev) = prevCt) ->
    tear_layers inLineMax perpMax inLinePercs perpPercs center der layer counts
      prevCt prev w = Raise e ->
    e = ValueError.
Proof.
  induction counts as [| nTPts rest IH]; intros layer prevCt prev w e Hl Hc Hp H;
    simpl in H; [discriminate |].
  assert (Hc1 : percs_cover inLinePercs perpPercs (layer + 1)).
  { unfold percs_cover in *. simpl List.length in Hc. lia. }
  pose proof (tear_layer_outcome layer nTPts prevCt prev w Hl Hc1 Hp) as Hout.
  apply bind_raise in H. destruct H as [H | (newPts & w1 & Hnew & H)].
  - rewrite H in Hout. exact Hout.
  - rewrite Hnew in Hout.
    apply bind_raise in H. destruct H as [H | (more & w2 & _ & H)];
      [| discriminate].
    eapply IH; [| | | exact H].
    + lia.
    + unfold percs_cover in *. simpl List.length in Hc. lia.
    + right. exact Hout.
Qed.
End OneTear.

Lemma density_columns_outcome (tearDensity : Q) (minDensity maxDensity : list Q)
  (nTears : Z) :
  forall (rest : list Q) (tNo : Z) (w : world),
    0 <= tNo ->
    tNo + Z.of_nat (List.length rest) <= Z.of_nat (List.length maxDensity) ->
    match density_columns tearDensity minDensity maxDensity tNo nTears rest w with
    | Ok (cols, _) => List.length cols = List.length rest
    | Raise e => e = ValueError
    end.
Proof.
  induction rest as [| lo rest IH]; intros tNo w Ht Hlen; simpl; [reflexivity |].
  simpl List.length in Hlen.
  destruct (np_take_ok maxDensity tNo) as [hi Hhi]; [lia |].
  rewrite (bind_eq_ok _ _ w w hi) by (unfold lift; rewrite Hhi; reflexivity).
  destruct (np_randint_n (Qceiling (tearDensity * lo)) (Qceiling (tearDensity * hi))
              nTears w) as [[col w1] | e] eqn:Hcol.
  - rewrite (bind_eq_ok _ _ _ _ _ Hcol).
    specialize (IH (tNo + 1) w1).
    destruct (density_columns tearDensity minDensity maxDensity (tNo + 1) nTears
                rest w1) as [[cols w2] | e] eqn:Hcols.
    + rewrite (bind_eq_ok _ _ _ _ _ Hcols). unfold ret. simpl. f_equal.
      apply IH; lia.
    + rewrite (bind_eq_raise _ _ _ _ Hcols). apply IH; lia.
  - rewrite (bind_eq_raise _ _ _ _ Hcol). eapply np_randint_n_raise. exact Hcol.
Qed.

End TearLookups.

(* ------------------------------------------------------------------------- *)
(** ** The colour of the marker *)

Section MarkerColour.
Context {L : Library}.
Hypothesis randint_contract : randint_in_range L.

Lemma np_randint_range (low high : Z) (w : world) (v : Z) (w' : world) :
  np_randint low high w = Ok (v, w') -> low <= v < high.
Proof.
  unfold np_randint. destruct (low <? high) eqn:E; [| discriminate].
  apply Z.ltb_lt in E. rewrite draw_ok. intros H. injection H as <- _.
  apply randint_contract. exact E.
Qed.

(** X17.  When no colour is given, the marker is painted in a colour drawn
    channel by channel from [rgbRange]: each channel is an integer at or
    above the lower entry of its row and strictly below the upper one (with
    the default ranges: at most 49, 49 and 99, a dark marker). *)
Theorem add_marker_colour_in_range :
  forall inputIm random_seed nPts sampSpl inPts width alpha
         (r0 r1 r2 : Z * Z) w im w',
    add_marker inputIm random_seed nPts sampSpl inPts width alpha None
      (r0, r1, r2) w = Ok (im, w') ->
    exists (v0 v1 v2 : Z) (bwReg : region),
      im = marker_composite inputIm bwReg alpha (Z2Q v0, Z2Q v1, Z2Q v2) /\
      fst r0 <= v0 < snd r0 /\ fst r1 <= v1 < snd r1 /\ fst r2 <= v2 < snd r2.
Proof.
  intros inputIm random_seed nPts sampSpl inPts width alpha r0 r1 r2 w im w' H.
  unfold add_marker in H.
  apply bind_ok in H. destruct H as ([rgbVal bwReg] & w1 & Hreg & H).
  apply ret_ok in H. destruct H as [-> _].
  unfold marker_region in Hreg.
  apply bind_ok in Hreg. destruct Hreg as ([] & w2 & _ & Hreg).
  apply bind_ok in Hreg. destruct Hreg as (rgb & w3 & Hrgb & Hreg).
  apply bind_ok in Hrgb. destruct Hrgb as (v0 & w4 & H0 & Hrgb).
  apply bind_ok in Hrgb. destruct Hrgb as (v1 & w5 & H1 & Hrgb).
  apply bind_ok in Hrgb. destruct Hrgb as (v2 & w6 & H2 & Hrgb).
  apply ret_ok in Hrgb. destruct Hrgb as [-> _].
  apply bind_ok in Hreg. destruct Hreg as (spl & w7 & _ & Hreg).
  apply bind_ok in Hreg. destruct Hreg as (mask & w8 & _ & Hreg).
  apply ret_ok in Hreg. destruct Hreg as [Hreg _]. injection Hreg as -> ->.
  apply np_randint_range in H0, H1, H2.
  exists v0, v1, v2. eexists. split; [reflexivity |]. auto.
Qed.
End MarkerColour.

(* ------------------------------------------------------------------------- *)
(** ** The executable generator honours the range contracts *)

Lemma lcg_randint_in_range : randint_in_range Demo.lib.
Proof.
  intros low high g Hlt.
  change (randint1 low high g) with (Demo.lcg_randint low high g).
  unfold Demo.lcg_randint. cbn [fst].
  pose proof (Z.mod_pos_bound (Demo.bits (Demo.lcg g)) (high - low)) as Hb.
  lia.
Qed.

Lemma lcg_uniform_in_range : uniform_in_range Demo.lib.
Proof.
  intros low high g Hle.
  change (uniform1 low high g) with (Demo.lcg_uniform low high g).
  unfold Demo.lcg_uniform. cbn [fst]. rewrite Qred_correct.
  set (k := Demo.bits (Demo.lcg g) mod 1024).
  assert (Hk : 0 <= k < 1024) by (apply Z.mod_pos_bound; lia).
  assert (H0 : (0 <= k # 1024)%Q) by (unfold Qle; simpl; lia).
  assert (H1 : (0 <= 1 - (k # 1024))%Q).
  { assert (E : (k # 1024 <= 1)%Q) by (unfold Qle; simpl; lia). lra. }
  assert (Ha : (0 <= (high - low) * (k # 1024))%Q)
    by (apply Qmult_le_0_compat; lra).
  assert (Hb : (0 <= (high - low) * (1 - (k # 1024)))%Q)
    by (apply Qmult_le_0_compat; lra).
  assert (E : ((high - low) * (1 - (k # 1024))
               == (high - low) - (high - low) * (k # 1024))%Q) by ring.
  rewrite E in Hb. split; lra.
Qed.

(* ------------------------------------------------------------------------- *)
(** ** Further concrete runs *)

Lemma path_mask_cells_witness :
  0 <= fst (2, 3) /\ 0 <= snd (2, 3) /\
  exists mask : raster,
    path_mask py_trunc (2, 3) [(1, 0); (5 # 2, 1)]%Q = Ok mask /\
    shaped (2, 3) mask /\
    cell 1%Q mask 1 2 = 0%Q /\ cell 1%Q mask 1 1 = 1%Q.
Proof.
  split; [simpl; lia |]. split; [simpl; lia |].
  assert (Hrun : exists mask,
             path_mask py_trunc (2, 3) [(1, 0); (5 # 2, 1)]%Q = Ok mask).
  { eexists. vm_compute. reflexivity. }
  destruct Hrun as [mask Hrun]. exists mask. split; [exact Hrun |].
  destruct (path_mask_cells py_trunc (2, 3) [(1, 0); (5 # 2, 1)]%Q mask
              ltac:(simpl; lia) ltac:(simpl; lia) Hrun) as [Hs Hc].
  split; [exact Hs |]. split.
  - exact (Hc 1 2 ltac:(simpl; lia) ltac:(simpl; lia)).
  - exact (Hc 1 1 ltac:(simpl; lia) ltac:(simpl; lia)).
Defined.

Lemma random_handles_end_edge_pinned_witness :
  0 <= py_int_of (EBool true) < 4 /\
  exists (hs : list (Z * Z)) (w' : @world Demo.lib),
    random_handles (L := Demo.lib) (10, 10) 3 (EInt 2) (EBool true) Demo.w0
    = Ok (hs, w') /\
    hs <> [] /\ on_edge 1 (10, 10) (last hs (0, 0)).
Proof.
  split; [simpl; lia |].
  assert (Hrun : exists hs w',
             random_handles (L := Demo.lib) (10, 10) 3 (EInt 2) (EBool true)
               Demo.w0 = Ok (hs, w')).
  { eexists. eexists. vm_compute. reflexivity. }
  destruct Hrun as (hs & w' & Hrun). exists hs, w'. split; [exact Hrun |].
  exact (random_handles_end_edge_pinned (L := Demo.lib) (10, 10) 3 (EInt 2)
           (EBool true) Demo.w0 hs w' ltac:(simpl; lia) Hrun).
Defined.

Lemma random_handles_relative_end_edge_witness :
  0 <= 3 < 4 /\ -4 <= -2 < 0 /\
  exists (hs : list (Z * Z)) (w' : @world Demo.lib),
    random_handles (L := Demo.lib) (10, 10) 4 (EInt 3) (EInt (-2)) Demo.w0
    = Ok (hs, w') /\
    hs <> [] /\ on_edge 1 (10, 10) (last hs (0, 0)).
Proof.
  split; [lia |]. split; [lia |].
  assert (Hrun : exists hs w',
             random_handles (L := Demo.lib) (10, 10) 4 (EInt 3) (EInt (-2))
               Demo.w0 = Ok (hs, w')).
  { eexists. eexists. vm_compute. reflexivity. }
  destruct Hrun as (hs & w' & Hrun). exists hs, w'. split; [exact Hrun |].
  exact (random_handles_relative_end_edge (L := Demo.lib) (10, 10) 4 3 (-2)
           Demo.w0 hs w' ltac:(lia) ltac:(lia) Hrun).
Defined.

Lemma random_handles_inside_image_witness :
  randint_in_range Demo.lib /\
  exists (hs : list (Z * Z)) (w' : @world Demo.lib),
    random_handles (L := Demo.lib) (10, 10) 4 (EBool true) (EInt (-2)) Demo.w0
    = Ok (hs, w') /\
    Forall (handle_inside (10, 10)) hs.
Proof.
  split; [exact lcg_randint_in_range |].
  assert (Hrun : exists hs w',
             random_handles (L := Demo.lib) (10, 10) 4 (EBool true) (EInt (-2))
               Demo.w0 = Ok (hs, w')).
  { eexists. eexists. vm_compute. reflexivity. }
  destruct Hrun as (hs & w' & Hrun). exists hs, w'. split; [exact Hrun |].
  exact (random_handles_inside_image (L := Demo.lib) lcg_randint_in_range
           (10, 10) 4 (EBool true) (EInt (-2)) Demo.w0 hs w' Hrun).
Defined.

Lemma random_handles_bool_start_edge_witness :
  randint_in_range Demo.lib /\ 3 <> 1 /\
  exists (hs : list (Z * Z)) (w' : @world Demo.lib),
    random_handles (L := Demo.lib) (10, 10) 3 (EBool false) (EBool true) Demo.w0
    = Ok (hs, w') /\
    exists (p : Z * Z) (rest : list (Z * Z)),
      hs = p :: rest /\ on_some_edge (10, 10) p.
Proof.
  split; [exact lcg_randint_in_range |]. split; [lia |].
  assert (Hrun : exists hs w',
             random_handles (L := Demo.lib) (10, 10) 3 (EBool false) (EBool true)
               Demo.w0 = Ok (hs, w')).
  { eexists. eexists. vm_compute. reflexivity. }
  destruct Hrun as (hs & w' & Hrun). exists hs, w'. split; [exact Hrun |].
  exact (random_handles_bool_start_edge (L := Demo.lib) lcg_randint_in_range
           (10, 10) 3 false (EBool true) Demo.w0 hs w' ltac:(lia) Hrun).
Defined.

Lemma add_fold_returns_only_with_accepted_seeds_witness :
  exists r : @image Demo.lib * @world Demo.lib,
    add_fold (L := Demo.lib) (Demo.grey 12 12) None
      (Some [(0, 0); (4, 4); (8, 8)]%Q) None (Some 42) (1, 1)%Q 4 None false 2 3
      (EInt (-2)) Demo.w0 = Ok r /\
    0 <= 42 /\ 42 + Z.max 1 2 - 1 <= 2 ^ 32 - 1.
Proof.
  assert (Hrun : exists r,
             add_fold (L := Demo.lib) (Demo.grey 12 12) None
               (Some [(0, 0); (4, 4); (8, 8)]%Q) None (Some 42) (1, 1)%Q 4 None
               false 2 3 (EInt (-2)) Demo.w0 = Ok r).
  { eexists. vm_compute. reflexivity. }
  destruct Hrun as [r Hrun]. exists r. split; [exact Hrun |].
  exact (add_fold_returns_only_with_accepted_seeds (L := Demo.lib)
           (Demo.grey 12 12) None (Some [(0, 0); (4, 4); (8, 8)]%Q) None 42
           (1, 1)%Q 4 None false 2 3 (EInt (-2)) Demo.w0 r Hrun).
Defined.





Lemma add_bubbles_without_bubbles_witness :
  seed_accepted (Some 42) /\
  (exists (bwReg edgeArea : region) (w' : @world Demo.lib),
      add_bubbles (L := Demo.lib) (Demo.grey 4 3) (Some 42) 0 50 (3 # 4) 2
        (3 # 4, 3 # 4, 3 # 4)%Q (225, 225, 225)%Q Demo.w0
      = Ok (bubbles_composite (Library := Demo.lib) (Demo.grey 4 3) bwReg
              edgeArea (3 # 4) (3 # 4, 3 # 4, 3 # 4)%Q (225, 225, 225)%Q, w') /\
      all_cells (fun b => b = false) bwReg /\
      all_cells (fun b => b = false) edgeArea) /\
  add_bubbles (L := Demo.lib) (Demo.grey 4 3) (Some 42) (-1) 50 (3 # 4) 2
    (3 # 4, 3 # 4, 3 # 4)%Q (225, 225, 225)%Q Demo.w0 = Raise ValueError.
Proof.
  assert (Hs : seed_accepted (Some 42)) by (simpl; lia).
  destruct (add_bubbles_without_bubbles (L := Demo.lib) (Demo.grey 4 3) (Some 42)
              50 (3 # 4) 2 (3 # 4, 3 # 4, 3 # 4)%Q (225, 225, 225)%Q Demo.w0 Hs)
    as [Hnone Hneg].
  split; [exact Hs |]. split; [exact Hnone |]. apply Hneg. lia.
Defined.

Lemma add_tear_short_path_raises_witness :
  seed_accepted (Some 42) /\ (List.length [(1, 1)%Q] < 2)%nat /\
  add_tear (L := Demo.lib) (Demo.grey 6 6) (Some [(1, 1)%Q]) (Some 42) 2 20 40
    (- (15 # 100), 15 # 100)%Q (85 # 100, 115 # 100)%Q 10 30 None None (9 # 4) 1
    ([- (5 # 10); - (3 # 10); - (2 # 10)], [5 # 10; 3 # 10; 2 # 10])%Q
    ([- (5 # 10); - (3 # 10); - (2 # 10)], [5 # 10; 3 # 10; 2 # 10])%Q
    3 8 [1 # 2; 1 # 2]%Q [3 # 2; 3 # 2]%Q 2 (3 # 4)
    (85 # 100, 7 # 10, 85 # 100)%Q (245, 245, 245)%Q true Demo.w0
  = Raise IndexError.
Proof.
  assert (Hs : seed_accepted (Some 42)) by (simpl; lia).
  assert (Hlen : (List.length [(1, 1)%Q] < 2)%nat) by (simpl; lia).
  split; [exact Hs |]. split; [exact Hlen |].
  exact (add_tear_short_path_raises (L := Demo.lib) (Demo.grey 6 6) [(1, 1)%Q]
           (Some 42) 2 20 40 (- (15 # 100), 15 # 100)%Q (85 # 100, 115 # 100)%Q
           10 30 None None (9 # 4) 1
           ([- (5 # 10); - (3 # 10); - (2 # 10)], [5 # 10; 3 # 10; 2 # 10])%Q
           ([- (5 # 10); - (3 # 10); - (2 # 10)], [5 # 10; 3 # 10; 2 # 10])%Q
           3 8 [1 # 2; 1 # 2]%Q [3 # 2; 3 # 2]%Q 2 (3 # 4)
           (85 # 100, 7 # 10, 85 # 100)%Q (245, 245, 245)%Q true Demo.w0 Hs Hlen).
Defined.


Lemma stain_factors_shared_by_slide_witness :
  Demo.lower "Stain" = "stain"%string /\
  exists f : triple Q,
    value (apply_artifact (L := Demo.lib) Demo.lower Demo.digest
             (String.concat "/") (Demo.grey 4 4) "study" "slide1" "tile_0_0"
             "Stain" 0 None Demo.w0)
    = value (add_stain (L := Demo.lib) (Demo.grey 4 4) (Some f) (3, 3, 3 # 2)%Q
               (5 # 4, 5 # 4, 1)%Q None Demo.w0) /\
    value (apply_artifact (L := Demo.lib) Demo.lower Demo.digest
             (String.concat "/") (Demo.grey 2 3) "study" "slide1" "tile_7_2"
             "Stain" 0 None (World (L := Demo.lib) 99 5))
    = value (add_stain (L := Demo.lib) (Demo.grey 2 3) (Some f) (3, 3, 3 # 2)%Q
               (5 # 4, 5 # 4, 1)%Q None (World (L := Demo.lib) 99 5)).
Proof.
  assert (Ht : Demo.lower "Stain" = "stain"%string) by reflexivity.
  split; [exact Ht |].
  exact (stain_factors_shared_by_slide (L := Demo.lib) Demo.lower Demo.digest
           (String.concat "/") (Demo.grey 4 4) (Demo.grey 2 3) "study" "slide1"
           "tile_0_0" "tile_7_2" "Stain" 0 Demo.w0 (World (L := Demo.lib) 99 5)
           Ht).
Defined.


Lemma add_marker_colour_in_range_witness :
  randint_in_range Demo.lib /\
  exists (im : @image Demo.lib) (w' : @world Demo.lib),
    add_marker (L := Demo.lib) (Demo.grey 6 4) (Some 42) 3
      (Some [(0, 0); (1, 1); (2, 2)]%Q) None 2 (3 # 4) None
      ((0, 50), (0, 50), (0, 100)) Demo.w0 = Ok (im, w') /\
    exists (v0 v1 v2 : Z) (bwReg : region),
      im = marker_composite (Library := Demo.lib) (Demo.grey 6 4) bwReg (3 # 4)
             (Z2Q v0, Z2Q v1, Z2Q v2) /\
      fst (0, 50) <= v0 < snd (0, 50) /\ fst (0, 50) <= v1 < snd (0, 50) /\
      fst (0, 100) <= v2 < snd (0, 100).
Proof.
  split; [exact lcg_randint_in_range |].
  assert (Hrun : exists im w',
             add_marker (L := Demo.lib) (Demo.grey 6 4) (Some 42) 3
               (Some [(0, 0); (1, 1); (2, 2)]%Q) None 2 (3 # 4) None
               ((0, 50), (0, 50), (0, 100)) Demo.w0 = Ok (im, w')).
  { eexists. eexists. vm_compute. reflexivity. }
  destruct Hrun as (im & w' & Hrun). exists im, w'. split; [exact Hrun |].
  exact (add_marker_colour_in_range (L := Demo.lib) lcg_randint_in_range
           (Demo.grey 6 4) (Some 42) 3 (Some [(0, 0); (1, 1); (2, 2)]%Q) None 2
           (3 # 4) (0, 50) (0, 50) (0, 100) Demo.w0 im w' Hrun).
Defined.
